(** * TradeSignalFlux: the news-to-notification pipeline of [src/main.py]

    A shallow embedding of the [TradingBot] class: the deduplication store and
    its persistence, the NewsAPI fetcher with its retry policy, the article
    fingerprint, the response parser with its six regular expressions, and the
    per-article pipeline with the run loop.

    Python strings are sequences of Unicode code points; they are modelled as
    lists of code points ([N]).  Remote services, the state file and the
    iteration order of a Python set are inputs of the model (record [World]);
    every call the bot makes is recorded in a trace of events. *)

From Stdlib Require Import ZArith NArith Lia Ascii String.
From stdpp Require Import gmap strings list fin_maps sorting.

Local Open Scope N_scope.

(** ** Strings *)

Abbreviation str := (list N).

(** A literal of the source (ASCII only) as a Python string. *)
Fixpoint u (s : string) : str :=
  match s with
  | EmptyString => []
  | String a s' => N_of_ascii a :: u s'
  end.

(** [str.isspace] on one character; also the class [\s] of [re] on [str]
    patterns (both are [Py_UNICODE_ISSPACE]). *)
Definition isspace (c : N) : bool :=
  ((9 <=? c) && (c <=? 13)) || ((28 <=? c) && (c <=? 32))
  || (c =? 133) || (c =? 160) || (c =? 5760)
  || ((8192 <=? c) && (c <=? 8202))
  || (c =? 8232) || (c =? 8233) || (c =? 8239) || (c =? 8287) || (c =? 12288).

Fixpoint lstrip (s : str) : str :=
  match s with
  | c :: s' => if isspace c then lstrip s' else s
  | [] => []
  end.

Definition rstrip (s : str) : str := rev (lstrip (rev s)).

(** [s.strip()] *)
Definition strip (s : str) : str := rstrip (lstrip s).

(** ["sep".join(parts)] *)
Fixpoint join (sep : str) (parts : list str) : str :=
  match parts with
  | [] => []
  | [p] => p
  | p :: ps => p ++ sep ++ join sep ps
  end.

Definition newline : N := 10.

(** ** Exceptions and results *)

Inductive exn :=
| AttributeError
| FileNotFoundError
| PermissionError
| OSError
| UnicodeEncodeError
| UnicodeDecodeError
| ValueError
| JSONDecodeError
| HTTPError
| ConnectionError.

Inductive outcome (A : Type) :=
| Ok (a : A)
| Raise (e : exn).
Arguments Ok {A} a.
Arguments Raise {A} e.

(** ** The regular expressions of [_parse_analysis]

    The six patterns use literals, the classes [\s], [.] and [[A-Z]], greedy
    and lazy repetition of one class, alternation, one capturing group, a
    look-ahead and [$].  The matcher below is the backtracking matcher of
    [re] for that fragment: alternatives are tried left to right, a greedy
    repetition tries the longest run first, a lazy one the shortest. *)

Inductive cset :=
| CSpace                  (* \s *)
| CAny                    (* .  (no DOTALL: everything but a newline) *)
| CRange (lo hi : N).     (* [lo-hi] *)

Inductive regex :=
| RLit (l : str)                                        (* literal text *)
| RRep (c : cset) (lo : nat) (hi : option nat) (greedy : bool)
                                                        (* c{lo,hi} or c{lo,hi}? *)
| RSeq (r1 r2 : regex)
| RAlt (r1 r2 : regex)
| RGroup (r : regex)                                    (* ( r ), group 1 *)
| RLook (r : regex)                                     (* (?= r ) *)
| REnd.                                                 (* $ (no MULTILINE) *)

(** Lower-casing as the matcher needs it.  Every literal and range of the
    patterns is ASCII, so a text character is only ever compared, after
    lower-casing, with an ASCII letter or with one of the two extra cases
    below; the code points whose lower case is ASCII are [A-Z], U+0130 and
    U+212A, and on all other code points the comparison is unaffected by
    leaving them as they are. *)
Definition unicode_tolower (c : N) : N :=
  if (65 <=? c) && (c <=? 90) then c + 32
  else if c =? 304 then 105
  else if c =? 8490 then 107
  else c.

(** [sre_compile._extra_cases]: lower-case characters that IGNORECASE also
    identifies with a lower-case ASCII letter (dotless i, long s). *)
Definition extra_cases (lo : N) : list N :=
  if lo =? 105 then [305]
  else if lo =? 115 then [383]
  else [].

(** A literal pattern character [c] against a text character [d]. *)
Definition lit_match (ignorecase : bool) (c d : N) : bool :=
  if ignorecase then
    let lo := unicode_tolower c in
    let ld := unicode_tolower d in
    (ld =? lo) || existsb (N.eqb ld) (extra_cases lo)
  else d =? c.

(** The characters [lo], [lo+1], ..., [lo+n-1]. *)
Fixpoint chars_from (lo : N) (n : nat) : list N :=
  match n with
  | O => []
  | S n' => lo :: chars_from (lo + 1) n'
  end.

Definition cset_match (ignorecase : bool) (c : cset) (d : N) : bool :=
  match c with
  | CSpace => isspace d
  | CAny => negb (d =? newline)
  | CRange lo hi =>
      if ignorecase
      then existsb (fun x => lit_match true x d)
             (chars_from lo (N.to_nat (hi + 1 - lo)))
      else (lo <=? d) && (d <=? hi)
  end.

(** [$]: at the end of the text, or before a newline that ends it. *)
Definition at_end (s : str) : bool :=
  match s with
  | [] => true
  | [c] => c =? newline
  | _ => false
  end.

(** Literal text at the head of [s]; the rest of [s] on success. *)
Fixpoint lit_exec (ignorecase : bool) (l s : str) : option str :=
  match l with
  | [] => Some s
  | c :: l' =>
      match s with
      | d :: s' => if lit_match ignorecase c d then lit_exec ignorecase l' s' else None
      | [] => None
      end
  end.

Definition may_repeat (hi : option nat) : bool :=
  match hi with
  | Some O => false
  | _ => true
  end.

(** Repetition of one character class, with the continuation [k] of the rest
    of the pattern: the order in which the lengths are tried is the matcher's
    priority. *)
Fixpoint rep_exec {A : Type} (m : N → bool) (greedy : bool)
    (lo : nat) (hi : option nat) (s : str) (k : str → option A) : option A :=
  let stop := match lo with O => k s | S _ => None end in
  let more :=
    match s with
    | d :: s' =>
        if m d && may_repeat hi
        then rep_exec m greedy (pred lo) (pred <$> hi) s' k
        else None
    | [] => None
    end in
  if greedy
  then match more with Some a => Some a | None => stop end
  else match stop with Some a => Some a | None => more end.

(** Group 1 of a match in progress ([None]: the group has not taken part). *)
Abbreviation group := (option str).

Fixpoint exec {A : Type} (ignorecase : bool) (r : regex) (s : str) (g : group)
    (k : str → group → option A) : option A :=
  match r with
  | RLit l =>
      match lit_exec ignorecase l s with
      | Some s' => k s' g
      | None => None
      end
  | RRep c lo hi greedy =>
      rep_exec (cset_match ignorecase c) greedy lo hi s (fun s' => k s' g)
  | RSeq r1 r2 =>
      exec ignorecase r1 s g (fun s1 g1 => exec ignorecase r2 s1 g1 k)
  | RAlt r1 r2 =>
      match exec ignorecase r1 s g k with
      | Some a => Some a
      | None => exec ignorecase r2 s g k
      end
  | RGroup r1 =>
      exec ignorecase r1 s g
        (fun s' _ => k s' (Some (take (length s - length s') s)))
  | RLook r1 =>
      match exec ignorecase r1 s g (fun _ g' => Some g') with
      | Some g' => k s g'
      | None => None
      end
  | REnd => if at_end s then k s g else None
  end.

(** A match object, as far as the program looks at it: [match.group(1)]. *)
Record re_match := { group1 : group }.

Definition re_match_at (ignorecase : bool) (r : regex) (s : str) : option re_match :=
  exec ignorecase r s None (fun _ g => Some {| group1 := g |}).

(** [re.search(pattern, content, flags)]: the match at the leftmost position
    that has one. *)
Fixpoint re_search (r : regex) (s : str) (ignorecase : bool) : option re_match :=
  match re_match_at ignorecase r s with
  | Some m => Some m
  | None =>
      match s with
      | [] => None
      | _ :: s' => re_search r s' ignorecase
      end
  end.

Declare Scope regex_scope.
Delimit Scope regex_scope with re.
Infix "⋅" := RSeq (at level 40, left associativity) : regex_scope.
Infix "|||" := RAlt (at level 50, left associativity) : regex_scope.

Definition lit (s : string) : regex := RLit (u s).
Definition spaces : regex := RRep CSpace 0 None true.          (* \s* *)

Local Open Scope regex_scope.

(** r"Recommendation:\s*(Buy|Sell|Hold)" *)
Definition pat_Recommendation : regex :=
  lit "Recommendation:" ⋅ spaces ⋅ RGroup (lit "Buy" ||| lit "Sell" ||| lit "Hold").

(** r"Confidence:\s*(Low|Medium|High)" *)
Definition pat_Confidence : regex :=
  lit "Confidence:" ⋅ spaces ⋅ RGroup (lit "Low" ||| lit "Medium" ||| lit "High").

(** r"Risk:\s*(Low|Medium|High)" *)
Definition pat_Risk : regex :=
  lit "Risk:" ⋅ spaces ⋅ RGroup (lit "Low" ||| lit "Medium" ||| lit "High").

(** The look-ahead of the Why pattern: (?=\s*Ticker:|$) *)
Definition why_stop : regex := spaces ⋅ lit "Ticker:" ||| REnd.

(** r"Why:\s*(.*?)(?=\s*Ticker:|$)" *)
Definition pat_Why : regex :=
  lit "Why:" ⋅ spaces ⋅ RGroup (RRep CAny 0 None false) ⋅ RLook why_stop.

(** r"Ticker:\s*([A-Z]{1,5})" *)
Definition pat_Ticker : regex :=
  lit "Ticker:" ⋅ spaces ⋅ RGroup (RRep (CRange 65 90) 1 (Some 5%nat) true).

(** r"Sector:\s*(.+?)(?=$)" *)
Definition pat_Sector : regex :=
  lit "Sector:" ⋅ spaces ⋅ RGroup (RRep CAny 1 None false) ⋅ RLook REnd.

Local Close Scope regex_scope.

(** The dict [patterns], in insertion order. *)
Definition patterns : list (string * regex) :=
  [ ("Recommendation"%string, pat_Recommendation);
    ("Confidence"%string, pat_Confidence);
    ("Risk"%string, pat_Risk);
    ("Why"%string, pat_Why);
    ("Ticker"%string, pat_Ticker);
    ("Sector"%string, pat_Sector) ].

(** The sentinel. *)
Definition NA : str := u "N/A".

Definition IGNORECASE : bool := true.

(** [match.group(1).strip() if match else "N/A"]; [.strip()] on a group that
    did not take part ([None]) raises. *)
Definition field_value (m : option re_match) : outcome str :=
  match m with
  | Some mt =>
      match group1 mt with
      | Some v => Ok (strip v)
      | None => Raise AttributeError
      end
  | None => Ok NA
  end.

(** The loop of [_parse_analysis] over [patterns.items()]. *)
Fixpoint parse_loop (ps : list (string * regex)) (content : str)
    (result : gmap string str) : outcome (gmap string str) :=
  match ps with
  | [] => Ok result
  | (key, pattern) :: ps' =>
      match field_value (re_search pattern content IGNORECASE) with
      | Ok v => parse_loop ps' content (<[key := v]> result)
      | Raise e => Raise e
      end
  end.

Definition _parse_analysis (content : str) : outcome (gmap string str) :=
  parse_loop patterns content ∅.

(** ** Articles and their fingerprint *)

(** A JSON value as the program reads it from an article: [null] or a string. *)
Inductive value :=
| VNone
| VStr (s : str).

(** The [source] object of an article; [name] may be missing. *)
Record source_obj := { name : option value }.

(** One element of the [articles] array, with the fields the program reads
    and the types NewsAPI gives them: [title], [description], [url] and
    [publishedAt] are strings or [null], [source] is an object.  A field is
    [None] when its key is missing. *)
Record article := {
  title : option value;
  description : option value;
  url : option value;
  publishedAt : option value;
  source : option source_obj
}.

(** [d.get(key, default)] *)
Definition get (field : option value) (dflt : value) : value :=
  match field with
  | Some v => v
  | None => dflt
  end.

(** The rendering of a value inside an f-string: [str(v)]. *)
Definition format_value (v : value) : str :=
  match v with
  | VNone => u "None"
  | VStr s => s
  end.

(** Truth value of [v] in a condition. *)
Definition truthy (v : value) : bool :=
  match v with
  | VNone => false
  | VStr [] => false
  | VStr (_ :: _) => true
  end.

(** [s.encode()]: UTF-8, strict.  Surrogates cannot be encoded. *)
Definition utf8_char (c : N) : option (list N) :=
  if c <? 128 then Some [c]
  else if c <? 2048 then Some [192 + c / 64; 128 + c mod 64]
  else if (55296 <=? c) && (c <=? 57343) then None
  else if c <? 65536
  then Some [224 + c / 4096; 128 + (c / 64) mod 64; 128 + c mod 64]
  else if c <? 1114112
  then Some [240 + c / 262144; 128 + (c / 4096) mod 64;
             128 + (c / 64) mod 64; 128 + c mod 64]
  else None.

Fixpoint encode (s : str) : outcome (list N) :=
  match s with
  | [] => Ok []
  | c :: s' =>
      match utf8_char c, encode s' with
      | Some bs, Ok rest => Ok (bs ++ rest)
      | None, _ => Raise UnicodeEncodeError
      | _, Raise e => Raise e
      end
  end.

(** Whether [s.encode()] returns. *)
Definition encodes (s : str) : bool :=
  match encode s with
  | Ok _ => true
  | Raise _ => false
  end.

(** [hashlib.md5(bytes).hexdigest()]: MD5 as in RFC 1321, on 32-bit words. *)
Module MD5.

Definition mask32 : N := 4294967295.
Definition add32 (a b : N) : N := (a + b) mod 4294967296.
Definition not32 (a : N) : N := N.lxor a mask32.
Definition rotl32 (x c : N) : N :=
  N.land (N.lor (N.shiftl x c) (N.shiftr x (32 - c))) mask32.

Definition K : list N :=
  [ 3614090360; 3905402710; 606105819; 3250441966; 4118548399; 1200080426;
    2821735955; 4249261313; 1770035416; 2336552879; 4294925233; 2304563134;
    1804603682; 4254626195; 2792965006; 1236535329; 4129170786; 3225465664;
    643717713; 3921069994; 3593408605; 38016083; 3634488961; 3889429448;
    568446438; 3275163606; 4107603335; 1163531501; 2850285829; 4243563512;
    1735328473; 2368359562; 4294588738; 2272392833; 1839030562; 4259657740;
    2763975236; 1272893353; 4139469664; 3200236656; 681279174; 3936430074;
    3572445317; 76029189; 3654602809; 3873151461; 530742520; 3299628645;
    4096336452; 1126891415; 2878612391; 4237533241; 1700485571; 2399980690;
    4293915773; 2240044497; 1873313359; 4264355552; 2734768916; 1309151649;
    4149444226; 3174756917; 718787259; 3951481745 ].

Definition shifts : list N :=
  [ 7; 12; 17; 22; 7; 12; 17; 22; 7; 12; 17; 22; 7; 12; 17; 22;
    5; 9; 14; 20; 5; 9; 14; 20; 5; 9; 14; 20; 5; 9; 14; 20;
    4; 11; 16; 23; 4; 11; 16; 23; 4; 11; 16; 23; 4; 11; 16; 23;
    6; 10; 15; 21; 6; 10; 15; 21; 6; 10; 15; 21; 6; 10; 15; 21 ].

Definition state : Type := N * N * N * N.

Definition init : state := (1732584193, 4023233417, 2562383102, 271733878).

Definition step (M : list N) (st : state) (i : nat) : state :=
  let '(a, b, c, d) := st in
  let '(f, g) :=
    if (i <? 16)%nat then (N.lor (N.land b c) (N.land (not32 b) d), i)
    else if (i <? 32)%nat
    then (N.lor (N.land d b) (N.land (not32 d) c), ((5 * i + 1) mod 16)%nat)
    else if (i <? 48)%nat
    then (N.lxor (N.lxor b c) d, ((3 * i + 5) mod 16)%nat)
    else (N.lxor c (N.lor b (not32 d)), ((7 * i) mod 16)%nat) in
  let f' := add32 (add32 (add32 f a) (nth i K 0)) (nth g M 0) in
  (d, add32 b (rotl32 f' (nth i shifts 0)), b, c).

(** Little-endian words of a block of bytes. *)
Fixpoint words (n : nat) (bytes : list N) : list N :=
  match n with
  | O => []
  | S n' =>
      match bytes with
      | b0 :: b1 :: b2 :: b3 :: rest =>
          (b0 + 256 * b1 + 65536 * b2 + 16777216 * b3) :: words n' rest
      | _ => []
      end
  end.

Definition block (st : state) (bytes : list N) : state :=
  let '(a0, b0, c0, d0) := st in
  let '(a, b, c, d) := fold_left (step (words 16 bytes)) (seq 0 64) st in
  (add32 a0 a, add32 b0 b, add32 c0 c, add32 d0 d).

Fixpoint blocks (n : nat) (st : state) (bytes : list N) : state :=
  match n with
  | O => st
  | S n' => blocks n' (block st (take 64 bytes)) (drop 64 bytes)
  end.

(** [n] bytes of [x], least significant first. *)
Fixpoint le_bytes (n : nat) (x : N) : list N :=
  match n with
  | O => []
  | S n' => x mod 256 :: le_bytes n' (x / 256)
  end.

Definition pad (msg : list N) : list N :=
  let len := length msg in
  let zeros := ((64 - (len + 9) mod 64) mod 64)%nat in
  msg ++ [128] ++ repeat 0 zeros ++ le_bytes 8 (8 * N.of_nat len).

Definition digest (msg : list N) : list N :=
  let padded := pad msg in
  let '(a, b, c, d) := blocks (length padded / 64) init padded in
  le_bytes 4 a ++ le_bytes 4 b ++ le_bytes 4 c ++ le_bytes 4 d.

Definition hex_digit (x : N) : N := if x <? 10 then 48 + x else 87 + x.

Definition hexdigest (msg : list N) : str :=
  flat_map (fun b => [hex_digit (b / 16); hex_digit (b mod 16)]) (digest msg).

End MD5.

(** [_generate_article_id]:
    [content = f"{article.get('title', '')}{article.get('description', '')}"],
    then [hashlib.md5(content.encode()).hexdigest()]. *)
Definition article_content (a : article) : str :=
  format_value (get (title a) (VStr [])) ++ format_value (get (description a) (VStr [])).

Definition _generate_article_id (a : article) : outcome str :=
  match encode (article_content a) with
  | Ok bytes => Ok (MD5.hexdigest bytes)
  | Raise e => Raise e
  end.

(** ** The environment *)

(** What a request returns: no response at all (connection error, timeout),
    or a status code and a body. *)
Inductive http_reply (B : Type) :=
| NetworkFailure
| Reply (status : Z) (body : B).
Arguments NetworkFailure {B}.
Arguments Reply {B} status body.

(** [response.raise_for_status()] raises on 4xx and 5xx. *)
Definition raise_for_status (status : Z) : bool :=
  ((400 <=? status) && (status <? 600))%Z.

(** The value under ["articles"] of a NewsAPI body that is a JSON object. *)
Inductive articles_value :=
| NotAList
| AList (l : list article).

(** The body of a NewsAPI response. *)
Inductive news_body :=
| NotJSON                                     (* [response.json()] raises *)
| JSONOther                                   (* JSON, but not an object *)
| JSONObject (articles : option articles_value).

(** The state file, as [open] finds it. *)
Inductive file_state :=
| NoFile
| Unreadable (e : exn)
| FileText (content : str).

(** The fate of one attempt to write the state file.  [open(..., "w")]
    raises and the file is left as it was; or the file is opened (and
    truncated) and [f.write] raises; or [f.write] only fills the buffer and
    the error comes when the [with] block closes the file; or all goes well.
    After a failure past [open] the file is in the state [remains]: it holds
    the part of the text that reached the disk. *)
Inductive write_result :=
| Written
| OpenFailed (e : exn)
| WriteFailed (e : exn) (remains : file_state)
| CloseFailed (e : exn) (remains : file_state).

Record World := {
  (** remote services; the first argument numbers the external calls of the
      run, the second is what the request carries *)
  newsapi : nat → str → http_reply news_body;
  (** the body of the analyzer is reduced to
      [response.json()["choices"][0]["message"]["content"]], [None] when that
      expression raises *)
  deepseek : nat → value → http_reply (option str);
  telegram : nat → str → http_reply unit;
  (** the state file at start-up, and the fate of each attempt to write it *)
  state_file : file_state;
  file_write : nat → write_result;
  (** iteration order of a Python set *)
  set_iter : gset str → list str;
  set_iter_perm : ∀ s, set_iter s ≡ₚ elements s;
  (** library functions used only to lay out the message:
      [str.lower], and [datetime.fromisoformat(s).strftime('%Y-%m-%d %H:%M')]
      ([None] when [fromisoformat] raises) *)
  str_lower : str → str;
  format_date : str → option str
}.

Record config := {
  news_categories : list str;
  fetch_interval_seconds : Z
}.

(** ** State, trace and the monad of the bot *)

Inductive level := DEBUG | INFO | WARNING | ERROR.

Inductive event :=
| EvLog (lvl : level) (msg : string)
| EvGet (category : str)                       (* request to NewsAPI *)
| EvWait (seconds : Z)                         (* pause between two attempts *)
| EvAnalyze (article_id : str) (headline : value)
                                               (* [_analyze_article] called *)
| EvPostAnalyzer (headline : value)            (* request to the analyzer *)
| EvNotify (article_id : str) (message : str)  (* [_send_telegram_message] called *)
| EvPostTelegram (message : str) (delivered : bool)
                                               (* request to Telegram *)
| EvMark (article_id : str)                    (* [processed_articles.add] *)
| EvWrite (r : write_result)                   (* state file opened for writing *)
| EvSleep (seconds : Z).                       (* [time.sleep] in [run] *)

Record bot := {
  processed_articles : gset str;
  file : file_state;
  calls : nat;                 (* external calls made so far *)
  trace : list event           (* oldest first *)
}.

Definition M (A : Type) : Type := bot → outcome A * bot.

Global Instance M_ret : MRet M := λ A a st, (Ok a, st).

Global Instance M_bind : MBind M := λ A B f m st,
  match m st with
  | (Ok a, st') => f a st'
  | (Raise e, st') => (Raise e, st')
  end.

Definition raise {A} (e : exn) : M A := fun st => (Raise e, st).

(** [try: m  except <exceptions accepted by handles>: h] *)
Definition try_except {A} (m : M A) (handles : exn → bool) (h : exn → M A) : M A :=
  fun st =>
    match m st with
    | (Ok a, st') => (Ok a, st')
    | (Raise e, st') => if handles e then h e st' else (Raise e, st')
    end.

(** [except Exception] *)
Definition any_exception (e : exn) : bool := true.

(** [except FileNotFoundError] *)
Definition is_FileNotFoundError (e : exn) : bool :=
  match e with FileNotFoundError => true | _ => false end.

(** [except requests.RequestException] *)
Definition is_RequestException (e : exn) : bool :=
  match e with HTTPError | ConnectionError => true | _ => false end.

Definition lift {A} (o : outcome A) : M A := fun st => (o, st).

Definition emit (e : event) : M unit :=
  fun st =>
    (Ok tt, {| processed_articles := processed_articles st; file := file st;
               calls := calls st; trace := trace st ++ [e] |}).

Definition log (lvl : level) (msg : string) : M unit := emit (EvLog lvl msg).

(** The number of the next external call. *)
Definition tick : M nat :=
  fun st =>
    (Ok (calls st),
     {| processed_articles := processed_articles st; file := file st;
        calls := S (calls st); trace := trace st |}).

Definition get_processed : M (gset str) := fun st => (Ok (processed_articles st), st).

Definition set_processed (s : gset str) : M unit :=
  fun st =>
    (Ok tt, {| processed_articles := s; file := file st;
               calls := calls st; trace := trace st |}).

Definition get_file : M file_state := fun st => (Ok (file st), st).

Definition set_file (f : file_state) : M unit :=
  fun st =>
    (Ok tt, {| processed_articles := processed_articles st; file := f;
               calls := calls st; trace := trace st |}).

(** [for x in xs: body(x)] *)
Fixpoint for_each {A} (xs : list A) (body : A → M unit) : M unit :=
  match xs with
  | [] => mret tt
  | x :: xs' => body x ;; for_each xs' body
  end.

(** [TradingBot.__init__] *)
Definition init (w : World) : bot :=
  {| processed_articles := ∅; file := state_file w; calls := 0; trace := [] |}.

(** ** The deduplication store on disk *)

(** Reading in text mode translates ["\r\n"] and ["\r"] to ["\n"]. *)
Fixpoint universal_newlines (s : str) : str :=
  match s with
  | [] => []
  | c :: s' =>
      if c =? 13
      then match s' with
           | d :: s'' => if d =? 10 then 10 :: universal_newlines s''
                         else 10 :: universal_newlines s'
           | [] => [10]
           end
      else c :: universal_newlines s'
  end.

(** The lines a file object yields, each with its newline; [cur] is the line
    being read. *)
Fixpoint lines_from (cur : str) (s : str) : list str :=
  match s with
  | [] => match cur with [] => [] | _ => [cur] end
  | c :: s' =>
      if c =? newline
      then (cur ++ [c]) :: lines_from [] s'
      else lines_from (cur ++ [c]) s'
  end.

Definition file_lines (content : str) : list str :=
  lines_from [] (universal_newlines content).

Definition nonempty (s : str) : bool :=
  match s with [] => false | _ => true end.

(** [{line.strip() for line in f if line.strip()}] *)
Definition load_set (content : str) : gset str :=
  list_to_set (strip <$> filter (fun line => nonempty (strip line)) (file_lines content)).

Definition _load_processed_articles : M unit :=
  try_except
    (f ← get_file;
     match f with
     | NoFile => raise FileNotFoundError
     | Unreadable e => raise e
     | FileText content =>
         set_processed (load_set content) ;;
         log INFO "Loaded processed articles."
     end)
    is_FileNotFoundError
    (fun _ => log WARNING "No processed articles file found. Starting fresh.").

(** ["\n".join(self.processed_articles)] for the order [order] of the set. *)
Definition save_text (order : list str) : str := join [newline] order.

Definition _save_processed_articles (w : World) : M unit :=
  try_except
    (n ← tick;
     emit (EvWrite (file_write w n)) ;;
     match file_write w n with
     | OpenFailed e => raise e
     | WriteFailed e remains => set_file remains ;; raise e
     | CloseFailed e remains =>
         log DEBUG "Saved processed articles." ;;
         set_file remains ;;
         raise e
     | Written =>
         s ← get_processed;
         set_file (FileText (save_text (set_iter w s))) ;;
         log DEBUG "Saved processed articles."
     end)
    any_exception
    (fun _ => log ERROR "Failed to save processed articles").

(** ** The fetcher *)

(** [tenacity.wait_exponential(multiplier, min, max)] after the attempt
    numbered [attempt_number] (from 1). *)
Definition wait_exponential (multiplier min max : Z) (attempt_number : nat) : Z :=
  Z.max (Z.max 0 min) (Z.min (multiplier * 2 ^ (Z.of_nat attempt_number - 1)) max).

(** [tenacity.retry(stop=stop_after_attempt(n), wait=..., reraise=True)]:
    [remaining] attempts may still follow the one numbered [attempt_number]. *)
Fixpoint retry_loop {A} (remaining attempt_number : nat) (wait : nat → Z)
    (f : M A) : M A :=
  try_except f any_exception
    (fun e =>
       match remaining with
       | O => raise e
       | S remaining' =>
           emit (EvWait (wait attempt_number)) ;;
           retry_loop remaining' (S attempt_number) wait f
       end).

Definition retry {A} (stop_after_attempt : nat) (wait : nat → Z) (f : M A) : M A :=
  retry_loop (stop_after_attempt - 1) 1 wait f.

(** One attempt: the body of [_fetch_news_for_category]. *)
Definition fetch_attempt (w : World) (category : str) : M (list article) :=
  n ← tick;
  emit (EvGet category) ;;
  match newsapi w n category with
  | NetworkFailure => raise ConnectionError
  | Reply status body =>
      if raise_for_status status then raise HTTPError
      else match body with
           | NotJSON => raise JSONDecodeError
           | JSONOther => raise AttributeError
           | JSONObject (Some (AList l)) =>
               log INFO "Fetched articles for category" ;; mret l
           | JSONObject _ => raise ValueError
           end
  end.

Definition _fetch_news_for_category (w : World) (category : str) : M (list article) :=
  retry 3 (wait_exponential 1 2 10) (fetch_attempt w category).

(** The loop of [_fetch_news]; [all_articles] is the list built so far. *)
Fixpoint fetch_loop (w : World) (categories : list str)
    (all_articles : list article) : M (list article) :=
  match categories with
  | [] => mret all_articles
  | category :: categories' =>
      all_articles' ←
        try_except
          (articles ← _fetch_news_for_category w category;
           mret (all_articles ++ articles))
          any_exception
          (fun _ =>
             log ERROR "Failed to fetch news for category" ;;
             mret all_articles);
      fetch_loop w categories' all_articles'
  end.

Definition _fetch_news (w : World) (cfg : config) : M (list article) :=
  fetch_loop w (news_categories cfg) [].

(** ** Analysis, message and delivery *)

(** The prompt templates of the configuration are taken to be well formed:
    [user_prompt.format(headline=headline)] does not raise. *)
Definition _analyze_article (w : World) (headline : value) : M (option (gmap string str)) :=
  try_except
    (n ← tick;
     emit (EvPostAnalyzer headline) ;;
     match deepseek w n headline with
     | NetworkFailure => raise ConnectionError
     | Reply status body =>
         if raise_for_status status then raise HTTPError
         else match body with
              | None => raise ValueError
              | Some content =>
                  d ← lift (_parse_analysis content);
                  mret (Some d)
              end
     end)
    any_exception
    (fun _ => log ERROR "Analysis failed" ;; mret None).

(** [s.replace(old, new)] for a one-character [old]. *)
Definition replace_char (old : N) (new : str) (s : str) : str :=
  flat_map (fun c => if c =? old then new else [c]) s.

(** [analysis.get(key, 'N/A')] *)
Definition analysis_get (analysis : gmap string str) (key : string) : str :=
  default NA (analysis !! key).

Definition published_at (w : World) (a : article) : str :=
  match get (publishedAt a) (VStr []) with
  | VNone => NA                                   (* [None.replace]: caught *)
  | VStr s => default NA (format_date w (replace_char 90 (u "+00:00") s))
  end.

Definition source_name (a : article) : value :=
  match source a with
  | None => VStr NA
  | Some src => get (name src) (VStr NA)
  end.

Definition _format_telegram_message (w : World) (a : article)
    (analysis : gmap string str) : str :=
  let ticker := analysis_get analysis "Ticker" in
  let sector := analysis_get analysis "Sector" in
  let finviz_sector := replace_char 32 [] (str_lower w sector) in
  let title_ := format_value (get (title a) (VStr NA)) in
  let url_ := format_value (get (url a) (VStr (u "#"))) in
  [128240] ++ u " [" ++ title_ ++ u "](" ++ url_ ++ u ")" ++ [newline]
  ++ u "Source: [" ++ format_value (source_name a) ++ u "](" ++ url_ ++ u ") | "
  ++ [128467; 65039] ++ u " " ++ published_at w a ++ [newline; newline]
  ++ u "*" ++ [128269] ++ u " Analysis*" ++ [newline]
  ++ u "Recommendation: **" ++ analysis_get analysis "Recommendation" ++ u "**"
  ++ [newline]
  ++ u "Confidence: " ++ analysis_get analysis "Confidence"
  ++ u " | Risk: " ++ analysis_get analysis "Risk" ++ [newline]
  ++ u "Rationale: " ++ analysis_get analysis "Why" ++ [newline; newline]
  ++ u "Ticker: `$" ++ ticker ++ u "` | Sector: [" ++ sector
  ++ u "](https://finviz.com/screener.ashx?f=sec_" ++ finviz_sector ++ u "&v=211)"
  ++ [newline]
  ++ u "[Yahoo Finance](https://finance.yahoo.com/quote/" ++ ticker
  ++ u ") | [Finviz](https://finviz.com/quote.ashx?t=" ++ ticker
  ++ u ") | [TradingView](https://www.tradingview.com/symbols/" ++ ticker ++ u "/)".

(** [session.post(url, data=payload)] encodes the form values as UTF-8 while
    it prepares the request, before anything is sent: a message that cannot
    be encoded raises [UnicodeEncodeError], which is no
    [requests.RequestException].  The token and the chat id of the
    environment are taken to be well formed. *)
Definition _send_telegram_message (w : World) (message : str) : M unit :=
  try_except
    (lift (encode message) ;;
     n ← tick;
     match telegram w n message with
     | NetworkFailure =>
         emit (EvPostTelegram message false) ;; raise ConnectionError
     | Reply status _ =>
         if raise_for_status status
         then emit (EvPostTelegram message false) ;; raise HTTPError
         else emit (EvPostTelegram message true) ;;
              log INFO "Telegram message sent successfully."
     end)
    is_RequestException
    (fun _ => log ERROR "Telegram API error").

(** ** The pipeline *)

(** [analysis and analysis.get("Ticker") != "N/A"] *)
Definition accepts (analysis : option (gmap string str)) : bool :=
  match analysis with
  | None => false
  | Some d => negb (bool_decide (d = ∅)) && negb (bool_decide (d !! "Ticker"%string = Some NA))
  end.

Definition _process_article (w : World) (a : article) : M unit :=
  article_id ← lift (_generate_article_id a);
  seen ← get_processed;
  if bool_decide (article_id ∈ seen) then mret tt
  else
    let headline := get (title a) VNone in
    if negb (truthy headline) then mret tt
    else
      emit (EvAnalyze article_id headline) ;;
      analysis ← _analyze_article w headline;
      if accepts analysis then
        let message := _format_telegram_message w a (default ∅ analysis) in
        emit (EvNotify article_id message) ;;
        _send_telegram_message w message ;;
        seen' ← get_processed;
        set_processed ({[article_id]} ∪ seen') ;;
        emit (EvMark article_id)
      else mret tt.

(** [time.sleep(seconds)]; a negative length raises. *)
Definition sleep (seconds : Z) : M unit :=
  if (seconds <? 0)%Z then raise ValueError else emit (EvSleep seconds).

(** One pass of the [while True] loop of [run]. *)
Definition cycle (w : World) (cfg : config) : M unit :=
  try_except
    (articles ← _fetch_news w cfg;
     for_each articles (_process_article w) ;;
     _save_processed_articles w ;;
     sleep (fetch_interval_seconds cfg))
    any_exception
    (fun _ => log ERROR "Critical error in main loop" ;; sleep 60).

Fixpoint cycles (w : World) (cfg : config) (n : nat) : M unit :=
  match n with
  | O => mret tt
  | S n' => cycle w cfg ;; cycles w cfg n'
  end.

(** [run], observed for its first [n] cycles. *)
Definition run (w : World) (cfg : config) (n : nat) : M unit :=
  _load_processed_articles ;;
  log INFO "Trading bot started successfully." ;;
  cycles w cfg n.

(** ** Specification of the matcher

    [matches ic r p rest g g']: with flag [ic], [r] matches the text [p] when
    [rest] follows it, and group 1 goes from [g] to [g']. *)

Definition ci_equal (l v : str) : Prop :=
  Forall2 (fun c d => lit_match true c d = true) l v.

Inductive matches (ic : bool) : regex → str → str → group → group → Prop :=
| matches_lit l p rest g :
    Forall2 (fun c d => lit_match ic c d = true) l p →
    matches ic (RLit l) p rest g g
| matches_rep c lo hi greedy p rest g :
    Forall (fun d => cset_match ic c d = true) p →
    (lo ≤ length p)%nat →
    (∀ h, hi = Some h → (length p ≤ h)%nat) →
    matches ic (RRep c lo hi greedy) p rest g g
| matches_seq r1 r2 p1 p2 rest g g1 g2 :
    matches ic r1 p1 (p2 ++ rest) g g1 →
    matches ic r2 p2 rest g1 g2 →
    matches ic (RSeq r1 r2) (p1 ++ p2) rest g g2
| matches_alt_l r1 r2 p rest g g' :
    matches ic r1 p rest g g' →
    matches ic (RAlt r1 r2) p rest g g'
| matches_alt_r r1 r2 p rest g g' :
    matches ic r2 p rest g g' →
    matches ic (RAlt r1 r2) p rest g g'
| matches_group r p rest g g' :
    matches ic r p rest g g' →
    matches ic (RGroup r) p rest g (Some p)
| matches_look r p rest rest' g g' :
    matches ic r p rest' g g' →
    rest = p ++ rest' →
    matches ic (RLook r) [] rest g g'
| matches_end rest g :
    at_end rest = true →
    matches ic REnd [] rest g g.

(** Every match of [r] leaves group 1 set. *)
Fixpoint sets_group (r : regex) : bool :=
  match r with
  | RGroup _ => true
  | RSeq r1 r2 => sets_group r1 || sets_group r2
  | RAlt r1 r2 => sets_group r1 && sets_group r2
  | RLook r1 => sets_group r1
  | _ => false
  end.

(** The value [_parse_analysis] stores for a pattern. *)
Definition extracted (pattern : regex) (content : str) : str :=
  match re_search pattern content IGNORECASE with
  | Some {| group1 := Some v |} => strip v
  | _ => NA
  end.

(** The characters [[A-Z]] accepts under IGNORECASE. *)
Definition ticker_char (d : N) : Prop :=
  (65 ≤ d ≤ 90) ∨ (97 ≤ d ≤ 122) ∨ d = 304 ∨ d = 305 ∨ d = 383 ∨ d = 8490.

Definition uppercase (d : N) : bool := (65 <=? d) && (d <=? 90).

(** Where the look-ahead of the Why pattern holds: at the end of the text, or
    before optional white space and the label [Ticker:]. *)
Definition why_stops (rest : str) : Prop :=
  at_end rest = true ∨
  ∃ ws lab rest', rest = ws ++ lab ++ rest' ∧
    Forall (fun d => isspace d = true) ws ∧ ci_equal (u "Ticker:") lab.

(** ** Specification of the pipeline *)

(** What [_analyze_article] returns when its request is the external call
    numbered [n]. *)
Definition analysis_of (w : World) (n : nat) (headline : value) : option (gmap string str) :=
  match deepseek w n headline with
  | NetworkFailure => None
  | Reply status body =>
      if raise_for_status status then None
      else match body with
           | None => None
           | Some content =>
               match _parse_analysis content with
               | Ok d => Some d
               | Raise _ => None
               end
           end
  end.

(** Whether the message posted by the external call numbered [n] is delivered. *)
Definition delivered (w : World) (n : nat) (message : str) : bool :=
  match telegram w n message with
  | NetworkFailure => false
  | Reply status _ => negb (raise_for_status status)
  end.

(** The headline [_process_article] reads. *)
Definition headline_of (a : article) : value := get (title a) VNone.

(** The accept path: the fingerprint is new, the headline is present, the
    analysis result is present and its Ticker is not the sentinel. *)
Definition accept_path (w : World) (st : bot) (a : article) (article_id : str) : Prop :=
  (article_id ∉ processed_articles st) ∧
  truthy (headline_of a) = true ∧
  ∃ d, analysis_of w (calls st) (headline_of a) = Some d ∧
       d !! "Ticker"%string ≠ Some NA.

(** Events of the pipeline for one fingerprint. *)
Definition is_analyze (article_id : str) (e : event) : bool :=
  match e with
  | EvAnalyze i _ => bool_decide (i = article_id)
  | _ => false
  end.

Definition is_notify (article_id : str) (e : event) : bool :=
  match e with
  | EvNotify i _ => bool_decide (i = article_id)
  | _ => false
  end.

(** A notification for [article_id] whose message can be encoded, so that
    the send goes as far as the request to Telegram. *)
Definition is_sent (article_id : str) (e : event) : bool :=
  match e with
  | EvNotify i message => bool_decide (i = article_id) && encodes message
  | _ => false
  end.

Definition is_mark (article_id : str) (e : event) : bool :=
  match e with
  | EvMark i => bool_decide (i = article_id)
  | _ => false
  end.

Definition count_events (p : event → bool) (tr : list event) : nat :=
  length (filter (fun e => p e = true) tr).

(** No analysis of [article_id] follows a notification for it that was
    sent. *)
Fixpoint no_analysis_after_sent (article_id : str) (tr : list event) : Prop :=
  match tr with
  | [] => True
  | e :: tr' =>
      (is_sent article_id e = true → count_events (is_analyze article_id) tr' = 0%nat)
      ∧ no_analysis_after_sent article_id tr'
  end.

(** The events a call adds to the trace. *)
Definition added (st st' : bot) (evs : list event) : Prop :=
  trace st' = trace st ++ evs.

Definition mk (s : gset str) (f : file_state) (c : nat) (t : list event) : bot :=
  {| processed_articles := s; file := f; calls := c; trace := t |}.

Definition field_names : gset string :=
  {[ "Recommendation"; "Confidence"; "Risk"; "Why"; "Ticker"; "Sector" ]}%string.

(** The events of the analysis of one article. *)
Definition analyze_events (w : World) (n : nat) (article_id : str) (h : value) : list event :=
  EvAnalyze article_id h :: EvPostAnalyzer h ::
  match analysis_of w n h with
  | Some _ => []
  | None => [EvLog ERROR "Analysis failed"]
  end.

(** The events of the accept path after the analysis: the call of the
    notifier and, when the message can be encoded, the request, its log line
    and the mark. *)
Definition notify_events (w : World) (n : nat) (article_id message : str) : list event :=
  EvNotify article_id message ::
  if encodes message
  then [ EvPostTelegram message (delivered w n message);
         (if delivered w n message
          then EvLog INFO "Telegram message sent successfully."
          else EvLog ERROR "Telegram API error");
         EvMark article_id ]
  else [].

(** The message of the accept path for article [a] in state [st]. *)
Definition message_of (w : World) (st : bot) (a : article) : str :=
  _format_telegram_message w a (default ∅ (analysis_of w (calls st) (headline_of a))).

Definition is_pipeline_output (e : event) : bool :=
  match e with
  | EvNotify _ _ | EvPostTelegram _ _ | EvMark _ => true
  | _ => false
  end.

Definition is_notifier_call (e : event) : bool :=
  match e with EvNotify _ _ => true | _ => false end.

Definition is_telegram_request (e : event) : bool :=
  match e with EvPostTelegram _ _ => true | _ => false end.

(** An analysis or a notification. *)
Definition is_step (e : event) : bool :=
  match e with
  | EvAnalyze _ _ | EvNotify _ _ => true
  | _ => false
  end.

(** What a stretch of the run from [st] to [st'] keeps true: the store only
    grows, a fingerprint of the store is neither analysed nor notified, at
    most one notification for a fingerprint is sent, and a notification that
    is sent leaves its fingerprint in the store. *)
Definition step_inv (st st' : bot) : Prop :=
  processed_articles st ⊆ processed_articles st' ∧
  ∃ evs, trace st' = trace st ++ evs ∧
    ∀ i, (count_events (is_sent i) evs ≤ 1)%nat ∧
         (i ∈ processed_articles st →
            count_events (is_notify i) evs = 0%nat ∧
            count_events (is_analyze i) evs = 0%nat) ∧
         (count_events (is_sent i) evs = 1%nat → i ∈ processed_articles st') ∧
         no_analysis_after_sent i evs.

Definition preserves {A} (m : M A) : Prop :=
  ∀ st o st', m st = (o, st') → step_inv st st'.

(** At most one notification for [i] is sent, none without [i] in the store
    after it, no analysis of [i] after it. *)
Definition notified_once (i : str) (st : bot) : Prop :=
  (count_events (is_sent i) (trace st) ≤ 1)%nat ∧
  (count_events (is_sent i) (trace st) = 1%nat → i ∈ processed_articles st) ∧
  no_analysis_after_sent i (trace st).

(** What the parser guarantees of each value. *)
Definition one_of_ci (a b c : string) (v : str) : Prop :=
  ci_equal (u a) v ∨ ci_equal (u b) v ∨ ci_equal (u c) v.

Definition free_text (v : str) : Prop :=
  Forall (fun d => d ≠ newline) v ∧ strip v = v.

Definition ticker_text (v : str) : Prop :=
  (1 ≤ length v ≤ 5)%nat ∧ Forall ticker_char v.

Definition values_satisfy_patterns (d : gmap string str) : Prop :=
  (∃ v, d !! "Recommendation"%string = Some v ∧ (v = NA ∨ one_of_ci "Buy" "Sell" "Hold" v)) ∧
  (∃ v, d !! "Confidence"%string = Some v ∧ (v = NA ∨ one_of_ci "Low" "Medium" "High" v)) ∧
  (∃ v, d !! "Risk"%string = Some v ∧ (v = NA ∨ one_of_ci "Low" "Medium" "High" v)) ∧
  (∃ v, d !! "Why"%string = Some v ∧ (v = NA ∨ free_text v)) ∧
  (∃ v, d !! "Ticker"%string = Some v ∧ (v = NA ∨ ticker_text v)) ∧
  (∃ v, d !! "Sector"%string = Some v ∧ (v = NA ∨ free_text v)).

Definition within (hi : option nat) (n : nat) : Prop :=
  ∀ h, hi = Some h → (n ≤ h)%nat.

(** ** Specification of the fetcher *)

(** The articles of a reply that one attempt accepts. *)
Definition reply_articles (r : http_reply news_body) : option (list article) :=
  match r with
  | Reply status (JSONObject (Some (AList l))) =>
      if raise_for_status status then None else Some l
  | _ => None
  end.

(** The exception of an attempt that fails. *)
Definition attempt_error (r : http_reply news_body) : exn :=
  match r with
  | NetworkFailure => ConnectionError
  | Reply status body =>
      if raise_for_status status then HTTPError
      else match body with
           | NotJSON => JSONDecodeError
           | JSONOther => AttributeError
           | JSONObject _ => ValueError
           end
  end.

(** The first of [attempts] requests for [category], starting with the call
    numbered [n], that is accepted: the number of the call after it and its
    articles. *)
Fixpoint first_success (w : World) (category : str) (n attempts : nat)
    : option (nat * list article) :=
  match attempts with
  | O => None
  | S k =>
      match reply_articles (newsapi w n category) with
      | Some l => Some (S n, l)
      | None => first_success w category (S n) k
      end
  end.

(** What each category contributes, in order, when the first request is the
    call numbered [n]. *)
Fixpoint contributions (w : World) (categories : list str) (n : nat) : list (list article) :=
  match categories with
  | [] => []
  | c :: cs =>
      match first_success w c n 3 with
      | Some (n', l) => l :: contributions w cs n'
      | None => [] :: contributions w cs (n + 3)
      end
  end.

Definition is_get (e : event) : bool :=
  match e with EvGet _ => true | _ => false end.

(** The events of the fetcher: requests, log lines, and pauses of 2 to 10
    seconds. *)
Definition fetch_event (e : event) : Prop :=
  match e with
  | EvGet _ | EvLog _ _ => True
  | EvWait s => (2 ≤ s ≤ 10)%Z
  | _ => False
  end.

(** The effect of a fetch from [st] to [st']: only requests are made. *)
Definition fetch_effect (st st' : bot) : Prop :=
  processed_articles st' = processed_articles st ∧
  file st' = file st ∧
  ∃ evs, trace st' = trace st ++ evs ∧ Forall fetch_event evs ∧
         calls st' = (calls st + count_events is_get evs)%nat.

(** ** Sample inputs *)

Definition sample_article : article :=
  {| title := Some (VStr (u "Apple beats earnings"));
     description := Some VNone;
     url := Some (VStr (u "https://example.com/apple"));
     publishedAt := Some (VStr (u "2024-05-01T10:00:00Z"));
     source := Some {| name := Some (VStr (u "Example Wire")) |} |}.

Definition sample_id : str := u "7fc1ddedd5c35af5fa827efcfb2e1207".

Definition sample_config : config :=
  {| news_categories := [u "business"]; fetch_interval_seconds := 300 |}.

(** A world in which every service answers 200: NewsAPI always lists
    [sample_article], the analyzer always completes with [completion]. *)
Definition steady_world (completion : option str) : World :=
  {| newsapi := fun _ _ => Reply 200 (JSONObject (Some (AList [sample_article])));
     deepseek := fun _ _ => Reply 200 completion;
     telegram := fun _ _ => Reply 200 ();
     state_file := NoFile;
     file_write := fun _ => Written;
     set_iter := elements;
     set_iter_perm := fun s => Permutation_refl (elements s);
     str_lower := fun s => s;
     format_date := fun _ => None |}.

(** A completion that names no ticker. *)
Definition no_ticker_text : str :=
  u "Recommendation: Hold" ++ [newline] ++ u "Confidence: Low" ++ [newline]
  ++ u "Risk: Low" ++ [newline] ++ u "Why: no listed company is named".

(** A completion that names one. *)
Definition aapl_text : str :=
  u "Recommendation: Buy" ++ [newline] ++ u "Confidence: High" ++ [newline]
  ++ u "Risk: Low" ++ [newline] ++ u "Why: strong quarter" ++ [newline]
  ++ u "Ticker: AAPL" ++ [newline] ++ u "Sector: Technology".

(** The text of the parser example. *)
Definition why_example : str :=
  u "Recommendation: Buy" ++ [newline] ++ u "Why: strong fundamentals" ++ [newline]
  ++ u "Ticker: ABCD" ++ [newline] ++ u "Sector: Tech".

(** Two cycles of the bot in a steady world. *)
Definition two_cycles (completion : option str) : bot :=
  (run (steady_world completion) sample_config 2 (init (steady_world completion))).2.

(** Two articles whose titles and descriptions differ and concatenate to the
    same text. *)
Definition article_AB_C : article :=
  {| title := Some (VStr (u "AB")); description := Some (VStr (u "C"));
     url := Some (VStr (u "https://example.com/1")); publishedAt := None;
     source := None |}.

Definition article_A_BC : article :=
  {| title := Some (VStr (u "A")); description := Some (VStr (u "BC"));
     url := Some (VStr (u "https://example.com/2")); publishedAt := Some VNone;
     source := Some {| name := None |} |}.

(** A world whose state file exists and cannot be opened. *)
Definition locked_world : World :=
  {| newsapi := newsapi (steady_world None);
     deepseek := deepseek (steady_world None);
     telegram := telegram (steady_world None);
     state_file := Unreadable PermissionError;
     file_write := fun _ => Written;
     set_iter := elements;
     set_iter_perm := fun s => Permutation_refl (elements s);
     str_lower := fun s => s;
     format_date := fun _ => None |}.

(** A world whose first three requests to NewsAPI fail, each in its own way,
    and whose later ones succeed. *)
Definition flaky_world : World :=
  {| newsapi := fun n _ =>
       match n with
       | 0%nat => NetworkFailure
       | 1%nat => Reply 500 NotJSON
       | 2%nat => Reply 200 (JSONObject None)
       | _ => Reply 200 (JSONObject (Some (AList [sample_article])))
       end;
     deepseek := deepseek (steady_world None);
     telegram := telegram (steady_world None);
     state_file := NoFile;
     file_write := fun _ => Written;
     set_iter := elements;
     set_iter_perm := fun s => Permutation_refl (elements s);
     str_lower := fun s => s;
     format_date := fun _ => None |}.

Definition two_categories : config :=
  {| news_categories := [u "business"; u "technology"];
     fetch_interval_seconds := 300 |}.

(** A token as [save] writes it back unchanged: not empty, no white space. *)
Definition token (t : str) : Prop :=
  t ≠ [] ∧ Forall (fun c => isspace c = false) t.

(** The lines of the saved text: each token, all but the last with its
    newline. *)
Fixpoint saved_lines (order : list str) : list str :=
  match order with
  | [] => []
  | [t] => [t]
  | t :: ts => (t ++ [newline]) :: saved_lines ts
  end.

Definition two_tokens : gset str := {[ u "abc123"; u "def456" ]}.

(** ** Shutdown *)

(** [_shutdown_handler], the handler of SIGINT and SIGTERM; the value
    returned is the status given to [exit].  The handler runs on the state
    the signal finds: the store in memory at that moment is what it saves. *)
Definition _shutdown_handler (w : World) : M Z :=
  log INFO "Shutdown signal received. Saving state..." ;;
  _save_processed_articles w ;;
  log INFO "Clean shutdown complete." ;;
  mret 0%Z.

(** ** Further specification *)

(** The state file after an attempt to write [text] over [old]. *)
Definition file_after (r : write_result) (old : file_state) (text : str) : file_state :=
  match r with
  | Written => FileText text
  | OpenFailed _ => old
  | WriteFailed _ remains | CloseFailed _ remains => remains
  end.

(** The events of one call of [_save_processed_articles]: the attempt, the
    debug line when [f.write] returned, the error line when anything
    raised. *)
Definition save_events (r : write_result) : list event :=
  EvWrite r ::
  match r with
  | Written => [EvLog DEBUG "Saved processed articles."]
  | OpenFailed _ | WriteFailed _ _ => [EvLog ERROR "Failed to save processed articles"]
  | CloseFailed _ _ =>
      [EvLog DEBUG "Saved processed articles.";
       EvLog ERROR "Failed to save processed articles"]
  end.

(** A code point UTF-8 can encode: in range and no surrogate. *)
Definition encodable (c : N) : Prop :=
  c < 55296 ∨ (57343 < c ∧ c < 1114112).

(** A lower-case hexadecimal digit. *)
Definition hex_char (c : N) : Prop :=
  (48 ≤ c ≤ 57) ∨ (97 ≤ c ≤ 102).

(** A line of the state file as [load] keeps it: not empty, no white space
    at either end, no line break inside. *)
Definition stable_token (t : str) : Prop :=
  t ≠ [] ∧ strip t = t ∧ Forall (fun c => c ≠ newline ∧ c ≠ 13) t.

(** The store after start-up. *)
Definition initial_store (w : World) : gset str :=
  match state_file w with
  | FileText content => load_set content
  | _ => ∅
  end.

(** The state in which the loop of [run] starts, when start-up succeeds. *)
Definition started (w : World) : bot :=
  mk (initial_store w) (state_file w) 0
     [ match state_file w with
       | FileText _ => EvLog INFO "Loaded processed articles."
       | _ => EvLog WARNING "No processed articles file found. Starting fresh."
       end;
       EvLog INFO "Trading bot started successfully." ].

(** The exception that ends [run] at start-up, if any. *)
Definition startup_error (w : World) : option exn :=
  match state_file w with
  | Unreadable e => if is_FileNotFoundError e then None else Some e
  | _ => None
  end.

(** Events of the fetcher, the store on disk and the loop: no analysis, no
    notification, no mark. *)
Definition is_housekeeping (e : event) : bool :=
  match e with
  | EvLog _ _ | EvGet _ | EvWait _ | EvWrite _ | EvSleep _ => true
  | _ => false
  end.

(** A stretch of the run that leaves the store alone and adds only
    housekeeping events. *)
Definition housekeeping (st st' : bot) : Prop :=
  processed_articles st' = processed_articles st ∧
  ∃ evs, trace st' = trace st ++ evs ∧ Forall (fun e => is_housekeeping e = true) evs.

(** Every execution of [m] relates the state before to the state after. *)
Definition respects (R : bot → bot → Prop) {A} (m : M A) : Prop :=
  ∀ st o st', m st = (o, st') → R st st'.

(** The store keeps only lines that [load] gives back unchanged. *)
Definition keeps_stable (st st' : bot) : Prop :=
  (∀ t, t ∈ processed_articles st → stable_token t) →
  ∀ t, t ∈ processed_articles st' → stable_token t.

(** The trace grows, and a fingerprint enters the store only with a
    notification that is sent. *)
Definition enters_by_notification (st st' : bot) : Prop :=
  (∀ e, e ∈ trace st → e ∈ trace st') ∧
  ∀ i, i ∈ processed_articles st' →
    i ∈ processed_articles st ∨
    ∃ message, EvNotify i message ∈ trace st' ∧ encodes message = true.

Definition is_analysis (e : event) : bool :=
  match e with EvAnalyze _ _ => true | _ => false end.

Definition is_analyzer_request (e : event) : bool :=
  match e with EvPostAnalyzer _ => true | _ => false end.

Definition is_marking (e : event) : bool :=
  match e with EvMark _ => true | _ => false end.

Definition is_write (e : event) : bool :=
  match e with EvWrite _ => true | _ => false end.

(** What a list of events costs at most: [gets] requests to NewsAPI,
    [analyses] requests to the analyzer, no more Telegram requests than
    analyzer requests, [writes] attempts to write the state file. *)
Definition costs_at_most (gets analyses writes : nat) (evs : list event) : Prop :=
  (count_events is_get evs ≤ gets)%nat ∧
  (count_events is_analyzer_request evs ≤ analyses)%nat ∧
  (count_events is_telegram_request evs ≤ count_events is_analyzer_request evs)%nat ∧
  (count_events is_write evs ≤ writes)%nat.

(** A call of the notifier with a message that can be encoded. *)
Definition is_encodable_notification (e : event) : bool :=
  match e with EvNotify _ message => encodes message | _ => false end.

(** The books of the pipeline over a list of events: one analyzer request
    for each analysis, one Telegram request and one mark for each call of
    the notifier whose message can be encoded (and none for the others), and
    no more calls of the notifier than analyses. *)
Definition balanced (evs : list event) : Prop :=
  count_events is_analyzer_request evs = count_events is_analysis evs ∧
  count_events is_telegram_request evs = count_events is_encodable_notification evs ∧
  count_events is_marking evs = count_events is_encodable_notification evs ∧
  (count_events is_encodable_notification evs ≤ count_events is_notifier_call evs)%nat ∧
  (count_events is_notifier_call evs ≤ count_events is_analysis evs)%nat.

Definition balanced_stretch (st st' : bot) : Prop :=
  ∃ evs, trace st' = trace st ++ evs ∧ balanced evs.

(** The text names a ticker: somewhere it holds the label, in any letter
    case, then optional white space, then a letter. *)
Definition mentions_ticker (content : str) : Prop :=
  ∃ pre lab ws c rest,
    content = pre ++ lab ++ ws ++ c :: rest ∧
    ci_equal (u "Ticker:") lab ∧
    Forall (fun d => isspace d = true) ws ∧
    ticker_char c.

(** The text names one of three words after a label: somewhere it holds the
    label, optional white space and one of the words, all in any letter
    case; nothing is asked of what follows the word. *)
Definition names_one_of (label a b c : string) (content : str) : Prop :=
  ∃ pre lab ws v rest,
    content = pre ++ lab ++ ws ++ v ++ rest ∧
    ci_equal (u label) lab ∧
    Forall (fun d => isspace d = true) ws ∧
    one_of_ci a b c v.

(** The text ends with a Sector line: somewhere it holds the label, in any
    letter case, then optional white space, then at least one character, and
    from there no line break up to the end of the text or its final newline. *)
Definition ends_with_sector (content : str) : Prop :=
  ∃ pre lab ws body tail,
    content = pre ++ lab ++ ws ++ body ++ tail ∧
    ci_equal (u "Sector:") lab ∧
    Forall (fun d => isspace d = true) ws ∧
    body ≠ [] ∧
    Forall (fun d => d ≠ newline) body ∧
    at_end tail = true.

(** An article whose title ends in half of a surrogate pair. *)
Definition broken_article : article :=
  {| title := Some (VStr (u "Markets rally " ++ [55357]));
     description := None; url := None; publishedAt := None; source := None |}.

(** A world whose headlines feed holds [broken_article] between two sound
    articles, and whose analyzer names AAPL. *)
Definition broken_feed_world : World :=
  {| newsapi := fun _ _ =>
       Reply 200 (JSONObject (Some (AList [sample_article; broken_article; article_AB_C])));
     deepseek := fun _ _ => Reply 200 (Some aapl_text);
     telegram := fun _ _ => Reply 200 ();
     state_file := NoFile;
     file_write := fun _ => Written;
     set_iter := elements;
     set_iter_perm := fun s => Permutation_refl (elements s);
     str_lower := fun s => s;
     format_date := fun _ => None |}.

(** An article whose link ends in half of a surrogate pair: its title and
    description can be encoded, its message cannot. *)
Definition broken_link_article : article :=
  {| title := Some (VStr (u "Apple beats earnings"));
     description := Some VNone;
     url := Some (VStr (u "https://example.com/apple?ref=" ++ [55357]));
     publishedAt := Some (VStr (u "2024-05-01T10:00:00Z"));
     source := Some {| name := Some (VStr (u "Example Wire")) |} |}.

(** A world whose feed holds [broken_link_article] and whose analyzer names
    AAPL. *)
Definition broken_link_world : World :=
  {| newsapi := fun _ _ => Reply 200 (JSONObject (Some (AList [broken_link_article])));
     deepseek := fun _ _ => Reply 200 (Some aapl_text);
     telegram := fun _ _ => Reply 200 ();
     state_file := NoFile;
     file_write := fun _ => Written;
     set_iter := elements;
     set_iter_perm := fun s => Permutation_refl (elements s);
     str_lower := fun s => s;
     format_date := fun _ => None |}.


Arguments _parse_analysis : simpl never.
Arguments _format_telegram_message : simpl never.
Arguments _generate_article_id : simpl never.

(** * Proofs *)

(** ** Tactics *)

Ltac invert H := inversion H; subst; clear H.

(** Unfolds the operations of the monad. *)
Ltac monad := repeat (progress (unfold mbind, mret, M_bind, M_ret, try_except, raise,
  lift, emit, log, tick, get_processed, set_processed, get_file, set_file, mk; cbn)).

(** ** The matcher is sound *)

Lemma lit_exec_sound ic l s s' :
  lit_exec ic l s = Some s' →
  ∃ p, s = p ++ s' ∧ Forall2 (fun c d => lit_match ic c d = true) l p.
Proof.
  revert s. induction l as [|c l IH]; intros s H; simpl in H.
  - exists []. split; [by inversion H | constructor].
  - destruct s as [|d s]; [done|].
    destruct (lit_match ic c d) eqn:E; [|done].
    destruct (IH _ H) as (p & -> & Hp).
    exists (d :: p). split; [done | by constructor].
Qed.

Lemma lit_exec_complete ic l p rest :
  Forall2 (fun c d => lit_match ic c d = true) l p →
  lit_exec ic l (p ++ rest) = Some rest.
Proof.
  induction 1 as [|c d l p Hcd _ IH]; simpl; [done|]. by rewrite Hcd.
Qed.

Lemma rep_exec_sound {A} m greedy lo hi s (k : str → option A) a :
  rep_exec m greedy lo hi s k = Some a →
  ∃ p rest, s = p ++ rest ∧ Forall (fun d => m d = true) p ∧
    (lo ≤ length p)%nat ∧ within hi (length p) ∧ k rest = Some a.
Proof.
  revert lo hi. induction s as [|d s IH]; intros lo hi H.
  - assert (lo = O ∧ k [] = Some a) as [-> Hk].
    { simpl in H. destruct greedy, lo; simpl in H; try done. destruct (k []); done. }
    exists [], []. repeat split; auto. intros h _. simpl. lia.
  - simpl in H.
    set (more := if m d && may_repeat hi
                 then rep_exec m greedy (pred lo) (pred <$> hi) s k else None) in H.
    set (stop := match lo with O => k (d :: s) | S _ => None end) in H.
    assert (more = Some a ∨ stop = Some a) as [Hm | Hs].
    { destruct greedy, more, stop; simplify_eq; auto. }
    + subst more. destruct (m d) eqn:Hd; [|done].
      destruct (may_repeat hi) eqn:Hr; [|done]. simpl in Hm.
      destruct (IH _ _ Hm) as (p & rest & -> & Hp & Hlo & Hhi & Hk).
      exists (d :: p), rest. repeat split; auto.
      * simpl. lia.
      * intros h ->. simpl. specialize (Hhi (pred h) eq_refl).
        destruct h; [done|]. simpl in Hhi. lia.
    + subst stop. destruct lo; [|done].
      exists [], (d :: s). repeat split; auto. intros h _. simpl. lia.
Qed.

Lemma rep_exec_complete {A} m greedy lo hi (k : str → option A) p rest :
  rep_exec m greedy lo hi (p ++ rest) k = None →
  Forall (fun d => m d = true) p → (lo ≤ length p)%nat → within hi (length p) →
  k rest = None.
Proof.
  revert lo hi. induction p as [|d p IH]; intros lo hi H Hp Hlo Hhi.
  - simpl in Hlo. assert (lo = O) as -> by lia.
    destruct rest as [|e rest]; simpl in H.
    + destruct greedy; destruct (k []); done.
    + destruct greedy.
      * destruct (if m e && may_repeat hi then _ else _); [done|exact H].
      * destruct (k (e :: rest)); done.
  - inversion Hp as [|? ? Hd Hp']; subst. simpl in H.
    assert (may_repeat hi = true) as Hr.
    { destruct hi as [[|h]|]; auto. specialize (Hhi O eq_refl). simpl in Hhi. lia. }
    rewrite Hd, Hr in H. simpl in H.
    apply (IH (pred lo) (pred <$> hi)); auto.
    + destruct greedy.
      * destruct (rep_exec m true (pred lo) (pred <$> hi) (p ++ rest) k); [|done].
        destruct lo; done.
      * destruct lo; [destruct (k (d :: p ++ rest))|]; done.
    + simpl in Hlo. lia.
    + intros h Hh. destruct hi as [h'|]; [|done]. simpl in Hh. simplify_eq.
      specialize (Hhi h' eq_refl). simpl in Hhi. lia.
Qed.

(** A lazy repetition from zero stops at the first length the rest accepts. *)
Lemma rep_exec_lazy_first {A} m s (k : str → option A) a :
  rep_exec m false 0 None s k = Some a →
  ∃ p rest, s = p ++ rest ∧ Forall (fun d => m d = true) p ∧ k rest = Some a ∧
    ∀ p1 c p2, p = p1 ++ c :: p2 → k (c :: p2 ++ rest) = None.
Proof.
  induction s as [|d s IH]; intros H; simpl in H.
  - exists [], []. repeat split; auto.
    + destruct (k []); done.
    + intros [|] ? ? ?; done.
  - destruct (k (d :: s)) eqn:Hk.
    + exists [], (d :: s). repeat split; auto.
      * congruence.
      * intros [|] ? ? ?; done.
    + destruct (m d) eqn:Hd; [|done]. simpl in H.
      destruct (IH H) as (p & rest & -> & Hp & Hka & Hmin).
      exists (d :: p), rest. repeat split; auto.
      intros [|c1 p1] c p2 Heq; simplify_eq/=; [done|].
      by eapply Hmin.
Qed.

Lemma exec_sound {A} ic r : ∀ s g (k : str → group → option A) a,
  exec ic r s g k = Some a →
  ∃ p rest g', s = p ++ rest ∧ matches ic r p rest g g' ∧ k rest g' = Some a.
Proof.
  revert A. induction r as [l|c lo hi gr|r1 IH1 r2 IH2|r1 IH1 r2 IH2|r IH|r IH|];
    intros A s g k a H; simpl in H.
  - destruct (lit_exec ic l s) as [s'|] eqn:E; [|done].
    destruct (lit_exec_sound _ _ _ _ E) as (p & -> & Hp).
    exists p, s', g. repeat split; auto. by constructor.
  - destruct (rep_exec_sound _ _ _ _ _ _ _ H) as (p & rest & -> & Hp & Hlo & Hhi & Hk).
    exists p, rest, g. repeat split; auto. by constructor.
  - destruct (IH1 _ _ _ _ _ H) as (p1 & rest1 & g1 & -> & Hm1 & H2).
    destruct (IH2 _ _ _ _ _ H2) as (p2 & rest & g2 & -> & Hm2 & Hk).
    exists (p1 ++ p2), rest, g2. rewrite <- app_assoc. repeat split; auto.
    by econstructor.
  - destruct (exec ic r1 s g k) eqn:E1.
    + simplify_eq. destruct (IH1 _ _ _ _ _ E1) as (p & rest & g' & -> & Hm & Hk).
      exists p, rest, g'. repeat split; auto. by apply matches_alt_l.
    + destruct (IH2 _ _ _ _ _ H) as (p & rest & g' & -> & Hm & Hk).
      exists p, rest, g'. repeat split; auto. by apply matches_alt_r.
  - destruct (IH _ _ _ _ _ H) as (p & rest & g' & -> & Hm & Hk).
    exists p, rest, (Some p). repeat split; [by econstructor|].
    rewrite <- Hk. do 2 f_equal. rewrite length_app.
    replace (length p + length rest - length rest)%nat with (length p) by lia.
    by rewrite take_app_length.
  - destruct (exec ic r s g (fun _ g' => Some g')) as [g1|] eqn:E; [|done].
    destruct (IH _ _ _ _ _ E) as (p & rest & g' & -> & Hm & Hk). simplify_eq.
    exists [], (p ++ rest), g1. repeat split; auto. by econstructor.
  - destruct (at_end s) eqn:E; [|done].
    exists [], s, g. repeat split; auto. by constructor.
Qed.

Lemma re_search_sound r s ic m :
  re_search r s ic = Some m →
  ∃ pre p rest, s = pre ++ p ++ rest ∧ matches ic r p rest None (group1 m).
Proof.
  induction s as [|d s IH]; simpl; unfold re_match_at.
  - destruct (exec ic r [] None _) eqn:E; [|done]. intros [= <-].
    destruct (exec_sound _ _ _ _ _ _ E) as (p & rest & g' & Hs & Hm & Hk).
    simplify_eq/=. exists [], p, rest. auto.
  - destruct (exec ic r (d :: s) None _) eqn:E.
    + intros [= <-].
      destruct (exec_sound _ _ _ _ _ _ E) as (p & rest & g' & Hs & Hm & Hk).
      simplify_eq/=. exists [], p, rest. auto.
    + intros H. destruct (IH H) as (pre & p & rest & -> & Hm).
      exists (d :: pre), p, rest. auto.
Qed.

Lemma matches_group_mono ic r p rest g g' :
  matches ic r p rest g g' → is_Some g → is_Some g'.
Proof. induction 1; eauto. Qed.

Lemma sets_group_sound ic r p rest g g' :
  matches ic r p rest g g' → sets_group r = true → is_Some g'.
Proof.
  induction 1; simpl; intros Hs; try done; eauto.
  - apply orb_true_iff in Hs as [Hs|Hs]; eauto using matches_group_mono.
  - apply andb_true_iff in Hs as [? ?]; eauto.
  - apply andb_true_iff in Hs as [? ?]; eauto.
Qed.

(** ** Characters, [strip] and the loop of the parser *)

Lemma isspace_spec d :
  isspace d = true ↔
  (9 ≤ d ≤ 13) ∨ (28 ≤ d ≤ 32) ∨ d = 133 ∨ d = 160 ∨ d = 5760 ∨
  (8192 ≤ d ≤ 8202) ∨ d = 8232 ∨ d = 8233 ∨ d = 8239 ∨ d = 8287 ∨ d = 12288.
Proof.
  unfold isspace.
  rewrite !orb_true_iff, !andb_true_iff, !N.leb_le, !N.eqb_eq. lia.
Qed.

Lemma isspace_false d : isspace d = false ↔ ¬ (isspace d = true).
Proof. destruct (isspace d); split; congruence. Qed.

Lemma unicode_tolower_spec d x :
  unicode_tolower d = x ↔
  (65 ≤ d ≤ 90 ∧ x = d + 32) ∨ (d = 304 ∧ x = 105) ∨ (d = 8490 ∧ x = 107) ∨
  (¬ (65 ≤ d ≤ 90) ∧ d ≠ 304 ∧ d ≠ 8490 ∧ x = d).
Proof.
  unfold unicode_tolower.
  destruct (N.leb_spec 65 d), (N.leb_spec d 90), (N.eqb_spec d 304),
    (N.eqb_spec d 8490); simpl; lia.
Qed.

Lemma extra_cases_spec lo y :
  In y (extra_cases lo) ↔ (lo = 105 ∧ y = 305) ∨ (lo = 115 ∧ y = 383).
Proof.
  unfold extra_cases.
  destruct (N.eqb_spec lo 105), (N.eqb_spec lo 115); simpl; lia.
Qed.

Lemma lit_match_spec c d :
  lit_match true c d = true ↔
  unicode_tolower d = unicode_tolower c ∨
  (unicode_tolower c = 105 ∧ unicode_tolower d = 305) ∨
  (unicode_tolower c = 115 ∧ unicode_tolower d = 383).
Proof.
  unfold lit_match. rewrite orb_true_iff, N.eqb_eq, existsb_exists.
  split.
  - intros [H | (y & Hy & He)]; [by left | right].
    apply N.eqb_eq in He. subst y. by apply extra_cases_spec in Hy.
  - intros [H | H]; [by left | right].
    exists (unicode_tolower d). rewrite N.eqb_eq. split; [|done].
    apply extra_cases_spec. lia.
Qed.

(** A character that matches a printable ASCII pattern character is no
    white space. *)
Lemma lit_match_nonspace c d :
  lit_match true c d = true → 33 ≤ c ≤ 126 → isspace d = false.
Proof.
  intros H Hc. apply isspace_false. rewrite isspace_spec.
  apply lit_match_spec in H.
  pose proof (proj1 (unicode_tolower_spec c _) eq_refl) as Hlc.
  pose proof (proj1 (unicode_tolower_spec d _) eq_refl) as Hld.
  lia.
Qed.

Lemma In_chars_from x lo n :
  In x (chars_from lo n) ↔ lo ≤ x < lo + N.of_nat n.
Proof.
  revert lo. induction n as [|n IH]; intros lo; simpl chars_from.
  - simpl. lia.
  - simpl In. rewrite IH. lia.
Qed.

Lemma ticker_char_spec d :
  cset_match true (CRange 65 90) d = true ↔ ticker_char d.
Proof.
  unfold cset_match, ticker_char. rewrite existsb_exists.
  pose proof (proj1 (unicode_tolower_spec d _) eq_refl) as Hld.
  split.
  - intros (x & Hx & Hm). apply In_chars_from in Hx.
    apply lit_match_spec in Hm.
    pose proof (proj1 (unicode_tolower_spec x _) eq_refl) as Hlx.
    change (N.of_nat (N.to_nat (90 + 1 - 65))) with 26 in Hx. lia.
  - intros H.
    assert (∃ x, 65 ≤ x ≤ 90 ∧
      (unicode_tolower d = x + 32 ∨ (x = 73 ∧ unicode_tolower d = 305) ∨
       (x = 83 ∧ unicode_tolower d = 383))) as (x & Hx & Hd).
    { destruct H as [H|[H|[H|[H|[H|H]]]]].
      - exists d. lia.
      - exists (d - 32). lia.
      - exists 73. lia.
      - exists 73. lia.
      - exists 83. lia.
      - exists 75. lia. }
    exists x. split.
    + apply In_chars_from.
      change (N.of_nat (N.to_nat (90 + 1 - 65))) with 26. lia.
    + apply lit_match_spec.
      pose proof (proj1 (unicode_tolower_spec x _) eq_refl) as Hlx. lia.
Qed.

Lemma ticker_char_nonspace d : ticker_char d → isspace d = false.
Proof.
  intros H. apply isspace_false. rewrite isspace_spec. unfold ticker_char in H. lia.
Qed.

(** *** [strip] *)

Lemma lstrip_spec s :
  ∃ a, s = a ++ lstrip s ∧ Forall (fun d => isspace d = true) a ∧
       (∀ c s', lstrip s = c :: s' → isspace c = false).
Proof.
  induction s as [|c s (a & Hs & Ha & Hh)]; simpl.
  - exists []. repeat split; auto. done.
  - destruct (isspace c) eqn:E.
    + exists (c :: a). repeat split; auto. simpl. by f_equal.
    + exists []. repeat split; auto. intros ? ? [= <- <-]. done.
Qed.

Lemma lstrip_nonspace c s : isspace c = false → lstrip (c :: s) = c :: s.
Proof. intros H. simpl. by rewrite H. Qed.

Lemma rstrip_spec s :
  ∃ b, s = rstrip s ++ b ∧ Forall (fun d => isspace d = true) b ∧
       (∀ c s', rstrip s = s' ++ [c] → isspace c = false).
Proof.
  unfold rstrip. destruct (lstrip_spec (rev s)) as (a & Hs & Ha & Hh).
  exists (rev a). repeat split.
  - rewrite <- rev_app_distr, <- Hs. by rewrite rev_involutive.
  - by apply Forall_rev.
  - intros c s' H. apply (Hh c (rev s')).
    rewrite <- (rev_involutive (lstrip (rev s))), H.
    by rewrite rev_app_distr.
Qed.

Lemma strip_spec s :
  ∃ a b, s = a ++ strip s ++ b ∧
    Forall (fun d => isspace d = true) a ∧ Forall (fun d => isspace d = true) b ∧
    (∀ c s', strip s = c :: s' → isspace c = false) ∧
    (∀ c s', strip s = s' ++ [c] → isspace c = false).
Proof.
  unfold strip. destruct (lstrip_spec s) as (a & Hs & Ha & Hh).
  destruct (rstrip_spec (lstrip s)) as (b & Hs' & Hb & Ht).
  exists a, b. repeat split; auto.
  - by rewrite <- Hs', <- Hs.
  - intros c s' H. rewrite H in Hs'. apply (Hh c (s' ++ b)). by rewrite Hs' at 1.
Qed.

Lemma strip_nonspace s :
  Forall (fun d => isspace d = false) s → strip s = s.
Proof.
  intros H. destruct (strip_spec s) as (a & b & Hs & Ha & Hb & _).
  assert (a = []) as ->.
  { destruct a as [|c a]; [done|]. rewrite Hs in H.
    inversion H; subst. inversion Ha; subst. congruence. }
  assert (b = []) as ->.
  { destruct b as [|c b]; [done|]. rewrite Hs in H.
    apply Forall_app in H as [_ H]. apply Forall_app in H as [_ H].
    inversion H; subst. inversion Hb; subst. congruence. }
  by rewrite app_nil_r in Hs.
Qed.

Lemma strip_Forall (P : N → Prop) s : Forall P s → Forall P (strip s).
Proof.
  intros H. destruct (strip_spec s) as (a & b & Hs & _).
  rewrite Hs in H. apply Forall_app in H as [_ H]. by apply Forall_app in H as [H _].
Qed.

(** *** The loop of the parser *)

Lemma field_value_extracted pattern content :
  sets_group pattern = true →
  field_value (re_search pattern content IGNORECASE) = Ok (extracted pattern content).
Proof.
  intros Hs. unfold field_value, extracted.
  destruct (re_search pattern content IGNORECASE) as [[g]|] eqn:E; [|done].
  destruct (re_search_sound _ _ _ _ E) as (pre & p & rest & _ & Hm).
  destruct (sets_group_sound _ _ _ _ _ _ Hm Hs) as [v Hv]. simpl in *. by subst.
Qed.

Lemma parse_loop_spec ps content result :
  Forall (fun kp => sets_group kp.2 = true) ps →
  parse_loop ps content result =
  Ok (foldl (fun acc kp => <[kp.1 := extracted kp.2 content]> acc) result ps).
Proof.
  revert result. induction ps as [|[key pattern] ps IH]; intros result H; [done|].
  inversion H; subst. simpl in *.
  rewrite field_value_extracted by done. by apply IH.
Qed.

Lemma patterns_set_group : Forall (fun kp => sets_group kp.2 = true) patterns.
Proof. repeat constructor. Qed.

Lemma parse_analysis_eq content :
  _parse_analysis content =
  Ok (<["Sector"%string := extracted pat_Sector content]>
     (<["Ticker"%string := extracted pat_Ticker content]>
     (<["Why"%string := extracted pat_Why content]>
     (<["Risk"%string := extracted pat_Risk content]>
     (<["Confidence"%string := extracted pat_Confidence content]>
     (<["Recommendation"%string := extracted pat_Recommendation content]> ∅)))))).
Proof. unfold _parse_analysis. by rewrite parse_loop_spec by apply patterns_set_group. Qed.

(** C4. Parser totality: on every text [_parse_analysis] returns, without
    raising, a dict whose keys are exactly Recommendation, Confidence, Risk,
    Why, Ticker and Sector; each key is bound to the stripped first group of
    the first match of its pattern, or to "N/A" when the pattern has no
    match. *)
Theorem parser_total (content : str) :
  ∃ d, _parse_analysis content = Ok d ∧
       dom d = field_names ∧
       Forall (fun kp =>
                 d !! kp.1 = Some (extracted kp.2 content) ∧
                 (extracted kp.2 content = NA ∨
                  ∃ v, re_search kp.2 content IGNORECASE = Some {| group1 := Some v |} ∧
                       extracted kp.2 content = strip v))
              patterns.
Proof.
  eexists. split; [apply parse_analysis_eq|]. split.
  - rewrite !dom_insert_L, dom_empty_L. unfold field_names.
    apply set_eq. intros k. rewrite !elem_of_union, !elem_of_singleton.
    rewrite elem_of_empty. tauto.
  - assert (∀ pattern, extracted pattern content = NA ∨
              ∃ v, re_search pattern content IGNORECASE = Some {| group1 := Some v |} ∧
                   extracted pattern content = strip v) as Hx.
    { intros pattern. unfold extracted.
      destruct (re_search pattern content IGNORECASE) as [[[v|]]|]; eauto. }
    unfold patterns. repeat (constructor; [split; [by simplify_map_eq | apply Hx]|]).
    constructor.
Qed.

(** ** The values of the six fields *)

Local Open Scope regex_scope.

(** A pattern [label \s* ( body )]: what a match looks like. *)
Lemma matches_labelled ic l body p rest g :
  matches ic (RLit l ⋅ spaces ⋅ RGroup body) p rest None g →
  ∃ lab ws v g', p = lab ++ ws ++ v ∧ g = Some v ∧
    Forall2 (fun c d => lit_match ic c d = true) l lab ∧
    Forall (fun d => isspace d = true) ws ∧
    matches ic body v rest None g'.
Proof.
  intros H. invert H.
  match goal with H : matches _ (RGroup _) _ _ _ _ |- _ => invert H end.
  match goal with H : matches _ (RSeq _ _) _ _ _ _ |- _ => invert H end.
  match goal with H : matches _ (RLit _) _ _ _ _ |- _ => invert H end.
  match goal with H : matches _ spaces _ _ _ _ |- _ => invert H end.
  eexists _, _, _, _. rewrite <- app_assoc. repeat split; eauto.
Qed.

(** The same followed by a look-ahead that has no group. *)
Lemma matches_labelled_look ic l body stop p rest g :
  sets_group stop = false → (∀ q r' h h', matches ic stop q r' h h' → h' = h) →
  matches ic (RLit l ⋅ spaces ⋅ RGroup body ⋅ RLook stop) p rest None g →
  ∃ lab ws v g', p = lab ++ ws ++ v ∧ g = Some v ∧
    Forall2 (fun c d => lit_match ic c d = true) l lab ∧
    Forall (fun d => isspace d = true) ws ∧
    matches ic body v rest None g'.
Proof.
  intros _ Hfree H. invert H.
  match goal with H : matches _ (RLook _) _ _ _ _ |- _ => invert H end.
  match goal with H : matches _ stop _ _ _ _ |- _ => apply Hfree in H; subst end.
  rewrite app_nil_r.
  match goal with H : matches _ _ _ _ None _ |- _ =>
    rewrite app_nil_l in H; by apply matches_labelled in H end.
Qed.

Lemma why_stop_group_free ic q r' h h' : matches ic why_stop q r' h h' → h' = h.
Proof.
  intros H. invert H.
  - match goal with H : matches _ (RSeq _ _) _ _ _ _ |- _ => invert H end.
    match goal with H : matches _ (lit _) _ _ _ _ |- _ => invert H end.
    match goal with H : matches _ spaces _ _ _ _ |- _ => invert H end. done.
  - match goal with H : matches _ REnd _ _ _ _ |- _ => invert H end. done.
Qed.

Lemma end_group_free ic q r' h h' : matches ic REnd q r' h h' → h' = h.
Proof. intros H. by invert H. Qed.

Local Close Scope regex_scope.

(** The three words a group of alternatives can spell. *)
Lemma matches_three ic a b c v rest g g' :
  matches ic (RAlt (RAlt (lit a) (lit b)) (lit c)) v rest g g' →
  Forall2 (fun x d => lit_match ic x d = true) (u a) v ∨
  Forall2 (fun x d => lit_match ic x d = true) (u b) v ∨
  Forall2 (fun x d => lit_match ic x d = true) (u c) v.
Proof.
  intros H. invert H.
  - match goal with H : matches _ (RAlt _ _) _ _ _ _ |- _ => invert H end.
    + match goal with H : matches _ (lit _) _ _ _ _ |- _ => invert H end. auto.
    + match goal with H : matches _ (lit _) _ _ _ _ |- _ => invert H end. auto.
  - match goal with H : matches _ (lit _) _ _ _ _ |- _ => invert H end. auto.
Qed.

(** A word that spells ASCII letters up to case has no white space. *)
Lemma ci_equal_nonspace l v :
  Forall (fun c => 33 ≤ c ≤ 126) l → ci_equal l v →
  Forall (fun d => isspace d = false) v.
Proof.
  intros Hl H. induction H as [|c d l v Hcd _ IH]; [constructor|].
  invert Hl. constructor; eauto using lit_match_nonspace.
Qed.

Lemma strip_idemp s : strip (strip s) = strip s.
Proof.
  destruct (strip_spec s) as (_ & _ & _ & _ & _ & Hh & Ht).
  destruct (strip_spec (strip s)) as (a & b & Hs & Ha & Hb & _).
  assert (a = []) as ->.
  { destruct a as [|c a]; [done|]. invert Ha. simpl in Hs.
    specialize (Hh _ _ Hs). congruence. }
  assert (b = []) as ->.
  { destruct b as [|c b _] using rev_ind; [done|].
    apply Forall_app in Hb as [_ Hb]. invert Hb.
    rewrite !app_assoc in Hs. specialize (Ht _ _ Hs). congruence. }
  simpl in Hs. by rewrite app_nil_r in Hs.
Qed.

Lemma extracted_three l a b c content :
  Forall (fun x => 33 ≤ x ≤ 126) (u a) → Forall (fun x => 33 ≤ x ≤ 126) (u b) →
  Forall (fun x => 33 ≤ x ≤ 126) (u c) →
  let pat := RSeq (RSeq (lit l) spaces) (RGroup (RAlt (RAlt (lit a) (lit b)) (lit c))) in
  extracted pat content = NA ∨ one_of_ci a b c (extracted pat content).
Proof.
  intros Ha Hb Hc pat. unfold extracted.
  destruct (re_search pat content IGNORECASE) as [[[v|]]|] eqn:E; auto.
  right. destruct (re_search_sound _ _ _ _ E) as (pre & p & rest & _ & Hm).
  apply matches_labelled in Hm as (lab & ws & v' & g' & _ & Hg & _ & _ & Hv).
  simpl in Hg. injection Hg as <-.
  apply matches_three in Hv. unfold one_of_ci, ci_equal.
  destruct Hv as [Hv|[Hv|Hv]];
    rewrite strip_nonspace by (eapply ci_equal_nonspace; [|exact Hv]; done); auto.
Qed.

Lemma ascii_letters_printable s :
  forallb (fun x => (33 <=? x) && (x <=? 126)) (u s) = true →
  Forall (fun x => 33 ≤ x ≤ 126) (u s).
Proof.
  intros H. apply Forall_forall. intros x Hx.
  rewrite forallb_forall in H. apply list_elem_of_In in Hx. specialize (H _ Hx).
  apply andb_true_iff in H as [H1 H2]. apply N.leb_le in H1, H2. lia.
Qed.

Lemma extracted_Ticker content :
  extracted pat_Ticker content = NA ∨ ticker_text (extracted pat_Ticker content).
Proof.
  unfold extracted.
  destruct (re_search pat_Ticker content IGNORECASE) as [[[v|]]|] eqn:E; auto.
  right. destruct (re_search_sound _ _ _ _ E) as (pre & p & rest & _ & Hm).
  apply matches_labelled in Hm as (lab & ws & v' & g' & _ & Hg & _ & _ & Hv).
  simpl in Hg. injection Hg as <-. invert Hv.
  assert (Forall ticker_char v) as Ht.
  { eapply Forall_impl; [eassumption|]. intros d Hd. by apply ticker_char_spec. }
  rewrite strip_nonspace.
  - split; [|done]. split; [done|]. eauto.
  - eapply Forall_impl; [exact Ht|]. apply ticker_char_nonspace.
Qed.

Lemma any_char_no_newline ic v :
  Forall (fun d => cset_match ic CAny d = true) v → Forall (fun d => d ≠ newline) v.
Proof.
  intros H. eapply Forall_impl; [exact H|]. intros d Hd. simpl in Hd.
  apply negb_true_iff, N.eqb_neq in Hd. done.
Qed.

Lemma extracted_Why content :
  extracted pat_Why content = NA ∨ free_text (extracted pat_Why content).
Proof.
  unfold extracted.
  destruct (re_search pat_Why content IGNORECASE) as [[[v|]]|] eqn:E; auto.
  right. destruct (re_search_sound _ _ _ _ E) as (pre & p & rest & _ & Hm).
  apply matches_labelled_look in Hm as (lab & ws & v' & g' & _ & Hg & _ & _ & Hv);
    [|done|apply why_stop_group_free].
  simpl in Hg. injection Hg as <-. invert Hv.
  split; [|apply strip_idemp].
  apply strip_Forall. by eapply any_char_no_newline.
Qed.

Lemma extracted_Sector content :
  extracted pat_Sector content = NA ∨ free_text (extracted pat_Sector content).
Proof.
  unfold extracted.
  destruct (re_search pat_Sector content IGNORECASE) as [[[v|]]|] eqn:E; auto.
  right. destruct (re_search_sound _ _ _ _ E) as (pre & p & rest & _ & Hm).
  apply matches_labelled_look in Hm as (lab & ws & v' & g' & _ & Hg & _ & _ & Hv);
    [|done|apply end_group_free].
  simpl in Hg. injection Hg as <-. invert Hv.
  split; [|apply strip_idemp].
  apply strip_Forall. by eapply any_char_no_newline.
Qed.

(** C5 (amended). Parsed-value invariant: every value of the result is the
    sentinel or has the form of its pattern read without regard to case.
    Recommendation spells Buy, Sell or Hold; Confidence and Risk spell Low,
    Medium or High; Ticker is 1 to 5 characters that [[A-Z]] accepts under
    IGNORECASE: letters of either case (and the four characters that
    IGNORECASE identifies with i, s or k); Why and Sector are stripped text
    without a line break. *)
Theorem parsed_values_match_patterns (content : str) :
  ∃ d, _parse_analysis content = Ok d ∧ values_satisfy_patterns d.
Proof.
  eexists. split; [apply parse_analysis_eq|].
  unfold values_satisfy_patterns.
  repeat split; eexists; (split; [by simplify_map_eq|]).
  - apply (extracted_three "Recommendation:" "Buy" "Sell" "Hold");
      by apply ascii_letters_printable.
  - apply (extracted_three "Confidence:" "Low" "Medium" "High");
      by apply ascii_letters_printable.
  - apply (extracted_three "Risk:" "Low" "Medium" "High");
      by apply ascii_letters_printable.
  - apply extracted_Why.
  - apply extracted_Ticker.
  - apply extracted_Sector.
Qed.

(** ** The extent of the Why value *)

Lemma why_stop_sound {A} s g (k : str → group → option A) a :
  exec true why_stop s g k = Some a → why_stops s.
Proof.
  intros H. apply exec_sound in H as (p & rest & g' & -> & Hm & _).
  invert Hm.
  - right.
    match goal with H : matches _ (RSeq _ _) _ _ _ _ |- _ => invert H end.
    match goal with H : matches _ (lit _) _ _ _ _ |- _ => invert H end.
    match goal with H : matches _ spaces _ _ _ _ |- _ => invert H end.
    eexists _, _, rest. rewrite <- app_assoc. repeat split; eauto.
  - left. match goal with H : matches _ REnd _ _ _ _ |- _ => invert H end. done.
Qed.

Lemma why_stop_complete {A} s g (k : str → group → option A) :
  exec true why_stop s g k = None → (∀ s' g', is_Some (k s' g')) → ¬ why_stops s.
Proof.
  intros H Hk [He | (ws & lab & rest' & -> & Hws & Hlab)]; simpl in H.
  - destruct (rep_exec _ _ _ _ _ _); [done|]. rewrite He in H.
    destruct (Hk s g) as [? Hs]. congruence.
  - destruct (rep_exec (cset_match true CSpace) true 0 None (ws ++ lab ++ rest') _) eqn:E;
      [done|].
    eapply rep_exec_complete in E; eauto.
    + unfold lit in E. simpl in E.
      pose proof (lit_exec_complete true (u "Ticker:") lab rest' Hlab) as Hl.
      simpl in Hl. rewrite Hl in E. destruct (Hk rest' g) as [? Hs]. congruence.
    + simpl. lia.
    + intros h Hh. done.
Qed.

(** The Why pattern at one position: label, white space, the shortest text
    after which the look-ahead holds. *)
Lemma match_why_at s m :
  re_match_at IGNORECASE pat_Why s = Some m →
  ∃ lab ws body rest, s = lab ++ ws ++ body ++ rest ∧
    ci_equal (u "Why:") lab ∧
    Forall (fun d => isspace d = true) ws ∧
    group1 m = Some body ∧
    Forall (fun d => d ≠ newline) body ∧
    why_stops rest ∧
    (∀ b1 c b2, body = b1 ++ c :: b2 → ¬ why_stops (c :: b2 ++ rest)).
Proof.
  unfold re_match_at, pat_Why, IGNORECASE. cbn [exec lit spaces].
  destruct (lit_exec true (u "Why:") s) as [s1|] eqn:E1; [|done].
  apply lit_exec_sound in E1 as (lab & -> & Hlab).
  intros H. apply rep_exec_sound in H as (ws & s2 & -> & Hws & _ & _ & H).
  apply rep_exec_lazy_first in H as (body & rest & -> & Hbody & H & Hmin).
  exists lab, ws, body, rest. repeat split; auto.
  - destruct (exec true why_stop rest _ _) eqn:E; [|done].
    injection H as <-. cbn [group1].
    apply exec_sound in E as (p & r' & g' & _ & Hm & Hk). injection Hk as ->.
    apply why_stop_group_free in Hm. rewrite Hm. f_equal.
    rewrite length_app. replace (length body + length rest - length rest)%nat
      with (length body) by lia. by rewrite take_app_length.
  - by eapply any_char_no_newline.
  - destruct (exec true why_stop rest _ _) eqn:E; [|done].
    by eapply why_stop_sound.
  - intros b1 c b2 -> Hstop. specialize (Hmin b1 c b2 eq_refl).
    destruct (exec true why_stop (c :: b2 ++ rest) _ (fun _ g' => Some g')) eqn:E.
    + done.
    + eapply why_stop_complete in E; [done|]. eauto.
Qed.

Lemma re_search_at r s ic m :
  re_search r s ic = Some m →
  ∃ pre s', s = pre ++ s' ∧ re_match_at ic r s' = Some m.
Proof.
  induction s as [|d s IH]; simpl.
  - destruct (re_match_at ic r []) eqn:E; [|done]. intros [= <-]. by exists [], [].
  - destruct (re_match_at ic r (d :: s)) eqn:E.
    + intros [= <-]. by exists [], (d :: s).
    + intros H. destruct (IH H) as (pre & s' & -> & Hm). by exists (d :: pre), s'.
Qed.

(** C6 (amended). Why-field termination: the Why value is the stripped text
    between the label "Why:" (and the white space after it) and the first
    place, on the same line, that is followed by optional white space and
    the label "Ticker:", or by the end of the text; it never runs over a
    Ticker label.  For the text of the example the value is exactly
    "strong fundamentals". *)
Theorem why_extent :
  (∀ content m, re_search pat_Why content IGNORECASE = Some m →
     ∃ pre lab ws body rest, content = pre ++ lab ++ ws ++ body ++ rest ∧
       ci_equal (u "Why:") lab ∧
       Forall (fun d => isspace d = true) ws ∧
       group1 m = Some body ∧
       extracted pat_Why content = strip body ∧
       Forall (fun d => d ≠ newline) body ∧
       why_stops rest ∧
       (∀ b1 c b2, body = b1 ++ c :: b2 → ¬ why_stops (c :: b2 ++ rest))) ∧
  (∀ content, ∃ d, _parse_analysis content = Ok d ∧
     d !! "Why"%string = Some (extracted pat_Why content)) ∧
  extracted pat_Why why_example = u "strong fundamentals".
Proof.
  split; [|split].
  - intros content m H.
    destruct (re_search_at _ _ _ _ H) as (pre & s' & -> & Hm).
    destruct (match_why_at _ _ Hm) as (lab & ws & body & rest & -> & ? & ? & Hg & ? & ? & ?).
    exists pre, lab, ws, body, rest. repeat split; auto.
    unfold extracted. rewrite H. destruct m as [g]. simpl in Hg. by subst.
  - intros content. eexists. split; [apply parse_analysis_eq|]. by simplify_map_eq.
  - vm_compute. reflexivity.
Qed.

(** ** The store on disk *)

Lemma nonspace_not_cr c : isspace c = false → c ≠ 13.
Proof. intros H ->. done. Qed.

Lemma nonspace_not_nl c : isspace c = false → c ≠ newline.
Proof. intros H ->. done. Qed.

Lemma universal_newlines_id s :
  Forall (fun c => c ≠ 13) s → universal_newlines s = s.
Proof.
  induction 1 as [|c s Hc _ IH]; [done|]. simpl.
  destruct (N.eqb_spec c 13); [done|]. by rewrite IH.
Qed.

Lemma join_no_cr order :
  Forall token order → Forall (fun c => c ≠ 13) (join [newline] order).
Proof.
  induction 1 as [|t ts [_ Ht] _ IH]; [constructor|].
  assert (Forall (fun c => c ≠ 13) t) as Ht'.
  { eapply Forall_impl; [exact Ht|]. apply nonspace_not_cr. }
  simpl. destruct ts as [|t' ts]; [done|].
  apply Forall_app. split; [done|]. by constructor.
Qed.

Lemma lines_from_app cur t rest :
  Forall (fun c => c ≠ newline) t →
  lines_from cur (t ++ rest) = lines_from (cur ++ t) rest.
Proof.
  intros H. revert cur. induction H as [|c t Hc _ IH]; intros cur.
  - by rewrite app_nil_r.
  - simpl. destruct (N.eqb_spec c newline); [done|].
    rewrite IH. by rewrite <- app_assoc.
Qed.

Lemma lines_from_join order :
  Forall token order → lines_from [] (join [newline] order) = saved_lines order.
Proof.
  induction 1 as [|t ts [Hne Ht] Hts IH]; [done|].
  assert (Forall (fun c => c ≠ newline) t) as Ht'.
  { eapply Forall_impl; [exact Ht|]. apply nonspace_not_nl. }
  simpl. destruct ts as [|t' ts].
  - rewrite <- (app_nil_r t) at 1. rewrite lines_from_app by done. simpl.
    by destruct t.
  - rewrite lines_from_app by done. cbn [app lines_from].
    change (newline =? newline) with true. cbn iota. by rewrite IH.
Qed.

Lemma strip_token t : token t → strip t = t.
Proof. intros [_ H]. by apply strip_nonspace. Qed.

Lemma lstrip_token t rest : token t → lstrip (t ++ rest) = t ++ rest.
Proof.
  intros [Hne H]. destruct t as [|c t]; [done|]. inversion H; subst.
  by apply lstrip_nonspace.
Qed.

Lemma strip_token_nl t : token t → strip (t ++ [newline]) = t.
Proof.
  intros Ht. unfold strip. rewrite lstrip_token by done.
  unfold rstrip. rewrite rev_app_distr. simpl.
  assert (token (rev t)) as Hr.
  { destruct Ht as [Hne H]. split.
    - intros Hn. apply Hne. by rewrite <- (rev_involutive t), Hn.
    - by apply Forall_rev. }
  rewrite <- (app_nil_r (rev t)), lstrip_token by done.
  by rewrite app_nil_r, rev_involutive.
Qed.

Lemma saved_lines_strip order :
  Forall token order →
  strip <$> filter (fun line => nonempty (strip line)) (saved_lines order) = order.
Proof.
  induction 1 as [|t ts Ht Hts IH]; [done|].
  assert (nonempty t = true) as Hn by (destruct Ht as [? _]; by destruct t).
  simpl. destruct ts as [|t' ts].
  - rewrite filter_cons_True by (rewrite strip_token, Hn; done).
    simpl. by rewrite strip_token.
  - rewrite filter_cons_True by (rewrite strip_token_nl, Hn; done).
    cbn [fmap list_fmap]. rewrite strip_token_nl by done. f_equal. apply IH.
Qed.

Lemma load_save_list order :
  Forall token order → load_set (save_text order) = list_to_set order.
Proof.
  intros H. unfold load_set, save_text, file_lines.
  rewrite universal_newlines_id by (by apply join_no_cr).
  rewrite lines_from_join by done. by rewrite saved_lines_strip.
Qed.

(** C8. Persistence round trip: for a set of tokens that are not empty and
    hold no white space, the text written for any order of the set loads
    back to the set; so does the state file after a successful save. *)
Theorem persistence_round_trip (s : gset str) (order : list str) :
  (∀ t, t ∈ s → t ≠ [] ∧ Forall (fun c => isspace c = false) t) →
  order ≡ₚ elements s →
  load_set (save_text order) = s ∧
  ∀ w st, processed_articles st = s → file_write w (calls st) = Written →
    file (_save_processed_articles w st).2 = FileText (save_text (set_iter w s)) ∧
    processed_articles (_save_processed_articles w st).2 = s ∧
    ∀ st1, file st1 = file (_save_processed_articles w st).2 →
      processed_articles (_load_processed_articles st1).2 = s.
Proof.
  intros Htok Hperm.
  assert (∀ l, l ≡ₚ elements s → load_set (save_text l) = s) as Hrt.
  { intros l Hl. rewrite load_save_list.
    - rewrite Hl. apply list_to_set_elements_L.
    - apply Forall_forall. intros t Ht. apply Htok.
      apply elem_of_elements. by rewrite <- Hl. }
  split; [by apply Hrt|].
  intros w st Hs Hw.
  assert (_save_processed_articles w st =
          (Ok tt, mk s (FileText (save_text (set_iter w s))) (S (calls st))
                     (trace st ++ [EvWrite Written; EvLog DEBUG "Saved processed articles."])))
    as Hsave.
  { unfold _save_processed_articles. monad. rewrite Hw. monad.
    rewrite Hs, <- app_assoc. done. }
  rewrite Hsave. cbn [snd file processed_articles mk]. split; [done|]. split; [done|].
  intros st1 Hf. unfold _load_processed_articles. monad. rewrite Hf. monad.
  apply Hrt, set_iter_perm.
Qed.

(** * The bot in a world *)

Section Bot.

Context (w : World).

(** ** The pipeline, call by call *)


Lemma analyze_spec h st :
  _analyze_article w h st =
  (Ok (analysis_of w (calls st) h),
   mk (processed_articles st) (file st) (S (calls st))
      (trace st ++ EvPostAnalyzer h ::
         match analysis_of w (calls st) h with
         | Some _ => []
         | None => [EvLog ERROR "Analysis failed"]
         end)).
Proof.
  unfold _analyze_article, analysis_of. monad.
  destruct (deepseek w (calls st) h) as [|status [content|]]; monad;
    try (by rewrite <- app_assoc).
  - destruct (raise_for_status status); monad; [by rewrite <- app_assoc|].
    rewrite parse_analysis_eq. monad. done.
  - destruct (raise_for_status status); monad; by rewrite <- app_assoc.
Qed.

Lemma encode_raises_only s e : encode s = Raise e → e = UnicodeEncodeError.
Proof.
  revert e. induction s as [|c s IH]; intros e; simpl; [done|].
  destruct (utf8_char c); [|by intros [= <-]].
  destruct (encode s); [done|]. intros [= <-]. by apply IH.
Qed.

Lemma send_spec msg st :
  _send_telegram_message w msg st =
  if encodes msg
  then (Ok tt,
        mk (processed_articles st) (file st) (S (calls st))
           (trace st ++ [EvPostTelegram msg (delivered w (calls st) msg);
                         if delivered w (calls st) msg
                         then EvLog INFO "Telegram message sent successfully."
                         else EvLog ERROR "Telegram API error"]))
  else (Raise UnicodeEncodeError, st).
Proof.
  unfold _send_telegram_message, delivered, encodes. monad.
  destruct (encode msg) as [bytes|e] eqn:E; monad.
  - destruct (telegram w (calls st) msg) as [|status []]; monad;
      try (by rewrite <- app_assoc).
    destruct (raise_for_status status); monad; by rewrite <- app_assoc.
  - by rewrite (encode_raises_only _ _ E).
Qed.

Lemma analysis_of_nonempty n h d : analysis_of w n h = Some d → d ≠ ∅.
Proof.
  unfold analysis_of. intros H.
  destruct (deepseek w n h) as [|status [content|]]; try done;
    destruct (raise_for_status status); try done.
  rewrite parse_analysis_eq in H. injection H as <-. apply insert_non_empty.
Qed.

Lemma accepts_iff n h :
  accepts (analysis_of w n h) = true ↔
  ∃ d, analysis_of w n h = Some d ∧ d !! "Ticker"%string ≠ Some NA.
Proof.
  destruct (analysis_of w n h) as [d|] eqn:E; simpl.
  - rewrite andb_true_iff, !negb_true_iff, !bool_decide_eq_false. split.
    + intros [_ H]. eauto.
    + intros (d' & [= <-] & H). split; [|done]. by eapply analysis_of_nonempty.
  - split; [done|]. by intros (? & ? & _).
Qed.

(** [_process_article], path by path. *)
Lemma process_spec a st :
  _process_article w a st =
  match _generate_article_id a with
  | Raise e => (Raise e, st)
  | Ok article_id =>
      if bool_decide (article_id ∈ processed_articles st) then (Ok tt, st)
      else if negb (truthy (headline_of a)) then (Ok tt, st)
      else
        let h := headline_of a in
        let an := analysis_of w (calls st) h in
        if accepts an then
          let message := message_of w st a in
          if encodes message then
            (Ok tt,
             mk ({[article_id]} ∪ processed_articles st) (file st) (S (S (calls st)))
                (trace st ++ analyze_events w (calls st) article_id h
                          ++ notify_events w (S (calls st)) article_id message))
          else
            (Raise UnicodeEncodeError,
             mk (processed_articles st) (file st) (S (calls st))
                (trace st ++ analyze_events w (calls st) article_id h
                          ++ notify_events w (S (calls st)) article_id message))
        else
          (Ok tt,
           mk (processed_articles st) (file st) (S (calls st))
              (trace st ++ analyze_events w (calls st) article_id h))
  end.
Proof.
  unfold _process_article, headline_of.
  unfold mbind at 1, M_bind at 1, lift at 1.
  destruct (_generate_article_id a) as [article_id|e]; [|done].
  unfold mbind at 1, M_bind at 1, get_processed at 1.
  destruct (bool_decide (article_id ∈ processed_articles st)); [done|].
  destruct (truthy (get (title a) VNone)); [|done]. cbn [negb].
  unfold mbind at 1, M_bind at 1, emit at 1.
  unfold mbind at 1, M_bind at 1. rewrite analyze_spec. cbn [calls trace processed_articles file mk].
  destruct (accepts _) eqn:Hacc.
  - unfold mbind at 1, M_bind at 1, emit at 1. cbn [calls trace processed_articles file mk].
    unfold mbind at 1, M_bind at 1. rewrite send_spec.
    cbv zeta. unfold message_of, headline_of, analyze_events, notify_events.
    destruct (encodes _); monad; rewrite <- !app_assoc; done.
  - monad. unfold analyze_events. rewrite <- !app_assoc. done.
Qed.

(** ** Marking and filtering *)

Lemma analyze_events_quiet n i h :
  Forall (fun e => is_pipeline_output e = false) (analyze_events w n i h).
Proof. unfold analyze_events. destruct (analysis_of w n h); repeat constructor. Qed.

Lemma not_accept_path st a i :
  i ∈ processed_articles st ∨ truthy (headline_of a) = false ∨
  accepts (analysis_of w (calls st) (headline_of a)) = false →
  ¬ accept_path w st a i.
Proof.
  intros H (Hnew & Hh & Hacc%accepts_iff).
  destruct H as [H|[H|H]]; [done|congruence|congruence].
Qed.

Lemma Forall_quiet_no_mark i evs :
  Forall (fun e => is_pipeline_output e = false) evs → EvMark i ∉ evs.
Proof.
  intros H Hin. rewrite Forall_forall in H. by specialize (H _ Hin).
Qed.

(** The accept path with a message that can be encoded, in one equation. *)
Lemma process_accepted a st i :
  _generate_article_id a = Ok i → accept_path w st a i →
  encodes (message_of w st a) = true →
  _process_article w a st =
  (Ok tt,
   mk ({[i]} ∪ processed_articles st) (file st) (S (S (calls st)))
      (trace st ++ analyze_events w (calls st) i (headline_of a)
                ++ notify_events w (S (calls st)) i (message_of w st a))).
Proof.
  intros Hi (Hnew & Hh & Hacc%accepts_iff) He. rewrite process_spec, Hi.
  rewrite bool_decide_eq_false_2 by done. rewrite Hh. cbn [negb]. cbv zeta.
  by rewrite Hacc, He.
Qed.


Lemma notify_events_sent n i m :
  encodes m = true →
  notify_events w n i m =
  [ EvNotify i m;
    EvPostTelegram m (delivered w n m);
    (if delivered w n m
     then EvLog INFO "Telegram message sent successfully."
     else EvLog ERROR "Telegram API error");
    EvMark i ].
Proof. intros H. unfold notify_events. by rewrite H. Qed.

Lemma notify_events_unsent n i m :
  encodes m = false → notify_events w n i m = [EvNotify i m].
Proof. intros H. unfold notify_events. by rewrite H. Qed.

Lemma elem_of_add (i : str) (s : gset str) : i ∈ {[i]} ∪ s.
Proof. apply elem_of_union. left. by apply elem_of_singleton. Qed.

Lemma process_seen a st i :
  _generate_article_id a = Ok i → i ∈ processed_articles st →
  _process_article w a st = (Ok tt, st).
Proof.
  intros Hi Hin. rewrite process_spec, Hi. by rewrite bool_decide_eq_true_2.
Qed.


(** The conclusion of the marking discipline on a path that is not the
    accept path and adds the events [evs], none of them an output. *)
Lemma marking_rejected a st i evs :
  ¬ accept_path w st a i →
  Forall (fun e => is_pipeline_output e = false) evs →
  (EvMark i ∈ evs ↔
     accept_path w st a i ∧ encodes (message_of w st a) = true) ∧
  (accept_path w st a i → encodes (message_of w st a) = true →
     (Ok tt : outcome unit) = Ok tt ∧
     processed_articles st = {[i]} ∪ processed_articles st ∧
     ∃ lvl text,
       evs = analyze_events w (calls st) i (headline_of a) ++
             [ EvNotify i (message_of w st a);
               EvPostTelegram (message_of w st a)
                 (delivered w (S (calls st)) (message_of w st a));
               EvLog lvl text;
               EvMark i ]) ∧
  (accept_path w st a i → encodes (message_of w st a) = false →
     (Ok tt : outcome unit) = Raise UnicodeEncodeError ∧
     processed_articles st = processed_articles st ∧
     evs = analyze_events w (calls st) i (headline_of a) ++
           [EvNotify i (message_of w st a)]) ∧
  (¬ accept_path w st a i →
     (Ok tt : outcome unit) = Ok tt ∧
     processed_articles st = processed_articles st ∧
     Forall (fun e => is_pipeline_output e = false) evs) ∧
  (analysis_of w (calls st) (headline_of a) = None →
     processed_articles st = processed_articles st ∧ EvMark i ∉ evs).
Proof.
  intros Hna Hq. split; [|split; [|split; [|split]]].
  - split; [|by intros [? _]]. intros Hm. by apply Forall_quiet_no_mark in Hm.
  - done.
  - done.
  - done.
  - intros _. split; [done|]. by apply Forall_quiet_no_mark.
Qed.

(** C2. Marking discipline: when an article with fingerprint
    [article_id] is processed, the fingerprint is marked if and only if the
    accept path is taken (fingerprint not in the store, headline present,
    analysis result present, Ticker not "N/A") and the message can be
    encoded as UTF-8.  Then the call returns, the store gains the
    fingerprint, and the events end with the call of the notifier, the
    request to Telegram whatever its result, the log line of that result,
    and the mark.  On the accept path with a message that cannot be encoded
    the send raises [UnicodeEncodeError] before any request: the exception
    leaves [_process_article], the store is unchanged and the events end
    with the call of the notifier.  Off the accept path, and in particular
    when the analysis is absent, the call returns, the store is unchanged
    and nothing is sent or marked. *)
Theorem marking_discipline (a : article) (st : bot) (article_id : str) :
  _generate_article_id a = Ok article_id →
  ∃ o st' evs,
    _process_article w a st = (o, st') ∧ trace st' = trace st ++ evs ∧
    (EvMark article_id ∈ evs ↔
       accept_path w st a article_id ∧ encodes (message_of w st a) = true) ∧
    (accept_path w st a article_id → encodes (message_of w st a) = true →
       o = Ok tt ∧
       processed_articles st' = {[article_id]} ∪ processed_articles st ∧
       ∃ lvl text,
         evs = analyze_events w (calls st) article_id (headline_of a) ++
               [ EvNotify article_id (message_of w st a);
                 EvPostTelegram (message_of w st a)
                   (delivered w (S (calls st)) (message_of w st a));
                 EvLog lvl text;
                 EvMark article_id ]) ∧
    (accept_path w st a article_id → encodes (message_of w st a) = false →
       o = Raise UnicodeEncodeError ∧
       processed_articles st' = processed_articles st ∧
       evs = analyze_events w (calls st) article_id (headline_of a) ++
             [EvNotify article_id (message_of w st a)]) ∧
    (¬ accept_path w st a article_id →
       o = Ok tt ∧
       processed_articles st' = processed_articles st ∧
       Forall (fun e => is_pipeline_output e = false) evs) ∧
    (analysis_of w (calls st) (headline_of a) = None →
       processed_articles st' = processed_articles st ∧ EvMark article_id ∉ evs).
Proof.
  intros Hid. rewrite process_spec, Hid.
  case_bool_decide as Hseen.
  { exists (Ok tt), st, []. split; [done|]. split; [by rewrite app_nil_r|].
    apply marking_rejected; [apply not_accept_path; auto | constructor]. }
  destruct (truthy (headline_of a)) eqn:Hh; cbn [negb].
  2: { exists (Ok tt), st, []. split; [done|]. split; [by rewrite app_nil_r|].
    apply marking_rejected; [apply not_accept_path; auto | constructor]. }
  cbv zeta. destruct (accepts _) eqn:Hacc.
  - assert (accept_path w st a article_id) as Hp.
    { split; [done|]. split; [done|]. by apply accepts_iff. }
    apply accepts_iff in Hacc as (d & Hd & _).
    destruct (encodes (message_of w st a)) eqn:He.
    + eexists _, _, _. split; [done|]. split; [done|]. cbn [processed_articles mk].
      rewrite notify_events_sent by done.
      split; [|split; [|split; [|split]]].
      * split; [done|]. intros _. apply elem_of_app. right.
        do 3 apply list_elem_of_further. apply list_elem_of_here.
      * intros _ _. split; [done|]. split; [done|].
        exists (if delivered w (S (calls st)) (message_of w st a) then INFO else ERROR),
          (if delivered w (S (calls st)) (message_of w st a)
           then "Telegram message sent successfully." else "Telegram API error")%string.
        f_equal. by destruct (delivered _ _ _).
      * done.
      * done.
      * congruence.
    + eexists _, _, _. split; [done|]. split; [done|]. cbn [processed_articles mk].
      rewrite notify_events_unsent by done.
      split; [|split; [|split; [|split]]].
      * split; [|by intros [_ ?]]. intros Hm.
        apply elem_of_app in Hm as [Hm|Hm].
        -- by apply (Forall_quiet_no_mark _ _ (analyze_events_quiet _ _ _)) in Hm.
        -- apply list_elem_of_singleton in Hm. discriminate.
      * done.
      * done.
      * done.
      * congruence.
  - eexists _, _, _. split; [done|]. split; [done|]. cbn [processed_articles mk].
    apply marking_rejected; [apply not_accept_path; auto | apply analyze_events_quiet].
Qed.

Lemma count_events_app p l1 l2 :
  count_events p (l1 ++ l2) = (count_events p l1 + count_events p l2)%nat.
Proof. unfold count_events. by rewrite filter_app, length_app. Qed.

Lemma count_events_quiet p evs :
  Forall (fun e => p e = false) evs → count_events p evs = 0%nat.
Proof.
  unfold count_events. induction 1 as [|e evs He _ IH]; [done|].
  rewrite filter_cons_False by congruence. done.
Qed.

Lemma count_events_cons p e evs :
  count_events p (e :: evs) = ((if p e then 1 else 0) + count_events p evs)%nat.
Proof.
  unfold count_events. destruct (p e) eqn:E.
  - by rewrite filter_cons_True.
  - by rewrite filter_cons_False by congruence.
Qed.




(** ** The run: at most one notification for a fingerprint *)

Lemma count_sent_le_notify i evs :
  (count_events (is_sent i) evs ≤ count_events (is_notify i) evs)%nat.
Proof.
  induction evs as [|e evs IH]; [done|]. rewrite !count_events_cons.
  destruct e; simpl; try lia. destruct (bool_decide _), (encodes _); simpl; lia.
Qed.

Lemma naan_app i l1 l2 :
  no_analysis_after_sent i l1 → no_analysis_after_sent i l2 →
  (count_events (is_sent i) l1 = 0%nat ∨ count_events (is_analyze i) l2 = 0%nat) →
  no_analysis_after_sent i (l1 ++ l2).
Proof.
  induction l1 as [|e l1 IH]; intros H1 H2 Hc; [done|].
  destruct H1 as [He H1]. simpl. split.
  - intros Hn. specialize (He Hn). rewrite count_events_app, He.
    destruct Hc as [Hc|Hc]; [|done].
    rewrite count_events_cons, Hn in Hc. done.
  - apply IH; auto. destruct Hc as [Hc|Hc]; [left|by right].
    rewrite count_events_cons in Hc. lia.
Qed.

Lemma naan_quiet i evs :
  Forall (fun e => is_sent i e = false) evs → no_analysis_after_sent i evs.
Proof.
  induction 1 as [|e evs He _ IH]; [done|]. simpl. split; [congruence|done].
Qed.

Lemma step_inv_refl st : step_inv st st.
Proof.
  split; [done|]. exists []. split; [by rewrite app_nil_r|].
  intros i. repeat split; try done. unfold count_events. simpl. lia.
Qed.

Lemma step_inv_trans st1 st2 st3 :
  step_inv st1 st2 → step_inv st2 st3 → step_inv st1 st3.
Proof.
  intros [Hs1 (e1 & Ht1 & H1)] [Hs2 (e2 & Ht2 & H2)].
  split; [by etrans|]. exists (e1 ++ e2). split.
  { by rewrite Ht2, Ht1, app_assoc. }
  intros i. destruct (H1 i) as (Ha1 & Hb1 & Hc1 & Hd1).
  destruct (H2 i) as (Ha2 & Hb2 & Hc2 & Hd2).
  rewrite !count_events_app.
  assert (count_events (is_sent i) e1 = 1%nat →
          count_events (is_notify i) e2 = 0%nat ∧
          count_events (is_analyze i) e2 = 0%nat) as Hx by auto.
  pose proof (count_sent_le_notify i e2) as Hle.
  repeat split.
  - destruct (decide (count_events (is_sent i) e1 = 1%nat)) as [He|He]; [|lia].
    destruct (Hx He) as [Hn _]. lia.
  - destruct (Hb1 H) as [-> _]. destruct (Hb2 (Hs1 _ H)) as [-> _]. done.
  - destruct (Hb1 H) as [_ ->]. destruct (Hb2 (Hs1 _ H)) as [_ ->]. done.
  - intros Hc.
    destruct (decide (count_events (is_sent i) e1 = 1%nat)) as [He|He].
    + apply Hs2. auto.
    + apply Hc2. lia.
  - apply naan_app; auto.
    destruct (decide (count_events (is_sent i) e1 = 0%nat)) as [He|He]; [by left|].
    right. apply Hx. lia.
Qed.

Lemma step_inv_quiet st st' evs :
  processed_articles st' = processed_articles st →
  trace st' = trace st ++ evs →
  Forall (fun e => is_step e = false) evs →
  step_inv st st'.
Proof.
  intros Hp Ht Hq. split; [by rewrite Hp|]. exists evs. split; [done|].
  intros i.
  assert (count_events (is_notify i) evs = 0%nat) as Hn.
  { apply count_events_quiet. eapply Forall_impl; [exact Hq|]. by intros []. }
  assert (count_events (is_sent i) evs = 0%nat) as Hs.
  { pose proof (count_sent_le_notify i evs). lia. }
  assert (count_events (is_analyze i) evs = 0%nat) as Ha.
  { apply count_events_quiet. eapply Forall_impl; [exact Hq|]. by intros []. }
  rewrite Hs. repeat split; try done; try lia.
  apply naan_quiet. eapply Forall_impl; [exact Hq|]. by intros [].
Qed.

Lemma preserves_ret {A} (a : A) : preserves (mret a).
Proof. intros st o st' [= <- <-]. apply step_inv_refl. Qed.

Lemma preserves_raise {A} e : preserves (@raise A e).
Proof. intros st o st' [= <- <-]. apply step_inv_refl. Qed.

Lemma preserves_lift {A} (x : outcome A) : preserves (lift x).
Proof. intros st o st' [= <- <-]. apply step_inv_refl. Qed.

Lemma preserves_bind {A B} (m : M A) (f : A → M B) :
  preserves m → (∀ a, preserves (f a)) → preserves (m ≫= f).
Proof.
  intros Hm Hf st o st'. unfold mbind, M_bind.
  destruct (m st) as [[a|e] st1] eqn:E.
  - intros H. eapply step_inv_trans; [by eapply Hm|by eapply Hf].
  - intros [= <- <-]. by eapply Hm.
Qed.

Lemma preserves_try {A} (m : M A) handles h :
  preserves m → (∀ e, preserves (h e)) → preserves (try_except m handles h).
Proof.
  intros Hm Hh st o st'. unfold try_except.
  destruct (m st) as [[a|e] st1] eqn:E.
  - intros [= <- <-]. by eapply Hm.
  - destruct (handles e).
    + intros H. eapply step_inv_trans; [by eapply Hm|by eapply Hh].
    + intros [= <- <-]. by eapply Hm.
Qed.

Lemma preserves_emit e : is_step e = false → preserves (emit e).
Proof.
  intros He st o st' [= <- <-]. eapply step_inv_quiet; simpl; eauto.
Qed.

Lemma preserves_log lvl msg : preserves (log lvl msg).
Proof. by apply preserves_emit. Qed.

Lemma preserves_tick : preserves tick.
Proof.
  intros st o st' [= <- <-]. eapply (step_inv_quiet _ _ []); simpl; eauto.
  by rewrite app_nil_r.
Qed.

Lemma preserves_get_processed : preserves get_processed.
Proof. intros st o st' [= <- <-]. apply step_inv_refl. Qed.

Lemma preserves_set_file f : preserves (set_file f).
Proof.
  intros st o st' [= <- <-]. eapply (step_inv_quiet _ _ []); simpl; eauto.
  by rewrite app_nil_r.
Qed.

Lemma preserves_sleep s : preserves (sleep s).
Proof.
  unfold sleep. destruct (s <? 0)%Z; [apply preserves_raise | by apply preserves_emit].
Qed.

Create HintDb pres.
#[local] Hint Resolve preserves_ret preserves_raise preserves_lift preserves_log
  preserves_tick preserves_get_processed preserves_set_file preserves_sleep : pres.

Ltac pres :=
  repeat lazymatch goal with
    | |- preserves (try_except _ _ _) => apply preserves_try; [|intros ?]
    | |- preserves (mbind _ _) => apply preserves_bind; [|intros ?]
    | |- preserves (emit _) => apply preserves_emit; reflexivity
    | |- preserves _ => progress auto with pres
    end.

Lemma preserves_save : preserves (_save_processed_articles w).
Proof.
  unfold _save_processed_articles. pres.
  destruct (file_write w _); pres.
Qed.

Lemma preserves_fetch_attempt category : preserves (fetch_attempt w category).
Proof.
  unfold fetch_attempt. pres.
  destruct (newsapi w _ category) as [|status body]; pres.
  destruct (raise_for_status status); pres.
  destruct body as [| |[[|l]|]]; pres.
Qed.

Lemma preserves_retry_loop {A} remaining attempt wait (f : M A) :
  preserves f → preserves (retry_loop remaining attempt wait f).
Proof.
  intros Hf. revert attempt.
  induction remaining as [|r IH]; intros attempt; simpl; pres; auto.
Qed.

Lemma preserves_fetch_loop categories acc : preserves (fetch_loop w categories acc).
Proof.
  revert acc. induction categories as [|c cs IH]; intros acc; cbn [fetch_loop]; pres.
  unfold _fetch_news_for_category, retry.
  apply preserves_retry_loop, preserves_fetch_attempt.
Qed.

Lemma preserves_for_each {A} (xs : list A) body :
  (∀ x, preserves (body x)) → preserves (for_each xs body).
Proof. intros Hb. induction xs as [|x xs IH]; simpl; pres; auto. Qed.

Lemma count_analyze_events n i0 h i :
  count_events (is_analyze i) (analyze_events w n i0 h) = (if bool_decide (i0 = i) then 1 else 0)%nat
  ∧ count_events (is_notify i) (analyze_events w n i0 h) = 0%nat.
Proof.
  unfold analyze_events. rewrite !count_events_cons. simpl.
  destruct (analysis_of w n h); rewrite ?count_events_cons; simpl;
    unfold count_events; simpl; split; lia.
Qed.

Lemma count_notify_events n i0 m i :
  count_events (is_notify i) (notify_events w n i0 m) = (if bool_decide (i0 = i) then 1 else 0)%nat
  ∧ count_events (is_analyze i) (notify_events w n i0 m) = 0%nat
  ∧ count_events (is_sent i) (notify_events w n i0 m)
      = (if bool_decide (i0 = i) && encodes m then 1 else 0)%nat.
Proof.
  unfold notify_events. destruct (encodes m) eqn:E; rewrite !count_events_cons; simpl;
    rewrite ?E; [destruct (delivered w n m)|]; destruct (bool_decide (i0 = i)); simpl;
    unfold count_events; simpl; repeat split; lia.
Qed.

Lemma preserves_process a : preserves (_process_article w a).
Proof.
  intros st o st'. rewrite process_spec.
  destruct (_generate_article_id a) as [i0|e].
  2: { intros [= <- <-]. apply step_inv_refl. }
  case_bool_decide as Hseen.
  { intros [= <- <-]. apply step_inv_refl. }
  destruct (truthy (headline_of a)); cbn [negb].
  2: { intros [= <- <-]. apply step_inv_refl. }
  cbv zeta.
  assert (∀ i, Forall (fun e => is_sent i e = false)
                 (analyze_events w (calls st) i0 (headline_of a))) as Hq.
  { intros i. unfold analyze_events. destruct (analysis_of _ _ _); repeat constructor. }
  destruct (accepts _).
  - assert (∀ i (s' : gset str),
              processed_articles st ⊆ s' → (encodes (message_of w st a) = true → i0 ∈ s') →
              (count_events (is_sent i)
                 (analyze_events w (calls st) i0 (headline_of a) ++
                  notify_events w (S (calls st)) i0 (message_of w st a)) ≤ 1)%nat ∧
              (i ∈ processed_articles st →
                 count_events (is_notify i)
                   (analyze_events w (calls st) i0 (headline_of a) ++
                    notify_events w (S (calls st)) i0 (message_of w st a)) = 0%nat ∧
                 count_events (is_analyze i)
                   (analyze_events w (calls st) i0 (headline_of a) ++
                    notify_events w (S (calls st)) i0 (message_of w st a)) = 0%nat) ∧
              (count_events (is_sent i)
                 (analyze_events w (calls st) i0 (headline_of a) ++
                  notify_events w (S (calls st)) i0 (message_of w st a)) = 1%nat → i ∈ s') ∧
              no_analysis_after_sent i
                (analyze_events w (calls st) i0 (headline_of a) ++
                 notify_events w (S (calls st)) i0 (message_of w st a))) as Hstep.
    { intros i s' Hsub Hin. rewrite !count_events_app.
      destruct (count_analyze_events (calls st) i0 (headline_of a) i) as [Ha1 Ha2].
      destruct (count_notify_events (S (calls st)) i0 (message_of w st a) i)
        as (Hn1 & Hn2 & Hn3).
      assert (count_events (is_sent i) (analyze_events w (calls st) i0 (headline_of a))
              = 0%nat) as Ha3 by (by apply count_events_quiet).
      rewrite Ha1, Ha2, Ha3, Hn1, Hn2, Hn3.
      split; [|split; [|split]].
      - destruct (bool_decide (i0 = i) && encodes (message_of w st a)); simpl; lia.
      - intros Hi. case_bool_decide; [subst; done|done].
      - case_bool_decide as Hi; simpl; [|lia].
        destruct (encodes (message_of w st a)); [|simpl; lia].
        intros _. subst. by apply Hin.
      - apply naan_app; [by apply naan_quiet| |by right].
        unfold notify_events. destruct (encodes (message_of w st a)); simpl;
          repeat split; try done.
        all: intros _; try destruct (delivered _ _ _); reflexivity. }
    destruct (encodes (message_of w st a)) eqn:He; intros [= <- <-].
    + split; [simpl; apply union_subseteq_r|]. eexists. split; [reflexivity|].
      intros i. cbn [processed_articles mk]. apply Hstep.
      * apply union_subseteq_r.
      * intros _. apply elem_of_add.
    + split; [done|]. eexists. split; [reflexivity|].
      intros i. cbn [processed_articles mk]. by apply Hstep.
  - intros [= <- <-]. split; [done|].
    exists (analyze_events w (calls st) i0 (headline_of a)).
    split; [reflexivity|]. intros i.
    destruct (count_analyze_events (calls st) i0 (headline_of a) i) as [Ha1 Ha2].
    assert (count_events (is_sent i) (analyze_events w (calls st) i0 (headline_of a))
            = 0%nat) as Ha3 by (by apply count_events_quiet).
    rewrite Ha1, Ha2, Ha3. split; [|split; [|split]].
    + lia.
    + intros Hin. split; [done|]. case_bool_decide; [subst; done | done].
    + lia.
    + by apply naan_quiet.
Qed.

Lemma preserves_cycle cfg : preserves (cycle w cfg).
Proof.
  unfold cycle, _fetch_news. pres.
  - apply preserves_fetch_loop.
  - apply preserves_for_each, preserves_process.
  - apply preserves_save.
Qed.

Lemma preserves_cycles cfg n : preserves (cycles w cfg n).
Proof. induction n as [|n IH]; simpl; pres; auto using preserves_cycle. Qed.

Lemma load_effect st o st' :
  _load_processed_articles st = (o, st') →
  ∃ evs, trace st' = trace st ++ evs ∧ Forall (fun e => is_step e = false) evs.
Proof.
  unfold _load_processed_articles. monad.
  destruct (file st) as [|e|content]; monad.
  - intros [= <- <-]. eexists. split; [reflexivity|]. repeat constructor.
  - destruct (is_FileNotFoundError e); intros [= <- <-]; monad.
    + eexists. split; [reflexivity|]. repeat constructor.
    + exists []. split; [by rewrite app_nil_r|]. constructor.
  - intros [= <- <-]. eexists. split; [reflexivity|]. repeat constructor.
Qed.

Lemma notified_once_from i st0 st :
  Forall (fun e => is_step e = false) (trace st0) → step_inv st0 st →
  notified_once i st.
Proof.
  intros Hq [_ (evs & Ht & Hi)]. destruct (Hi i) as (Ha & _ & Hc & Hd).
  assert (count_events (is_sent i) (trace st0) = 0%nat) as Hn.
  { apply count_events_quiet. eapply Forall_impl; [exact Hq|]. by intros []. }
  unfold notified_once. rewrite Ht, count_events_app, Hn. simpl.
  split; [done|]. split; [done|].
  apply naan_app; [|done|by left].
  apply naan_quiet. eapply Forall_impl; [exact Hq|]. by intros [].
Qed.

Lemma run_notified_once cfg n i : notified_once i (run w cfg n (init w)).2.
Proof.
  unfold run. unfold mbind at 1, M_bind at 1.
  destruct (_load_processed_articles (init w)) as [[[]|e] st1] eqn:E;
    apply load_effect in E as (evs1 & Ht & Hq); simpl in Ht.
  - unfold mbind at 1, M_bind at 1. unfold log at 1, emit at 1.
    set (st0 := {| processed_articles := processed_articles st1; file := file st1;
                   calls := calls st1; trace := trace st1 ++ [_] |}).
    destruct (cycles w cfg n st0) as [o st2] eqn:Ec. cbn [snd].
    apply (notified_once_from i st0).
    + subst st0. cbn [trace]. rewrite Ht. apply Forall_app. split; [done|].
      repeat constructor.
    + by eapply preserves_cycles.
  - cbn [snd]. apply (notified_once_from i st1); [by rewrite Ht | apply step_inv_refl].
Qed.

(** ** The fetcher *)

Lemma wait_exponential_bounds multiplier attempt :
  (2 ≤ wait_exponential multiplier 2 10 attempt ≤ 10)%Z.
Proof. unfold wait_exponential. lia. Qed.

Lemma fetch_effect_refl st : fetch_effect st st.
Proof.
  repeat split. exists []. rewrite app_nil_r. repeat split; [constructor|].
  unfold count_events. simpl. lia.
Qed.

Lemma fetch_effect_trans st1 st2 st3 :
  fetch_effect st1 st2 → fetch_effect st2 st3 → fetch_effect st1 st3.
Proof.
  intros (Hp1 & Hf1 & e1 & Ht1 & Hq1 & Hc1) (Hp2 & Hf2 & e2 & Ht2 & Hq2 & Hc2).
  split; [congruence|]. split; [congruence|]. exists (e1 ++ e2).
  split; [by rewrite Ht2, Ht1, app_assoc|]. split; [by apply Forall_app|].
  rewrite count_events_app. lia.
Qed.

Lemma fetch_effect_events st evs :
  Forall fetch_event evs →
  fetch_effect st
    (mk (processed_articles st) (file st) (calls st + count_events is_get evs)
        (trace st ++ evs)).
Proof. intros H. repeat split. by exists evs. Qed.

(** One attempt. *)
Lemma fetch_attempt_spec c st :
  fetch_attempt w c st =
  (match reply_articles (newsapi w (calls st) c) with
   | Some l => Ok l
   | None => Raise (attempt_error (newsapi w (calls st) c))
   end,
   mk (processed_articles st) (file st) (S (calls st))
      (trace st ++ EvGet c ::
         match reply_articles (newsapi w (calls st) c) with
         | Some _ => [EvLog INFO "Fetched articles for category"]
         | None => []
         end)).
Proof.
  unfold fetch_attempt, reply_articles, attempt_error. monad.
  destruct (newsapi w (calls st) c) as [|status body]; monad; try done.
  destruct (raise_for_status status); monad.
  { by destruct body as [| |[[|l]|]]. }
  destruct body as [| |[[|l]|]]; monad; try done.
  by rewrite <- app_assoc.
Qed.

Lemma fetch_attempt_effect c st :
  fetch_effect st (fetch_attempt w c st).2 ∧
  calls (fetch_attempt w c st).2 = S (calls st).
Proof.
  rewrite fetch_attempt_spec. cbn [snd]. split; [|done].
  repeat split. eexists. split; [reflexivity|]. cbn [calls mk].
  destruct (reply_articles _); rewrite !count_events_cons; simpl;
    unfold count_events; simpl; split; try lia; repeat constructor.
Qed.

Lemma first_success_S c n k :
  first_success w c n (S k) =
  match reply_articles (newsapi w n c) with
  | Some l => Some (S n, l)
  | None => first_success w c (S n) k
  end.
Proof. reflexivity. Qed.

Lemma retry_loop_spec c remaining attempt st :
  ∃ o st',
    retry_loop remaining attempt (wait_exponential 1 2 10) (fetch_attempt w c) st = (o, st') ∧
    fetch_effect st st' ∧
    (1 ≤ calls st' - calls st ≤ S remaining)%nat ∧
    match first_success w c (calls st) (S remaining) with
    | Some (n', l) => o = Ok l ∧ calls st' = n'
    | None => (∃ e, o = Raise e) ∧ calls st' = (calls st + S remaining)%nat
    end.
Proof.
  revert attempt st. induction remaining as [|r IH]; intros attempt st.
  - cbn [retry_loop first_success]. unfold try_except.
    destruct (fetch_attempt_effect c st) as [He Hc].
    rewrite fetch_attempt_spec in *. cbn [snd] in *.
    destruct (reply_articles (newsapi w (calls st) c)) as [l|].
    + eexists _, _. split; [done|]. split; [done|]. cbn [calls mk]. split; [lia|done].
    + eexists _, _. split; [done|]. split; [done|]. cbn [calls mk].
      split; [lia|]. split; [eauto|lia].
  - cbn [retry_loop]. rewrite first_success_S. unfold try_except at 1.
    destruct (fetch_attempt_effect c st) as [He Hc].
    rewrite fetch_attempt_spec in *. cbn [snd] in *.
    destruct (reply_articles (newsapi w (calls st) c)) as [l|].
    + eexists _, _. split; [done|]. split; [done|]. cbn [calls mk]. split; [lia|done].
    + cbn [any_exception]. unfold mbind at 1, M_bind at 1, emit at 1.
      cbn [processed_articles file calls trace mk].
      set (st1 := {| processed_articles := processed_articles st; file := file st;
                     calls := S (calls st); trace := _ |}).
      destruct (IH (S attempt) st1) as (o & st' & Hr & He' & Hn & Hs).
      exists o, st'. split; [done|].
      assert (fetch_effect st st1) as He1.
      { subst st1. repeat split. eexists. split.
        - cbn [trace]. rewrite <- app_assoc. reflexivity.
        - split.
          + constructor; [exact I|].
            constructor; [apply wait_exponential_bounds|constructor].
          + cbn [calls]. unfold count_events. simpl. lia. }
      split; [by eapply fetch_effect_trans|].
      subst st1. cbn [calls] in *. split; [lia|].
      destruct (first_success w c (S (calls st)) (S r)) as [[n' l]|].
      * done.
      * destruct Hs as [? ->]. split; [done|lia].
Qed.

Lemma fetch_category_spec c st :
  ∃ o st',
    _fetch_news_for_category w c st = (o, st') ∧
    fetch_effect st st' ∧
    (1 ≤ calls st' - calls st ≤ 3)%nat ∧
    match first_success w c (calls st) 3 with
    | Some (n', l) => o = Ok l ∧ calls st' = n'
    | None => (∃ e, o = Raise e) ∧ calls st' = (calls st + 3)%nat
    end.
Proof. apply retry_loop_spec. Qed.

Lemma fetch_loop_spec categories acc st :
  ∃ st',
    fetch_loop w categories acc st =
      (Ok (acc ++ concat (contributions w categories (calls st))), st') ∧
    fetch_effect st st' ∧
    (calls st' - calls st ≤ 3 * length categories)%nat.
Proof.
  revert acc st. induction categories as [|c cs IH]; intros acc st.
  - exists st. cbn. rewrite app_nil_r. split; [done|].
    split; [apply fetch_effect_refl|lia].
  - cbn [fetch_loop contributions].
    destruct (fetch_category_spec c st) as (o & st1 & Hr & He & Hn & Hs).
    unfold mbind at 1, M_bind at 1, try_except at 1.
    unfold mbind at 1, M_bind at 1. rewrite Hr.
    destruct (first_success w c (calls st) 3) as [[n' l]|].
    + destruct Hs as [-> Hc]. unfold mret, M_ret.
      destruct (IH (acc ++ l) st1) as (st' & Hr' & He' & Hn').
      exists st'. rewrite Hr', Hc. cbn [concat]. rewrite app_assoc.
      split; [done|]. split; [by eapply fetch_effect_trans|].
      destruct He' as (_ & _ & ? & _ & _ & ?). cbn [length]. lia.
    + destruct Hs as [[e ->] Hc]. cbn [any_exception].
      unfold mbind at 1, M_bind at 1, log at 1, emit at 1. unfold mret, M_ret.
      set (st2 := {| processed_articles := processed_articles st1; file := file st1;
                     calls := calls st1; trace := _ |}).
      assert (fetch_effect st1 st2) as He2.
      { subst st2. repeat split. eexists. split; [reflexivity|].
        split; [repeat constructor|]. cbn [calls]. unfold count_events. simpl. lia. }
      destruct (IH acc st2) as (st' & Hr' & He' & Hn').
      exists st'. rewrite Hr'. subst st2. cbn [calls] in *. rewrite Hc. cbn [concat app].
      split; [done|].
      split; [eapply fetch_effect_trans; [exact He|by eapply fetch_effect_trans]|].
      cbn [length]. lia.
Qed.


(** ** Failures of the state file *)

Lemma missing_state_file_starts_fresh st :
  file st = NoFile →
  _load_processed_articles st =
  (Ok tt, mk (processed_articles st) NoFile (calls st)
             (trace st ++ [EvLog WARNING "No processed articles file found. Starting fresh."])).
Proof. intros H. unfold _load_processed_articles. monad. rewrite H. monad. by rewrite H. Qed.

Lemma failed_save_keeps_store st :
  file_write w (calls st) ≠ Written →
  ∃ st', _save_processed_articles w st = (Ok tt, st') ∧
    processed_articles st' = processed_articles st ∧
    trace st' = trace st ++ save_events (file_write w (calls st)) ∧
    EvLog ERROR "Failed to save processed articles" ∈ save_events (file_write w (calls st)).
Proof.
  intros H. unfold _save_processed_articles, save_events. monad.
  destruct (file_write w (calls st)) as [|e|e remains|e remains]; [done| | |]; monad;
    eexists; (split; [reflexivity|]); rewrite <- ?app_assoc;
    (split; [done|]); (split; [done|]).
  - apply list_elem_of_further, list_elem_of_here.
  - apply list_elem_of_further, list_elem_of_here.
  - do 2 apply list_elem_of_further. apply list_elem_of_here.
Qed.

(** C9. Failures of the state file: a missing file and a failed save are
    logged and survived (the two lemmas above), but a state file that exists
    and cannot be read is not: the exception leaves [run] before the first
    cycle, with nothing logged and the store empty. *)
Theorem unreadable_state_file_is_fatal (cfg : config) (n : nat) (e : exn) :
  state_file w = Unreadable e → is_FileNotFoundError e = false →
  run w cfg n (init w) = (Raise e, init w).
Proof.
  intros Hf He. unfold run.
  assert (_load_processed_articles (init w) = (Raise e, init w)) as Hl.
  { unfold _load_processed_articles. monad. rewrite Hf. monad. by rewrite He. }
  unfold mbind at 1, M_bind at 1. by rewrite Hl.
Qed.

(** ** The fingerprint *)

(** C10. The fingerprint collapses field boundaries: two articles whose
    title and description concatenate to the same text have the same
    fingerprint, whatever their other fields; as soon as that fingerprint is
    in the store both are skipped as already seen, and once one of them has
    been accepted and its notification sent the other is skipped; no other
    field of an article enters the fingerprint. *)
Theorem fingerprint_of_concatenation (a1 a2 : article) :
  article_content a1 = article_content a2 →
  _generate_article_id a1 = _generate_article_id a2 ∧
  (∀ st i, _generate_article_id a1 = Ok i → i ∈ processed_articles st →
     _process_article w a1 st = (Ok tt, st) ∧ _process_article w a2 st = (Ok tt, st)) ∧
  (∀ st i, _generate_article_id a1 = Ok i → accept_path w st a1 i →
     encodes (message_of w st a1) = true →
     let st1 := (_process_article w a1 st).2 in
     i ∈ processed_articles st1 ∧ _process_article w a2 st1 = (Ok tt, st1)) ∧
  (∀ b1 b2 : article, title b1 = title b2 → description b1 = description b2 →
     _generate_article_id b1 = _generate_article_id b2).
Proof.
  intros Hc.
  assert (_generate_article_id a1 = _generate_article_id a2) as Heq.
  { unfold _generate_article_id. by rewrite Hc. }
  split; [done|]. split; [|split].
  - intros st i Hi Hin. split; apply (process_seen _ _ i); congruence.
  - intros st i Hi Hp He.
    rewrite (process_accepted a1 st i Hi Hp He). cbn [snd processed_articles mk].
    split; [apply elem_of_add|]. apply (process_seen _ _ i); [|apply elem_of_add].
    congruence.
  - intros b1 b2 Ht Hd. unfold _generate_article_id, article_content.
    by rewrite Ht, Hd.
Qed.

(** ** The run *)

(** C1 (amended). At most one notification per fingerprint is sent: in every
    run, of any number of cycles, at most one notification for a fingerprint
    has a message that can be encoded, and so goes to Telegram; once it is
    sent the fingerprint is in the store and no analysis of it follows.  An
    article processed on the accept path with a message that can be encoded
    is notified exactly once and marked, and processing an article with the
    same fingerprint in a state whose store still holds it does nothing; the
    store never loses a fingerprint in the cycles of a run. *)
Theorem one_notification_per_fingerprint (cfg : config) (n : nat)
    (article_id : str) :
  ((count_events (is_sent article_id) (trace (run w cfg n (init w)).2) ≤ 1)%nat ∧
   (count_events (is_sent article_id) (trace (run w cfg n (init w)).2) = 1%nat →
      article_id ∈ processed_articles (run w cfg n (init w)).2) ∧
   no_analysis_after_sent article_id (trace (run w cfg n (init w)).2)) ∧
  (∀ a st, _generate_article_id a = Ok article_id → accept_path w st a article_id →
     encodes (message_of w st a) = true →
     ∃ st1 evs, _process_article w a st = (Ok tt, st1) ∧
       trace st1 = trace st ++ evs ∧
       count_events (is_notify article_id) evs = 1%nat ∧
       count_events (is_sent article_id) evs = 1%nat ∧
       article_id ∈ processed_articles st1 ∧
       ∀ a' st2, _generate_article_id a' = Ok article_id →
         processed_articles st1 ⊆ processed_articles st2 →
         _process_article w a' st2 = (Ok tt, st2)) ∧
  (∀ st k, processed_articles st ⊆ processed_articles (cycles w cfg k st).2).
Proof.
  split; [apply run_notified_once|]. split.
  2: { intros st k. destruct (cycles w cfg k st) as [o st'] eqn:E.
       by destruct (preserves_cycles _ _ _ _ _ E) as [Hsub _]. }
  intros a st Hi Hp He.
  eexists _, _. split; [by apply process_accepted|]. cbn [trace processed_articles mk].
  split; [reflexivity|].
  destruct (count_analyze_events (calls st) article_id (headline_of a) article_id)
    as [_ Ha].
  assert (count_events (is_sent article_id)
            (analyze_events w (calls st) article_id (headline_of a)) = 0%nat) as Hs.
  { pose proof (count_sent_le_notify article_id
      (analyze_events w (calls st) article_id (headline_of a))). lia. }
  destruct (count_notify_events (S (calls st)) article_id (message_of w st a) article_id)
    as (Hn1 & _ & Hn3).
  rewrite bool_decide_eq_true_2 in Hn1, Hn3 by done. rewrite He in Hn3.
  rewrite !count_events_app, Ha, Hs, Hn1, Hn3.
  split; [done|]. split; [done|]. split; [apply elem_of_add|].
  intros a' st2 Hi' Hsub. apply (process_seen _ _ article_id); [done|].
  apply Hsub, elem_of_add.
Qed.

End Bot.

(** * Concrete inputs *)

(** C1, as stated, fails: an item whose analysis names no ticker is analysed
    again in the next cycle, is never notified and never enters the store. *)
Lemma reanalysis_counterexample :
  _generate_article_id sample_article = Ok sample_id ∧
  count_events (is_analyze sample_id) (trace (two_cycles (Some no_ticker_text))) = 2%nat ∧
  count_events (is_notify sample_id) (trace (two_cycles (Some no_ticker_text))) = 0%nat ∧
  sample_id ∉ processed_articles (two_cycles (Some no_ticker_text)).
Proof.
  split; [vm_compute; reflexivity|]. split; [vm_compute; reflexivity|].
  split; [vm_compute; reflexivity|].
  apply (bool_decide_unpack _). vm_compute. exact I.
Qed.

(** The same two cycles when the analysis names a ticker. *)
Example accepted_item_two_cycles :
  count_events (is_analyze sample_id) (trace (two_cycles (Some aapl_text))) = 1%nat ∧
  count_events (is_notify sample_id) (trace (two_cycles (Some aapl_text))) = 1%nat ∧
  count_events is_telegram_request (trace (two_cycles (Some aapl_text))) = 1%nat ∧
  sample_id ∈ processed_articles (two_cycles (Some aapl_text)).
Proof.
  split; [vm_compute; reflexivity|]. split; [vm_compute; reflexivity|].
  split; [vm_compute; reflexivity|].
  apply (bool_decide_unpack _). vm_compute. exact I.
Qed.

(** A notification whose message cannot be encoded is not sent and not
    marked: in two cycles the item is analysed twice and the notifier is
    called twice, no request goes to Telegram, and the fingerprint never
    enters the store. *)
Example renotification_example :
  count_events (is_analyze sample_id)
    (trace (run broken_link_world sample_config 2 (init broken_link_world)).2) = 2%nat ∧
  count_events (is_notify sample_id)
    (trace (run broken_link_world sample_config 2 (init broken_link_world)).2) = 2%nat ∧
  count_events (is_sent sample_id)
    (trace (run broken_link_world sample_config 2 (init broken_link_world)).2) = 0%nat ∧
  count_events is_telegram_request
    (trace (run broken_link_world sample_config 2 (init broken_link_world)).2) = 0%nat ∧
  sample_id ∉ processed_articles
    (run broken_link_world sample_config 2 (init broken_link_world)).2.
Proof.
  split; [vm_compute; reflexivity|]. split; [vm_compute; reflexivity|].
  split; [vm_compute; reflexivity|]. split; [vm_compute; reflexivity|].
  apply (bool_decide_unpack _). vm_compute. exact I.
Qed.

(** C2 fails in the code: an article on the accept path whose message cannot
    be encoded (its link ends in a lone surrogate) is handed to the notifier
    and is not marked; the send raises before any request and the exception
    leaves [_process_article]. *)
Lemma unsent_notification_counterexample :
  _generate_article_id broken_link_article = Ok sample_id ∧
  accept_path broken_link_world (init broken_link_world) broken_link_article sample_id ∧
  (_process_article broken_link_world broken_link_article (init broken_link_world)).1
    = Raise UnicodeEncodeError ∧
(sample_id ∉ processed_articles
     (_process_article broken_link_world broken_link_article (init broken_link_world)).2) ∧
  count_events is_notifier_call
    (trace (_process_article broken_link_world broken_link_article
              (init broken_link_world)).2) = 1%nat ∧
  count_events is_telegram_request
    (trace (_process_article broken_link_world broken_link_article
              (init broken_link_world)).2) = 0%nat ∧
  count_events (is_mark sample_id)
    (trace (_process_article broken_link_world broken_link_article
              (init broken_link_world)).2) = 0%nat.
Proof.
  split; [vm_compute; reflexivity|]. split.
  { split; [apply not_elem_of_empty|]. split; [reflexivity|].
    apply accepts_iff. vm_compute. reflexivity. }
  split; [vm_compute; reflexivity|]. split.
  { apply (bool_decide_unpack _). vm_compute. exact I. }
  split; [vm_compute; reflexivity|]. split; vm_compute; reflexivity.
Qed.

(** C5, as stated, fails: a ticker in lower case is extracted as written. *)
Lemma lowercase_ticker_counterexample :
  ∃ d, _parse_analysis (u "Ticker: aapl") = Ok d ∧
       d !! "Ticker"%string = Some (u "aapl") ∧
       u "aapl" ≠ NA ∧
       forallb uppercase (u "aapl") = false.
Proof.
  eexists. split; [apply parse_analysis_eq|].
  split; [by simplify_map_eq; vm_compute|]. split; [discriminate|reflexivity].
Qed.

(** The text "N/A" after the Ticker label is not the sentinel: the pattern
    takes its first letter. *)
Example ticker_na_text :
  extracted pat_Ticker (u "Ticker: N/A") = u "N".
Proof. vm_compute. reflexivity. Qed.

(** C6, as stated, fails: on one line the Why value runs over the Sector
    label; across lines, without a Ticker label, there is no Why value. *)
Lemma why_swallows_sector_counterexample :
  (∃ d, _parse_analysis (u "Why: growth Sector: Tech") = Ok d ∧
        d !! "Why"%string = Some (u "growth Sector: Tech") ∧
        d !! "Sector"%string = Some (u "Tech")) ∧
  (∃ d, _parse_analysis (u "Why: growth" ++ [newline] ++ u "Sector: Tech") = Ok d ∧
        d !! "Why"%string = Some NA).
Proof.
  split; eexists; (split; [apply parse_analysis_eq|]).
  - split; by simplify_map_eq; vm_compute.
  - by simplify_map_eq; vm_compute.
Qed.

(** One category fails three times, the next succeeds. *)
Example fetcher_resilience_example :
  ∃ st', _fetch_news flaky_world two_categories (init flaky_world) =
           (Ok [sample_article], st') ∧
         trace st' =
           [ EvGet (u "business"); EvWait 2; EvGet (u "business"); EvWait 2;
             EvGet (u "business"); EvLog ERROR "Failed to fetch news for category";
             EvGet (u "technology"); EvLog INFO "Fetched articles for category" ].
Proof. eexists. split; vm_compute; reflexivity. Qed.

(** ** The theorems at concrete inputs *)

(** C2 at the sample article, new to the store, in a world whose analyzer
    names AAPL: the article is marked. *)
Lemma marking_discipline_witness :
  _generate_article_id sample_article = Ok sample_id ∧
  ∃ st', _process_article (steady_world (Some aapl_text)) sample_article
           (init (steady_world (Some aapl_text))) = (Ok tt, st') ∧
         sample_id ∈ processed_articles st' ∧
         EvMark sample_id ∈ trace st'.
Proof.
  assert (_generate_article_id sample_article = Ok sample_id) as H
    by (vm_compute; reflexivity).
  split; [exact H|].
  destruct (marking_discipline (steady_world (Some aapl_text)) sample_article
              (init (steady_world (Some aapl_text))) sample_id H)
    as (o & st' & evs & Hr & Ht & Hm & Ha & _).
  assert (accept_path (steady_world (Some aapl_text))
            (init (steady_world (Some aapl_text))) sample_article sample_id) as Hp.
  { split; [apply not_elem_of_empty|]. split; [reflexivity|].
    apply accepts_iff. vm_compute. reflexivity. }
  assert (encodes (message_of (steady_world (Some aapl_text))
                     (init (steady_world (Some aapl_text))) sample_article) = true) as He
    by (vm_compute; reflexivity).
  destruct (Ha Hp He) as (Ho & Hs & _).
  exists st'. split; [by rewrite <- Ho|]. split.
  - rewrite Hs. apply elem_of_add.
  - rewrite Ht. apply elem_of_app. right. apply Hm. by split.
Defined.


(** C8 at the store {"abc123", "def456"}, written in the order the set does
    not list it in. *)
Lemma persistence_round_trip_witness :
  (∀ t, t ∈ two_tokens → t ≠ [] ∧ Forall (fun c => isspace c = false) t) ∧
  [u "abc123"; u "def456"] ≡ₚ elements two_tokens ∧
  load_set (save_text [u "abc123"; u "def456"]) = two_tokens.
Proof.
  assert (∀ t, t ∈ two_tokens → t ≠ [] ∧ Forall (fun c => isspace c = false) t) as H1.
  { intros t Ht. unfold two_tokens in Ht.
    apply elem_of_union in Ht as [Ht|Ht]; apply elem_of_singleton in Ht; subst;
      (split; [discriminate | repeat constructor]). }
  assert ([u "abc123"; u "def456"] ≡ₚ elements two_tokens) as H2.
  { vm_compute. apply perm_swap. }
  split; [exact H1|]. split; [exact H2|].
  apply (persistence_round_trip two_tokens [u "abc123"; u "def456"] H1 H2).
Defined.

(** C9 in a world whose state file cannot be opened. *)
Lemma unreadable_state_file_witness :
  state_file locked_world = Unreadable PermissionError ∧
  is_FileNotFoundError PermissionError = false ∧
  run locked_world sample_config 1 (init locked_world) =
    (Raise PermissionError, init locked_world).
Proof.
  split; [reflexivity|]. split; [reflexivity|].
  apply (unreadable_state_file_is_fatal locked_world sample_config 1 PermissionError);
    reflexivity.
Defined.

(** C10 at title "AB", description "C" and title "A", description "BC". *)
Lemma fingerprint_of_concatenation_witness :
  article_content article_AB_C = article_content article_A_BC ∧
  title article_AB_C ≠ title article_A_BC ∧
  _generate_article_id article_AB_C = Ok (u "902fbdd2b1df0c4f70b4a5d23525e932") ∧
  _generate_article_id article_A_BC = Ok (u "902fbdd2b1df0c4f70b4a5d23525e932").
Proof.
  assert (article_content article_AB_C = article_content article_A_BC) as H
    by reflexivity.
  split; [exact H|]. split; [discriminate|].
  destruct (fingerprint_of_concatenation (steady_world None) article_AB_C article_A_BC H)
    as [<- _].
  split; vm_compute; reflexivity.
Defined.

(** * Further properties *)

(** ** Requests to the analyzer and to Telegram *)

Lemma parse_analysis_dom content d :
  _parse_analysis content = Ok d → dom d = field_names.
Proof.
  rewrite parse_analysis_eq. intros [= <-].
  rewrite !dom_insert_L, dom_empty_L. unfold field_names.
  apply set_eq. intros k. rewrite !elem_of_union, !elem_of_singleton.
  rewrite elem_of_empty. tauto.
Qed.

(** X1. Failures of the analyzer are contained: [_analyze_article] never
    raises, makes exactly one request, and leaves the store and the state
    file alone.  It returns nothing, and logs one error, exactly when the
    request gets no response, the status is 4xx or 5xx, or the body holds no
    completion; otherwise it returns the parse of the completion, a
    dictionary with exactly the six keys. *)
Theorem analyzer_failures_are_contained (w : World) (headline : value) (st : bot) :
  ∃ r,
    _analyze_article w headline st =
      (Ok r,
       mk (processed_articles st) (file st) (S (calls st))
          (trace st ++ EvPostAnalyzer headline ::
             match r with Some _ => [] | None => [EvLog ERROR "Analysis failed"] end)) ∧
    (r = None ↔
       deepseek w (calls st) headline = NetworkFailure ∨
       ∃ status body, deepseek w (calls st) headline = Reply status body ∧
         (raise_for_status status = true ∨ body = None)) ∧
    (∀ d, r = Some d →
       dom d = field_names ∧
       ∃ status content,
         deepseek w (calls st) headline = Reply status (Some content) ∧
         raise_for_status status = false ∧
         _parse_analysis content = Ok d).
Proof.
  exists (analysis_of w (calls st) headline).
  split; [apply analyze_spec|].
  unfold analysis_of.
  destruct (deepseek w (calls st) headline) as [|status [content|]] eqn:E.
  - split; [split; [by left | done] | done].
  - destruct (raise_for_status status) eqn:Es.
    + split; [|done]. split; [|done]. intros _. right. eauto.
    + rewrite parse_analysis_eq. split.
      * split; [done|]. intros [? | (s' & b' & [= <- <-] & [? | ?])]; congruence.
      * intros d [= <-]. split.
        -- eapply parse_analysis_dom, parse_analysis_eq.
        -- exists status, content. by rewrite parse_analysis_eq.
  - split.
    + split; [|by destruct (raise_for_status status)].
      intros _. right. eauto.
    + intros d. by destruct (raise_for_status status).
Qed.

(** X2. Request failures of Telegram are contained, encoding failures are
    not: when the message can be encoded as UTF-8, [_send_telegram_message]
    never raises, makes exactly one request and no second attempt, leaves the
    store and the state file alone, and logs success exactly when a response
    arrived whose status is neither 4xx nor 5xx, and one error otherwise.
    When the message cannot be encoded it raises [UnicodeEncodeError] before
    any request, with nothing logged and the state unchanged. *)
Theorem telegram_request_failures_are_contained (w : World) (message : str) (st : bot) :
  (encodes message = false →
     _send_telegram_message w message st = (Raise UnicodeEncodeError, st)) ∧
  (encodes message = true →
     ∃ ok : bool,
       _send_telegram_message w message st =
         (Ok tt,
          mk (processed_articles st) (file st) (S (calls st))
             (trace st ++ [EvPostTelegram message ok;
                           if ok then EvLog INFO "Telegram message sent successfully."
                           else EvLog ERROR "Telegram API error"])) ∧
       (ok = true ↔
          ∃ status body, telegram w (calls st) message = Reply status body ∧
            ¬ (400 ≤ status < 600)%Z)).
Proof.
  rewrite send_spec. split; intros ->; [done|].
  exists (delivered w (calls st) message). split; [done|].
  unfold delivered, raise_for_status.
  destruct (telegram w (calls st) message) as [|status body].
  - split; [done|]. by intros (? & ? & ? & _).
  - rewrite negb_true_iff, andb_false_iff, Z.leb_gt, Z.ltb_ge. split.
    + intros H. exists status, body. split; [done|]. lia.
    + intros (s' & b' & [= <- <-] & H). lia.
Qed.

(** ** The form of a fingerprint *)

Lemma encode_ok s :
  Forall encodable s → ∃ bytes, encode s = Ok bytes.
Proof.
  induction 1 as [|c s Hc _ [bytes IH]]; [by eexists|].
  simpl. rewrite IH. unfold utf8_char.
  destruct (c <? 128) eqn:E1; [by eexists|].
  destruct (c <? 2048) eqn:E2; [by eexists|].
  destruct ((55296 <=? c) && (c <=? 57343)) eqn:E3.
  { apply andb_true_iff in E3 as [?%N.leb_le ?%N.leb_le].
    destruct Hc as [?|[? ?]]; lia. }
  destruct (c <? 65536) eqn:E4; [by eexists|].
  destruct (c <? 1114112) eqn:E5; [by eexists|].
  apply N.ltb_ge in E5. destruct Hc as [?|[? ?]]; lia.
Qed.

Lemma utf8_char_encodable c bs : utf8_char c = Some bs → encodable c.
Proof.
  unfold utf8_char, encodable.
  destruct (N.ltb_spec c 128); [lia|].
  destruct (N.ltb_spec c 2048); [lia|].
  destruct ((55296 <=? c) && (c <=? 57343)) eqn:E3; [done|].
  apply andb_false_iff in E3 as [?%N.leb_gt | ?%N.leb_gt];
    destruct (N.ltb_spec c 65536); destruct (N.ltb_spec c 1114112); try done; lia.
Qed.

Lemma encode_raises s :
  ¬ Forall encodable s → encode s = Raise UnicodeEncodeError.
Proof.
  induction s as [|c s IH]; intros H.
  - by destruct H.
  - simpl. destruct (utf8_char c) as [bs|] eqn:E; [|done].
    rewrite IH; [done|]. intros Hs. apply H. constructor; [|done].
    by eapply utf8_char_encodable.
Qed.

Lemma encode_ok_inv s bytes : encode s = Ok bytes → Forall encodable s.
Proof.
  revert bytes. induction s as [|c s IH]; intros bytes H; [constructor|].
  simpl in H. destruct (utf8_char c) as [bs|] eqn:E; [|done].
  destruct (encode s) as [rest|]; [|done].
  constructor; [by eapply utf8_char_encodable | by eapply IH].
Qed.

Lemma le_bytes_length n x : length (MD5.le_bytes n x) = n.
Proof. revert x. induction n as [|n IH]; intros x; simpl; [done|]. by rewrite IH. Qed.

Lemma le_bytes_small n x : Forall (fun b => b < 256) (MD5.le_bytes n x).
Proof.
  revert x. induction n as [|n IH]; intros x; simpl; constructor; [|apply IH].
  by apply N.mod_lt.
Qed.

Lemma digest_bytes msg :
  length (MD5.digest msg) = 16%nat ∧ Forall (fun b => b < 256) (MD5.digest msg).
Proof.
  unfold MD5.digest.
  destruct (MD5.blocks _ _ _) as [[[a b] c] d].
  split.
  - rewrite !length_app, !le_bytes_length. reflexivity.
  - repeat (apply Forall_app; split); apply le_bytes_small.
Qed.

Lemma hex_digit_char x : x < 16 → hex_char (MD5.hex_digit x).
Proof.
  intros H. unfold MD5.hex_digit, hex_char.
  destruct (N.ltb_spec x 10); lia.
Qed.

Lemma hex_pairs_form l :
  Forall (fun b => b < 256) l →
  let digits := flat_map (fun b => [MD5.hex_digit (b / 16); MD5.hex_digit (b mod 16)]) l in
  length digits = (2 * length l)%nat ∧ Forall hex_char digits.
Proof.
  induction 1 as [|b l Hb _ [IH1 IH2]]; simpl in *; [done|].
  split; [rewrite IH1; lia|].
  constructor; [|constructor; [|done]]; apply hex_digit_char.
  - apply N.Div0.div_lt_upper_bound. lia.
  - by apply N.mod_lt.
Qed.

Lemma hexdigest_form msg :
  length (MD5.hexdigest msg) = 32%nat ∧ Forall hex_char (MD5.hexdigest msg).
Proof.
  destruct (digest_bytes msg) as [Hl Hb].
  destruct (hex_pairs_form _ Hb) as [H1 H2]. rewrite Hl in H1. done.
Qed.

Lemma hex_char_nonspace c : hex_char c → isspace c = false.
Proof.
  intros H. destruct (isspace c) eqn:E; [|done].
  apply isspace_spec in E. unfold hex_char in H. lia.
Qed.

Lemma article_id_form a i :
  _generate_article_id a = Ok i → length i = 32%nat ∧ Forall hex_char i.
Proof.
  unfold _generate_article_id. destruct (encode (article_content a)); [|done].
  intros [= <-]. apply hexdigest_form.
Qed.

Lemma article_id_token a i : _generate_article_id a = Ok i → token i.
Proof.
  intros [Hl Hh]%article_id_form. split.
  - intros ->. done.
  - eapply Forall_impl; [exact Hh|]. apply hex_char_nonspace.
Qed.

(** X3. The fingerprint exists exactly when title and description can be
    encoded as UTF-8 (no surrogate, no code point out of range); when they
    cannot, [_generate_article_id] raises [UnicodeEncodeError].  A
    fingerprint is 32 lower-case hexadecimal digits, hence free of white
    space. *)
Theorem fingerprint_form (a : article) :
  (Forall encodable (article_content a) ↔ ∃ i, _generate_article_id a = Ok i) ∧
  (¬ Forall encodable (article_content a) →
     _generate_article_id a = Raise UnicodeEncodeError) ∧
  (∀ i, _generate_article_id a = Ok i →
     length i = 32%nat ∧ Forall hex_char i ∧ Forall (fun c => isspace c = false) i).
Proof.
  assert (¬ Forall encodable (article_content a) →
          _generate_article_id a = Raise UnicodeEncodeError) as Hraise.
  { intros H. unfold _generate_article_id. by rewrite encode_raises. }
  split; [|split; [done|]].
  - split.
    + intros [bytes H]%encode_ok. unfold _generate_article_id. rewrite H. eauto.
    + intros [i Hi]. unfold _generate_article_id in Hi.
      destruct (encode (article_content a)) as [bytes|] eqn:E; [|done].
      by eapply encode_ok_inv.
  - intros i Hi. destruct (article_id_form _ _ Hi) as [Hl Hh].
    split; [done|]. split; [done|]. by destruct (article_id_token _ _ Hi).
Qed.

(** ** What the state file gives back *)

Lemma universal_newlines_no_cr s : Forall (fun c => c ≠ 13) (universal_newlines s).
Proof.
  remember (length s) as n eqn:Hn. revert s Hn.
  induction n as [n IH] using lt_wf_ind. intros s Hn.
  destruct s as [|c s]; [constructor|]. simpl.
  destruct (N.eqb_spec c 13) as [->|Hc].
  - destruct s as [|d s]; [by repeat constructor|].
    destruct (d =? 10); (constructor; [done|]);
      (eapply IH; [|reflexivity]); simpl in *; lia.
  - constructor; [done|]. eapply IH; [|reflexivity]. simpl in *; lia.
Qed.

Lemma lines_from_Forall (P : N → Prop) cur s :
  Forall P cur → Forall P s → Forall (Forall P) (lines_from cur s).
Proof.
  intros Hcur Hs. revert cur Hcur.
  induction Hs as [|c s Hc _ IH]; intros cur Hcur; simpl.
  - destruct cur; [constructor|]. constructor; [done|constructor].
  - assert (Forall P (cur ++ [c])) by (apply Forall_app; split; [done|by constructor]).
    destruct (c =? newline); [constructor; [done|]|]; by apply IH.
Qed.

Lemma lines_from_shape cur s :
  Forall (fun c => c ≠ newline) cur →
  Forall (fun line => ∃ body, Forall (fun c => c ≠ newline) body ∧
                        (line = body ∨ line = body ++ [newline]))
         (lines_from cur s).
Proof.
  revert cur. induction s as [|c s IH]; intros cur Hcur; simpl.
  - destruct cur as [|d cur]; [constructor|].
    constructor; [|constructor]. exists (d :: cur). split; [done|by left].
  - destruct (N.eqb_spec c newline) as [->|Hc].
    + constructor; [|by apply IH]. exists cur. split; [done|by right].
    + apply IH. apply Forall_app. split; [done|by constructor].
Qed.

Lemma lstrip_snoc_space s c :
  isspace c = true →
  lstrip (s ++ [c]) = match lstrip s with [] => [] | _ => lstrip s ++ [c] end.
Proof.
  intros Hc. induction s as [|d s IH]; simpl.
  - by rewrite Hc.
  - by destruct (isspace d).
Qed.

Lemma rstrip_snoc_space s c : isspace c = true → rstrip (s ++ [c]) = rstrip s.
Proof. intros Hc. unfold rstrip. rewrite rev_app_distr. simpl. by rewrite Hc. Qed.

Lemma strip_snoc_space s c : isspace c = true → strip (s ++ [c]) = strip s.
Proof.
  intros Hc. unfold strip. rewrite lstrip_snoc_space by done.
  destruct (lstrip s) as [|d l] eqn:E; [done|]. by rewrite rstrip_snoc_space.
Qed.

Lemma elem_of_load_set t content :
  t ∈ load_set content ↔
  ∃ line, line ∈ file_lines content ∧ strip line ≠ [] ∧ t = strip line.
Proof.
  unfold load_set. rewrite elem_of_list_to_set, list_elem_of_fmap. split.
  - intros (line & -> & [Hn Hl]%list_elem_of_filter). exists line.
    split; [done|]. split; [|done]. by destruct (strip line).
  - intros (line & Hl & Hn & ->). exists line. split; [done|].
    apply list_elem_of_filter. split; [|done]. by destruct (strip line).
Qed.

Lemma loaded_token_stable content t : t ∈ load_set content → stable_token t.
Proof.
  intros (line & Hl & Hn & ->)%elem_of_load_set. unfold file_lines in Hl.
  split; [done|]. split; [apply strip_idemp|].
  assert (Forall (fun c => c ≠ 13) line) as Hcr.
  { revert Hl. apply Forall_forall, lines_from_Forall; [constructor|].
    apply universal_newlines_no_cr. }
  assert (Forall (fun c => c ≠ newline) (strip line)) as Hnl.
  { assert (Forall (fun c => c ≠ newline) []) as H0 by constructor.
    pose proof (lines_from_shape [] (universal_newlines content) H0) as Hs.
    rewrite Forall_forall in Hs. destruct (Hs _ Hl) as (body & Hb & [->| ->]).
    - by apply strip_Forall.
    - rewrite strip_snoc_space by done. by apply strip_Forall. }
  apply strip_Forall with (P := fun c => c ≠ 13) in Hcr.
  rewrite Forall_forall in *. intros c Hc. split; auto.
Qed.

Lemma token_stable t : token t → stable_token t.
Proof.
  intros Ht. split; [apply Ht|]. split; [by apply strip_token|].
  destruct Ht as [_ Ht]. eapply Forall_impl; [exact Ht|].
  intros c Hc. split; [by apply nonspace_not_nl | by apply nonspace_not_cr].
Qed.

Lemma stable_head t :
  stable_token t → ∃ c t', t = c :: t' ∧ isspace c = false.
Proof.
  intros (Hne & Hs & _). destruct (strip_spec t) as (_ & _ & _ & _ & _ & Hh & _).
  destruct t as [|c t']; [done|]. exists c, t'. split; [done|].
  apply (Hh c t'). by rewrite Hs.
Qed.

Lemma stable_last t :
  stable_token t → ∃ t' c, t = t' ++ [c] ∧ isspace c = false.
Proof.
  intros (Hne & Hs & _). destruct (strip_spec t) as (_ & _ & _ & _ & _ & _ & Hl).
  destruct t as [|c t' _] using rev_ind; [done|]. exists t', c. split; [done|].
  apply (Hl c t'). by rewrite Hs.
Qed.

Lemma strip_stable_nl t : stable_token t → strip (t ++ [newline]) = t.
Proof. intros Ht. rewrite strip_snoc_space by done. apply Ht. Qed.

Lemma join_stable_no_cr order :
  Forall stable_token order → Forall (fun c => c ≠ 13) (join [newline] order).
Proof.
  induction 1 as [|t ts (_ & _ & Ht) _ IH]; [constructor|].
  assert (Forall (fun c => c ≠ 13) t) as Ht'.
  { eapply Forall_impl; [exact Ht|]. by intros c [_ ?]. }
  simpl. destruct ts as [|t' ts]; [done|].
  apply Forall_app. split; [done|]. by constructor.
Qed.

Lemma lines_from_join_stable order :
  Forall stable_token order → lines_from [] (join [newline] order) = saved_lines order.
Proof.
  induction 1 as [|t ts (Hne & _ & Ht) Hts IH]; [done|].
  assert (Forall (fun c => c ≠ newline) t) as Ht'.
  { eapply Forall_impl; [exact Ht|]. by intros c [? _]. }
  simpl. destruct ts as [|t' ts].
  - rewrite <- (app_nil_r t) at 1. rewrite lines_from_app by done. simpl.
    by destruct t.
  - rewrite lines_from_app by done. cbn [app lines_from].
    change (newline =? newline) with true. cbn iota. by rewrite IH.
Qed.

Lemma saved_lines_strip_stable order :
  Forall stable_token order →
  strip <$> filter (fun line => nonempty (strip line)) (saved_lines order) = order.
Proof.
  induction 1 as [|t ts Ht Hts IH]; [done|].
  assert (strip t = t) as Hs by apply Ht.
  assert (nonempty t = true) as Hn by (destruct Ht as [? _]; by destruct t).
  simpl. destruct ts as [|t' ts].
  - rewrite filter_cons_True by (rewrite Hs, Hn; done).
    simpl. by rewrite Hs.
  - rewrite filter_cons_True by (rewrite strip_stable_nl, Hn; done).
    cbn [fmap list_fmap]. rewrite strip_stable_nl by done. f_equal. apply IH.
Qed.

Lemma load_save_stable order :
  Forall stable_token order → load_set (save_text order) = list_to_set order.
Proof.
  intros H. unfold load_set, save_text, file_lines.
  rewrite universal_newlines_id by (by apply join_stable_no_cr).
  rewrite lines_from_join_stable by done. by rewrite saved_lines_strip_stable.
Qed.

Lemma reload_stable (s : gset str) order :
  (∀ t, t ∈ s → stable_token t) → order ≡ₚ elements s →
  load_set (save_text order) = s.
Proof.
  intros Hs Hperm. rewrite load_save_stable.
  - rewrite Hperm. apply list_to_set_elements_L.
  - apply Forall_forall. intros t Ht. apply Hs.
    apply elem_of_elements. by rewrite <- Hperm.
Qed.

(** X4. What [load] reads from any state file, whatever its content, is a
    set of lines that are not empty, have no white space at either end and
    no line break inside; line ends written as CR LF or CR are read as LF;
    and writing the loaded set back, in any order, and loading again gives
    the same set. *)
Theorem loaded_store_is_stable (content : str) :
  (∀ t, t ∈ load_set content → stable_token t) ∧
  load_set (universal_newlines content) = load_set content ∧
  (∀ order, order ≡ₚ elements (load_set content) →
     load_set (save_text order) = load_set content).
Proof.
  split; [apply loaded_token_stable|]. split.
  - unfold load_set, file_lines.
    by rewrite (universal_newlines_id (universal_newlines content))
      by apply universal_newlines_no_cr.
  - intros order Hperm. apply reload_stable; [|done]. apply loaded_token_stable.
Qed.

(** ** Relations kept by every stretch of the run *)

Section Respects.

Context (R : bot → bot → Prop).
Hypothesis R_refl : ∀ st, R st st.
Hypothesis R_trans : ∀ st1 st2 st3, R st1 st2 → R st2 st3 → R st1 st3.

Lemma respects_ret {A} (a : A) : respects R (mret a).
Proof. intros st o st' [= <- <-]. apply R_refl. Qed.

Lemma respects_raise {A} e : respects R (@raise A e).
Proof. intros st o st' [= <- <-]. apply R_refl. Qed.

Lemma respects_lift {A} (x : outcome A) : respects R (lift x).
Proof. intros st o st' [= <- <-]. apply R_refl. Qed.

Lemma respects_get_processed : respects R get_processed.
Proof. intros st o st' [= <- <-]. apply R_refl. Qed.

Lemma respects_bind {A B} (m : M A) (f : A → M B) :
  respects R m → (∀ a, respects R (f a)) → respects R (m ≫= f).
Proof.
  intros Hm Hf st o st'. unfold mbind, M_bind.
  destruct (m st) as [[a|e] st1] eqn:E.
  - intros H. eapply R_trans; [by eapply Hm|by eapply Hf].
  - intros [= <- <-]. by eapply Hm.
Qed.

Lemma respects_try {A} (m : M A) handles h :
  respects R m → (∀ e, respects R (h e)) → respects R (try_except m handles h).
Proof.
  intros Hm Hh st o st'. unfold try_except.
  destruct (m st) as [[a|e] st1] eqn:E.
  - intros [= <- <-]. by eapply Hm.
  - destruct (handles e).
    + intros H. eapply R_trans; [by eapply Hm|by eapply Hh].
    + intros [= <- <-]. by eapply Hm.
Qed.

Lemma respects_for_each {A} (xs : list A) body :
  (∀ x, respects R (body x)) → respects R (for_each xs body).
Proof.
  intros Hb. induction xs as [|x xs IH]; simpl.
  - apply respects_ret.
  - apply respects_bind; auto.
Qed.

Lemma respects_retry_loop {A} remaining attempt wait (f : M A) :
  respects R f → (∀ s, respects R (emit (EvWait s))) →
  respects R (retry_loop remaining attempt wait f).
Proof.
  intros Hf Hw. revert attempt.
  induction remaining as [|r IH]; intros attempt; simpl.
  - apply respects_try; [done|]. intros e. apply respects_raise.
  - apply respects_try; [done|]. intros e. apply respects_bind; auto.
Qed.

End Respects.

Lemma housekeeping_refl st : housekeeping st st.
Proof. split; [done|]. exists []. split; [by rewrite app_nil_r|constructor]. Qed.

Lemma housekeeping_trans st1 st2 st3 :
  housekeeping st1 st2 → housekeeping st2 st3 → housekeeping st1 st3.
Proof.
  intros [Hs1 (e1 & Ht1 & H1)] [Hs2 (e2 & Ht2 & H2)].
  split; [congruence|]. exists (e1 ++ e2). split.
  - by rewrite Ht2, Ht1, app_assoc.
  - by apply Forall_app.
Qed.

Lemma housekeeping_emit e :
  is_housekeeping e = true → respects housekeeping (emit e).
Proof.
  intros He st o st' [= <- <-]. split; [done|]. exists [e]. split; [done|].
  by constructor.
Qed.

Lemma housekeeping_tick : respects housekeeping tick.
Proof.
  intros st o st' [= <- <-]. split; [done|]. exists []. simpl.
  split; [by rewrite app_nil_r|constructor].
Qed.

Lemma housekeeping_set_file f : respects housekeeping (set_file f).
Proof.
  intros st o st' [= <- <-]. split; [done|]. exists []. simpl.
  split; [by rewrite app_nil_r|constructor].
Qed.

Ltac housekeeping :=
  repeat lazymatch goal with
    | |- respects housekeeping (try_except _ _ _) =>
        apply (respects_try _ housekeeping_trans); [|intros ?]
    | |- respects housekeeping (mbind _ _) =>
        apply (respects_bind _ housekeeping_trans); [|intros ?]
    | |- respects housekeeping (emit _) => apply housekeeping_emit; reflexivity
    | |- respects housekeeping (log _ _) => apply housekeeping_emit; reflexivity
    | |- respects housekeeping tick => apply housekeeping_tick
    | |- respects housekeeping (set_file _) => apply housekeeping_set_file
    | |- respects housekeeping (mret _) => apply (respects_ret _ housekeeping_refl)
    | |- respects housekeeping (raise _) => apply (respects_raise _ housekeeping_refl)
    | |- respects housekeeping get_processed =>
        apply (respects_get_processed _ housekeeping_refl)
    end.

Lemma housekeeping_sleep s : respects housekeeping (sleep s).
Proof. unfold sleep. destruct (s <? 0)%Z; housekeeping. Qed.

Lemma housekeeping_save w : respects housekeeping (_save_processed_articles w).
Proof.
  unfold _save_processed_articles. housekeeping.
  destruct (file_write w _); housekeeping.
Qed.

Lemma housekeeping_fetch_attempt w category :
  respects housekeeping (fetch_attempt w category).
Proof.
  unfold fetch_attempt. housekeeping.
  destruct (newsapi w _ category) as [|status body]; housekeeping.
  destruct (raise_for_status status); housekeeping.
  destruct body as [| |[[|l]|]]; housekeeping.
Qed.

Lemma housekeeping_fetch_loop w categories acc :
  respects housekeeping (fetch_loop w categories acc).
Proof.
  revert acc. induction categories as [|c cs IH]; intros acc; cbn [fetch_loop];
    housekeeping; [|apply IH].
  unfold _fetch_news_for_category, retry.
  apply (respects_retry_loop _ housekeeping_refl housekeeping_trans).
  - apply housekeeping_fetch_attempt.
  - intros s. by apply housekeeping_emit.
Qed.

Lemma housekeeping_shutdown w : respects housekeeping (_shutdown_handler w).
Proof.
  unfold _shutdown_handler. housekeeping. apply housekeeping_save.
Qed.

(** What one call of [_process_article] does. *)
Lemma process_cases w a st :
  (∃ e, _generate_article_id a = Raise e ∧ _process_article w a st = (Raise e, st)) ∨
  ∃ i, _generate_article_id a = Ok i ∧
    (_process_article w a st = (Ok tt, st) ∨
     ((i ∉ processed_articles st) ∧
      _process_article w a st =
        (Ok tt, mk (processed_articles st) (file st) (S (calls st))
                   (trace st ++ analyze_events w (calls st) i (headline_of a)))) ∨
     ((i ∉ processed_articles st) ∧
      encodes (message_of w st a) = true ∧
      _process_article w a st =
        (Ok tt, mk ({[i]} ∪ processed_articles st) (file st) (S (S (calls st)))
                   (trace st ++ analyze_events w (calls st) i (headline_of a)
                             ++ notify_events w (S (calls st)) i (message_of w st a)))) ∨
     ((i ∉ processed_articles st) ∧
      encodes (message_of w st a) = false ∧
      _process_article w a st =
        (Raise UnicodeEncodeError,
         mk (processed_articles st) (file st) (S (calls st))
            (trace st ++ analyze_events w (calls st) i (headline_of a)
                      ++ notify_events w (S (calls st)) i (message_of w st a))))).
Proof.
  rewrite process_spec. destruct (_generate_article_id a) as [i|e]; [right|left; eauto].
  exists i. split; [done|].
  destruct (bool_decide_reflect (i ∈ processed_articles st)); [by left|].
  destruct (negb (truthy (headline_of a))); [by left|]. cbn zeta.
  destruct (accepts _); [|right; left; eauto].
  destruct (encodes (message_of w st a)) eqn:He; right; right; [left|right]; eauto.
Qed.

(** [_process_article] never touches the state file. *)
Lemma process_file w a st : file (_process_article w a st).2 = file st.
Proof.
  destruct (process_cases w a st)
    as [(e & _ & E)|(i & _ & [E|[[_ E]|[(_ & _ & E)|(_ & _ & E)]]])];
    by rewrite E.
Qed.

Lemma for_each_process_file w articles st :
  file (for_each articles (_process_article w) st).2 = file st.
Proof.
  revert st. induction articles as [|a l IH]; intros st; simpl; [done|].
  unfold mbind, M_bind. pose proof (process_file w a st) as Hf.
  destruct (_process_article w a st) as [[[]|e] st1]; simpl in Hf.
  - by rewrite IH.
  - done.
Qed.

Section Loop.

Context (w : World) (R : bot → bot → Prop).
Hypothesis R_trans : ∀ st1 st2 st3, R st1 st2 → R st2 st3 → R st1 st3.
Hypothesis R_housekeeping : ∀ st st', housekeeping st st' → R st st'.
Hypothesis R_process : ∀ a, respects R (_process_article w a).

Lemma loop_refl st : R st st.
Proof. apply R_housekeeping, housekeeping_refl. Qed.

Lemma loop_housekeeping {A} (m : M A) : respects housekeeping m → respects R m.
Proof. intros H st o st' E. eapply R_housekeeping, H, E. Qed.

Lemma loop_cycle cfg : respects R (cycle w cfg).
Proof.
  unfold cycle. apply respects_try; [done| |].
  - apply respects_bind; [done| |intros articles].
    { apply loop_housekeeping, housekeeping_fetch_loop. }
    apply respects_bind; [done| |intros _].
    { apply respects_for_each; [apply loop_refl|done|done]. }
    apply respects_bind; [done| |intros _].
    { apply loop_housekeeping, housekeeping_save. }
    apply loop_housekeeping, housekeeping_sleep.
  - intros e. apply loop_housekeeping. housekeeping. apply housekeeping_sleep.
Qed.

Lemma loop_cycles cfg n : respects R (cycles w cfg n).
Proof.
  induction n as [|n IH]; simpl.
  - apply respects_ret, loop_refl.
  - apply respects_bind; [done|apply loop_cycle|done].
Qed.

End Loop.

(** Start-up, then the loop. *)
Lemma run_started w cfg n :
  run w cfg n (init w) =
  match startup_error w with
  | Some e => (Raise e, init w)
  | None => cycles w cfg n (started w)
  end.
Proof.
  unfold run, _load_processed_articles, startup_error, started, initial_store, init.
  monad. destruct (state_file w) as [|e|content] eqn:E; monad; try done.
  by destruct e.
Qed.

(** ** The loop never ends by itself *)



Lemma sleep_spec s st :
  sleep s st =
  if (s <? 0)%Z then (Raise ValueError, st)
  else (Ok tt, mk (processed_articles st) (file st) (calls st) (trace st ++ [EvSleep s])).
Proof. unfold sleep. by destruct (s <? 0)%Z. Qed.




(** ** An article that cannot be fingerprinted *)

Lemma for_each_app {A} (xs ys : list A) body st :
  for_each (xs ++ ys) body st =
  match for_each xs body st with
  | (Ok _, st1) => for_each ys body st1
  | (Raise e, st1) => (Raise e, st1)
  end.
Proof.
  revert st. induction xs as [|x xs IH]; intros st; simpl; [done|].
  unfold mbind, M_bind. destruct (body x st) as [[[]|e] st1]; [apply IH|done].
Qed.

(** X6. One article whose processing raises stops the whole batch: when
    the articles before it are processed without an exception and it raises
    (an article whose title and description cannot be encoded raises on its
    fingerprint, before anything is done for it), the exception is caught by
    the loop, the articles after it are not looked at, the store is not
    saved in this cycle, and the loop logs a critical error and pauses 60
    seconds. *)
Theorem raising_article_aborts_cycle (w : World) (cfg : config) (st st0 st1 st2 : bot)
    (before after : list article) (bad : article) (e : exn) :
  _fetch_news w cfg st = (Ok (before ++ bad :: after), st0) →
  for_each before (_process_article w) st0 = (Ok tt, st1) →
  _process_article w bad st1 = (Raise e, st2) →
  cycle w cfg st =
    (Ok tt, mk (processed_articles st2) (file st) (calls st2)
               (trace st2 ++ [EvLog ERROR "Critical error in main loop"; EvSleep 60])) ∧
  (∀ e', _generate_article_id bad = Raise e' → e = e' ∧ st2 = st1).
Proof.
  intros Hfetch E1 E2.
  assert (file st0 = file st) as Hf0.
  { unfold _fetch_news in Hfetch.
    destruct (fetch_loop_spec w (news_categories cfg) [] st) as (st0' & E & (_ & Hf & _) & _).
    rewrite Hfetch in E. by injection E as _ <-. }
  assert (file st1 = file st0) as Hf1.
  { pose proof (for_each_process_file w before st0) as H. by rewrite E1 in H. }
  assert (file st2 = file st1) as Hf2.
  { pose proof (process_file w bad st1) as H. by rewrite E2 in H. }
  split.
  - unfold cycle, try_except. unfold mbind at 1, M_bind at 1. rewrite Hfetch.
    unfold mbind at 1, M_bind at 1. rewrite for_each_app, E1. cbn [for_each].
    unfold mbind at 1, M_bind at 1. rewrite E2. monad.
    by rewrite Hf2, Hf1, Hf0, <- app_assoc.
  - intros e' He'. rewrite process_spec, He' in E2. by injection E2 as <- <-.
Qed.

(** ** Where the store comes from *)

Lemma enters_trans st1 st2 st3 :
  enters_by_notification st1 st2 → enters_by_notification st2 st3 →
  enters_by_notification st1 st3.
Proof.
  intros [Ht1 H1] [Ht2 H2]. split; [auto|].
  intros i Hi. destruct (H2 i Hi) as [Hi2|?]; [|by right].
  destruct (H1 i Hi2) as [?|(message & Hm & He)]; [by left|]. right. eauto.
Qed.

Lemma enters_housekeeping st st' :
  housekeeping st st' → enters_by_notification st st'.
Proof.
  intros [Hs (evs & Ht & _)]. split.
  - intros e He. rewrite Ht. apply elem_of_app. by left.
  - intros i Hi. left. by rewrite <- Hs.
Qed.

Lemma enters_process w a : respects enters_by_notification (_process_article w a).
Proof.
  intros st o st' E.
  destruct (process_cases w a st)
    as [(e & _ & E')|(i & Hi & [E'|[[_ E']|[(_ & He & E')|(_ & He & E')]]])];
    rewrite E' in E; injection E as <- <-.
  - apply enters_housekeeping, housekeeping_refl.
  - apply enters_housekeeping, housekeeping_refl.
  - split; unfold mk; cbn [trace processed_articles].
    + intros e He. apply elem_of_app. by left.
    + intros i' Hi'. by left.
  - split; unfold mk; cbn [trace processed_articles].
    + intros e He'. apply elem_of_app. by left.
    + intros i' [->%elem_of_singleton|Hi']%elem_of_union; [|by left].
      right. exists (message_of w st a). split; [|done].
      rewrite (elem_of_app (trace st)). right.
      do 2 apply list_elem_of_further. rewrite elem_of_app. right.
      apply list_elem_of_here.
  - split; unfold mk; cbn [trace processed_articles].
    + intros e He'. apply elem_of_app. by left.
    + intros i' Hi'. by left.
Qed.

Lemma sent_counted i message tr :
  EvNotify i message ∈ tr → encodes message = true →
  (1 ≤ count_events (is_sent i) tr)%nat.
Proof.
  intros (l1 & l2 & ->)%list_elem_of_split He.
  rewrite count_events_app, count_events_cons. cbn.
  rewrite bool_decide_eq_true_2, He by done. simpl. lia.
Qed.

(** X7. The store holds what start-up loaded and what was sent, and nothing
    else: after any number of cycles a fingerprint is a member of the store
    exactly when it was read from the state file at start-up or the run
    called the notifier for it with a message that can be encoded, which it
    does at most once. *)
Theorem store_is_loaded_or_notified (w : World) (cfg : config) (n : nat) (i : str) :
  i ∈ processed_articles (run w cfg n (init w)).2 ↔
  i ∈ initial_store w ∨
  count_events (is_sent i) (trace (run w cfg n (init w)).2) = 1%nat.
Proof.
  pose proof (run_notified_once w cfg n i) as (Hle & Hin & _).
  revert Hle Hin. rewrite run_started.
  destruct (startup_error w) as [e|] eqn:Es.
  { cbn. intros _ _. unfold startup_error, initial_store in *.
    destruct (state_file w); try done.
    split; [by intros ?%elem_of_empty|]. by intros [?%elem_of_empty|?]. }
  destruct (cycles w cfg n (started w)) as [o st] eqn:E. cbn [snd].
  intros Hle Hin. split.
  - intros Hi.
    apply (loop_cycles w _ enters_trans enters_housekeeping (enters_process w)) in E
      as [_ H].
    destruct (H i Hi) as [?|(message & Hm & He)]; [by left|].
    right. pose proof (sent_counted _ _ _ Hm He). lia.
  - intros [Hi|Hc]; [|by apply Hin].
    apply preserves_cycles in E as [Hsub _]. by apply Hsub.
Qed.

(** ** The books of the pipeline *)

Lemma count_events_nil p : count_events p [] = 0%nat.
Proof. done. Qed.

Ltac count_events :=
  unfold balanced; repeat rewrite count_events_cons; rewrite ?count_events_nil; cbn; lia.

Lemma balanced_nil : balanced [].
Proof. count_events. Qed.

Lemma balanced_app l1 l2 : balanced l1 → balanced l2 → balanced (l1 ++ l2).
Proof.
  unfold balanced. rewrite !count_events_app. lia.
Qed.

Lemma balanced_housekeeping evs :
  Forall (fun e => is_housekeeping e = true) evs → balanced evs.
Proof.
  intros H.
  assert (∀ p, (∀ e, is_housekeeping e = true → p e = false) →
               count_events p evs = 0%nat) as Hz.
  { intros p Hp. apply count_events_quiet. eapply Forall_impl; [exact H|exact Hp]. }
  unfold balanced. rewrite !Hz by (by intros []). lia.
Qed.

Lemma balanced_analyze w n i h : balanced (analyze_events w n i h).
Proof.
  unfold analyze_events. destruct (analysis_of w n h); count_events.
Qed.

Lemma balanced_accept w n i h message :
  balanced (analyze_events w n i h ++ notify_events w (S n) i message).
Proof.
  unfold analyze_events, notify_events, balanced.
  destruct (analysis_of w n h); destruct (encodes message) eqn:He;
    try destruct (delivered w (S n) message);
    cbn [app]; repeat rewrite count_events_cons; rewrite ?count_events_nil;
    cbn; rewrite ?He; lia.
Qed.

Lemma balanced_stretch_trans st1 st2 st3 :
  balanced_stretch st1 st2 → balanced_stretch st2 st3 → balanced_stretch st1 st3.
Proof.
  intros (e1 & T1 & H1) (e2 & T2 & H2). exists (e1 ++ e2). split.
  - by rewrite T2, T1, app_assoc.
  - by apply balanced_app.
Qed.

Lemma balanced_stretch_housekeeping st st' :
  housekeeping st st' → balanced_stretch st st'.
Proof.
  intros [_ (evs & Ht & H)]. exists evs. split; [done|]. by apply balanced_housekeeping.
Qed.

Lemma balanced_process w a : respects balanced_stretch (_process_article w a).
Proof.
  intros st o st' E.
  destruct (process_cases w a st)
    as [(e & _ & E')|(i & Hi & [E'|[[_ E']|[(_ & _ & E')|(_ & _ & E')]]])];
    rewrite E' in E; injection E as <- <-.
  - apply balanced_stretch_housekeeping, housekeeping_refl.
  - apply balanced_stretch_housekeeping, housekeeping_refl.
  - eexists. split; [reflexivity|]. apply balanced_analyze.
  - eexists. split; [reflexivity|]. apply balanced_accept.
  - eexists. split; [reflexivity|]. apply balanced_accept.
Qed.

(** X8. The books of a run balance: over the whole trace of any number of
    cycles there is exactly one analyzer request for each analysis, and
    exactly one Telegram request and one mark for each call of the notifier
    whose message can be encoded (neither the analyzer nor Telegram is tried
    twice, Telegram is contacted for nothing else, and a notification that
    was sent is marked whether or not it was delivered); a call of the
    notifier whose message cannot be encoded has neither request nor mark;
    and there are no more calls of the notifier than analyses. *)
Theorem run_books_balance (w : World) (cfg : config) (n : nat) :
  balanced (trace (run w cfg n (init w)).2).
Proof.
  rewrite run_started. destruct (startup_error w); [apply balanced_nil|].
  destruct (cycles w cfg n (started w)) as [o st] eqn:E. cbn [snd].
  apply (loop_cycles w _ balanced_stretch_trans balanced_stretch_housekeeping
           (balanced_process w)) in E as (evs & -> & H).
  apply balanced_app; [|done]. apply balanced_housekeeping.
  unfold started. cbn. repeat constructor. by destruct (state_file w).
Qed.

(** ** Shutdown and restart *)

Lemma save_spec w st :
  _save_processed_articles w st =
  (Ok tt,
   mk (processed_articles st)
      (file_after (file_write w (calls st)) (file st)
         (save_text (set_iter w (processed_articles st))))
      (S (calls st))
      (trace st ++ save_events (file_write w (calls st)))).
Proof.
  unfold _save_processed_articles, file_after, save_events. monad.
  destruct (file_write w (calls st)); monad; by rewrite <- ?app_assoc.
Qed.

Lemma save_error_logged r :
  EvLog ERROR "Failed to save processed articles" ∈ save_events r ↔ r ≠ Written.
Proof.
  unfold save_events. destruct r as [|e|e remains|e remains]; split; try done.
  - intros [H|H]%elem_of_cons; [done|].
    apply list_elem_of_singleton in H. discriminate.
  - intros _. apply list_elem_of_further, list_elem_of_here.
  - intros _. apply list_elem_of_further, list_elem_of_here.
  - intros _. do 2 apply list_elem_of_further. apply list_elem_of_here.
Qed.

Lemma load_text st content :
  file st = FileText content →
  processed_articles (_load_processed_articles st).2 = load_set content.
Proof. intros H. unfold _load_processed_articles. monad. rewrite H. by monad. Qed.

Lemma shutdown_spec w st :
  _shutdown_handler w st =
  (Ok 0%Z,
   mk (processed_articles st)
      (file_after (file_write w (calls st)) (file st)
         (save_text (set_iter w (processed_articles st))))
      (S (calls st))
      (trace st ++ [EvLog INFO "Shutdown signal received. Saving state..."]
                ++ save_events (file_write w (calls st))
                ++ [EvLog INFO "Clean shutdown complete."])).
Proof.
  unfold _shutdown_handler. unfold mbind at 1, M_bind at 1. unfold log at 1, emit at 1.
  unfold mbind at 1, M_bind at 1. rewrite save_spec. monad.
  by rewrite <- !app_assoc.
Qed.

(** X9. The shutdown handler reports a clean shutdown whatever the disk
    does: it always ends with exit status 0 after exactly one attempt to
    write the store, which it leaves unchanged in memory, and its last log
    line is "Clean shutdown complete.", also when the attempt failed (an
    error line is logged exactly then).  The state file afterwards holds the
    store, one entry a line, when the write succeeded; its old content when
    the file could not be opened; and whatever part of the text reached the
    disk when the write failed later, inside [f.write] or, with the debug
    line already logged, when the file was closed.  After a write that
    succeeded, [load] reads the store back from the file, provided the
    members of the store are lines that [load] gives back unchanged. *)
Theorem shutdown_handler_exits_cleanly (w : World) (st : bot) :
  ∃ st',
    _shutdown_handler w st = (Ok 0%Z, st') ∧
    processed_articles st' = processed_articles st ∧
    calls st' = S (calls st) ∧
    trace st' =
      trace st ++ [EvLog INFO "Shutdown signal received. Saving state..."]
               ++ save_events (file_write w (calls st))
               ++ [EvLog INFO "Clean shutdown complete."] ∧
    count_events is_write (save_events (file_write w (calls st))) = 1%nat ∧
    (EvLog ERROR "Failed to save processed articles" ∈ save_events (file_write w (calls st))
       ↔ file_write w (calls st) ≠ Written) ∧
    (EvLog DEBUG "Saved processed articles." ∈ save_events (file_write w (calls st))
       ↔ file_write w (calls st) = Written ∨
         ∃ e remains, file_write w (calls st) = CloseFailed e remains) ∧
    file st' =
      file_after (file_write w (calls st)) (file st)
        (save_text (set_iter w (processed_articles st))) ∧
    (file_write w (calls st) = Written →
     (∀ t, t ∈ processed_articles st → stable_token t) →
     ∀ st1, file st1 = file st' →
       processed_articles (_load_processed_articles st1).2 = processed_articles st).
Proof.
  eexists. split; [apply shutdown_spec|]. cbn [processed_articles calls trace file mk].
  split; [done|]. split; [done|]. split; [done|]. split.
  { unfold save_events. destruct (file_write w (calls st));
      repeat rewrite count_events_cons; rewrite ?count_events_nil; reflexivity. }
  split; [apply save_error_logged|]. split.
  { unfold save_events. destruct (file_write w (calls st)) as [|e|e remains|e remains].
    - split; [by left|]. intros _. apply list_elem_of_further, list_elem_of_here.
    - split.
      + intros [H|H]%elem_of_cons; [done|].
        apply list_elem_of_singleton in H. discriminate.
      + intros [?|(? & ? & ?)]; done.
    - split.
      + intros [H|H]%elem_of_cons; [done|].
        apply list_elem_of_singleton in H. discriminate.
      + intros [?|(? & ? & ?)]; done.
    - split; [eauto|]. intros _. apply list_elem_of_further, list_elem_of_here. }
  split; [done|].
  intros Hw Hst st1 H1. rewrite Hw in H1. cbn [file_after] in H1.
  rewrite (load_text st1 _ H1). apply reload_stable; [done|apply set_iter_perm].
Qed.

Lemma keeps_stable_trans st1 st2 st3 :
  keeps_stable st1 st2 → keeps_stable st2 st3 → keeps_stable st1 st3.
Proof. unfold keeps_stable. auto. Qed.

Lemma keeps_stable_housekeeping st st' : housekeeping st st' → keeps_stable st st'.
Proof. intros [Hs _] H. by rewrite Hs. Qed.

Lemma keeps_stable_process w a : respects keeps_stable (_process_article w a).
Proof.
  intros st o st' E.
  destruct (process_cases w a st)
    as [(e & _ & E')|(i & Hi & [E'|[[_ E']|[(_ & _ & E')|(_ & _ & E')]]])];
    rewrite E' in E; injection E as <- <-; intros H t;
    unfold mk; cbn [processed_articles]; try (by apply H).
  intros [->%elem_of_singleton|Ht]%elem_of_union; [|by apply H].
  by eapply token_stable, article_id_token.
Qed.

Lemma run_store_stable w cfg n t :
  t ∈ processed_articles (run w cfg n (init w)).2 → stable_token t.
Proof.
  rewrite run_started. destruct (startup_error w); [by intros ?%elem_of_empty|].
  destruct (cycles w cfg n (started w)) as [o st] eqn:E. cbn [snd].
  apply (loop_cycles w _ keeps_stable_trans keeps_stable_housekeeping
           (keeps_stable_process w)) in E.
  revert t. apply E. intros t. unfold started, initial_store. cbn.
  destruct (state_file w); try (by intros ?%elem_of_empty). apply loaded_token_stable.
Qed.

(** X10. A restart recovers the store: after any number of cycles of a run
    started on any state file, if the bot is shut down between two cycles
    and the write of the handler succeeds, the state file holds a text from
    which [load] reads back exactly the store in memory, whatever the order
    in which the set was written. *)
Theorem restart_recovers_store (w : World) (cfg : config) (n : nat) :
  file_write w (calls (run w cfg n (init w)).2) = Written →
  ∃ st' content,
    _shutdown_handler w (run w cfg n (init w)).2 = (Ok 0%Z, st') ∧
    file st' = FileText content ∧
    load_set content = processed_articles (run w cfg n (init w)).2 ∧
    ∀ st1, file st1 = file st' →
      processed_articles (_load_processed_articles st1).2 =
      processed_articles (run w cfg n (init w)).2.
Proof.
  intros Hw. pose proof (run_store_stable w cfg n) as Hst.
  set (st := (run w cfg n (init w)).2) in *.
  assert (load_set (save_text (set_iter w (processed_articles st))) = processed_articles st)
    as Hl by (apply reload_stable; [exact Hst|apply set_iter_perm]).
  eexists _, (save_text (set_iter w (processed_articles st))).
  split; [apply shutdown_spec|]. cbn [file mk]. rewrite Hw. cbn [file_after].
  split; [done|]. split; [done|].
  intros st1 H1. by rewrite (load_text st1 _ H1).
Qed.

(** ** What the Ticker and Sector patterns find *)

Lemma re_search_finds r ic pre s :
  is_Some (re_match_at ic r s) → is_Some (re_search r (pre ++ s) ic).
Proof.
  intros [m Hm]. induction pre as [|c pre IH]; simpl.
  - destruct s; simpl; rewrite Hm; eauto.
  - destruct (re_match_at ic r (c :: pre ++ s)); eauto.
Qed.

Lemma ticker_match_at lab ws c rest :
  ci_equal (u "Ticker:") lab →
  Forall (fun d => isspace d = true) ws →
  ticker_char c →
  is_Some (re_match_at IGNORECASE pat_Ticker (lab ++ ws ++ c :: rest)).
Proof.
  intros Hlab Hws Hc. unfold re_match_at, pat_Ticker, lit, spaces. cbn [exec].
  rewrite (lit_exec_complete _ _ _ _ Hlab).
  match goal with |- is_Some ?x => destruct x eqn:E; [eauto|] end.
  apply rep_exec_complete in E; [|done|simpl; lia|done].
  apply (rep_exec_complete _ _ _ _ _ [c] rest) in E; [done| |simpl; lia|].
  - constructor; [|constructor]. by apply ticker_char_spec.
  - intros h [= <-]. simpl. lia.
Qed.

Lemma ticker_match_value content m :
  re_search pat_Ticker content IGNORECASE = Some m →
  ∃ pre lab ws c v rest,
    content = pre ++ lab ++ ws ++ (c :: v) ++ rest ∧
    group1 m = Some (c :: v) ∧
    ci_equal (u "Ticker:") lab ∧
    Forall (fun d => isspace d = true) ws ∧
    Forall ticker_char (c :: v) ∧ (length (c :: v) ≤ 5)%nat.
Proof.
  intros E. destruct (re_search_sound _ _ _ _ E) as (pre & p & rest & Hs & Hm).
  apply matches_labelled in Hm as (lab & ws & v & g' & Hp & Hg & Hlab & Hws & Hv).
  inversion Hv as [|? ? ? ? ? ? ? Hc Hlo Hhi| | | | | |]; subst.
  destruct v as [|c v]; [simpl in *; lia|].
  exists pre, lab, ws, c, v, rest. rewrite <- !app_assoc.
  split; [done|]. split; [done|]. split; [done|]. split; [done|]. split.
  - eapply Forall_impl; [eassumption|]. intros d Hd. by apply ticker_char_spec.
  - eauto.
Qed.

Lemma ticker_search_iff content :
  is_Some (re_search pat_Ticker content IGNORECASE) ↔ mentions_ticker content.
Proof.
  split.
  - intros [m (pre & lab & ws & c & v & rest & -> & _ & Hlab & Hws & Hc & _)%ticker_match_value].
    exists pre, lab, ws, c, (v ++ rest). split; [done|]. split; [done|]. split; [done|].
    by inversion Hc.
  - intros (pre & lab & ws & c & rest & -> & Hlab & Hws & Hc).
    by apply re_search_finds, ticker_match_at.
Qed.

Lemma ticker_text_not_sentinel v : Forall ticker_char v → strip v ≠ NA.
Proof.
  intros Hv. rewrite strip_nonspace.
  - intros ->. change NA with [78; 47; 65] in Hv.
    apply Forall_inv_tail, Forall_inv in Hv. unfold ticker_char in Hv. lia.
  - eapply Forall_impl; [exact Hv|]. apply ticker_char_nonspace.
Qed.

Lemma extracted_Ticker_sentinel content :
  extracted pat_Ticker content = NA ↔ re_search pat_Ticker content IGNORECASE = None.
Proof.
  unfold extracted.
  destruct (re_search pat_Ticker content IGNORECASE) as [m|] eqn:E; [|done].
  destruct (ticker_match_value _ _ E) as (_ & _ & _ & c & v & _ & _ & Hg & _ & _ & Hv & _).
  destruct m as [g]. simpl in Hg. subst g. split; [|done].
  intros H. by apply ticker_text_not_sentinel in H.
Qed.

(** X11. The filter looks for a mention, not for a value: the parsed Ticker
    differs from the sentinel, and the analysis passes the test of
    [_process_article], exactly when the completion holds somewhere the label
    [Ticker:] in any letter case, optional white space and then a letter.  A
    matched value is made of letters and so is never the text [N/A] itself:
    a completion that answers [Ticker: N/A] is accepted. *)
Theorem filter_accepts_any_mention (content : str) :
  ∃ d, _parse_analysis content = Ok d ∧
    (d !! "Ticker"%string ≠ Some NA ↔ mentions_ticker content) ∧
    (accepts (Some d) = true ↔ mentions_ticker content) ∧
    (∀ pre rest, content = pre ++ u "Ticker: N/A" ++ rest → accepts (Some d) = true).
Proof.
  eexists. split; [apply parse_analysis_eq|].
  assert (extracted pat_Ticker content ≠ NA ↔ mentions_ticker content) as Hiff.
  { rewrite extracted_Ticker_sentinel, <- ticker_search_iff.
    destruct (re_search pat_Ticker content IGNORECASE) as [m|].
    - split; [intros _; eauto|done].
    - split; [done|by intros [? ?]]. }
  match goal with |- (?d !! _ ≠ _ ↔ _) ∧ _ =>
    assert (accepts (Some d) = true ↔ mentions_ticker content) as Hacc end.
  { unfold accepts. rewrite andb_true_iff, !negb_true_iff, !bool_decide_eq_false.
    rewrite lookup_insert_ne by done. rewrite lookup_insert_eq. rewrite <- Hiff.
    split; [intros [_ H]; congruence|].
    intros H. split; [apply insert_non_empty|congruence]. }
  split; [|split; [done|]].
  - rewrite lookup_insert_ne by done. rewrite lookup_insert_eq.
    rewrite <- Hiff. split; congruence.
  - intros pre rest ->. apply Hacc.
    exists pre, (u "Ticker:"), (u " "), 78, (u "/A" ++ rest).
    split; [done|]. split; [by repeat constructor|]. split; [by repeat constructor|].
    unfold ticker_char. lia.
Qed.

Lemma sector_match_at lab ws body tail :
  ci_equal (u "Sector:") lab →
  Forall (fun d => isspace d = true) ws →
  body ≠ [] → Forall (fun d => d ≠ newline) body → at_end tail = true →
  is_Some (re_match_at IGNORECASE pat_Sector (lab ++ ws ++ body ++ tail)).
Proof.
  intros Hlab Hws Hne Hbody Hend. unfold re_match_at, pat_Sector, lit, spaces.
  cbn [exec]. rewrite (lit_exec_complete _ _ _ _ Hlab).
  match goal with |- is_Some ?x => destruct x eqn:E; [eauto|] end.
  apply rep_exec_complete in E; [|done|simpl; lia|done].
  apply rep_exec_complete in E; [by rewrite Hend in E| | |done].
  - eapply Forall_impl; [exact Hbody|]. intros d Hd. simpl.
    by apply negb_true_iff, N.eqb_neq.
  - destruct body; [done|simpl; lia].
Qed.

Lemma sector_match_value content m :
  re_search pat_Sector content IGNORECASE = Some m →
  ∃ pre lab ws body tail,
    content = pre ++ lab ++ ws ++ body ++ tail ∧
    group1 m = Some body ∧
    ci_equal (u "Sector:") lab ∧
    Forall (fun d => isspace d = true) ws ∧
    body ≠ [] ∧ Forall (fun d => d ≠ newline) body ∧ at_end tail = true.
Proof.
  intros E. destruct (re_search_sound _ _ _ _ E) as (pre & p & rest & Hs & Hm).
  assert (at_end rest = true) as Hend.
  { inversion Hm as [| |? ? ? ? ? ? ? ? H1 H2| | | | |]; subst.
    inversion H2 as [| | | | | |? ? ? ? ? ? H3 H4|]; subst.
    inversion H3; subst. done. }
  apply matches_labelled_look in Hm as (lab & ws & v & g' & Hp & Hg & Hlab & Hws & Hv);
    [|done|apply end_group_free].
  inversion Hv as [|? ? ? ? ? ? ? Hc Hlo Hhi| | | | | |]; subst.
  exists pre, lab, ws, v, rest. rewrite <- !app_assoc.
  split; [done|]. split; [done|]. split; [done|]. split; [done|]. split.
  - destruct v; [simpl in *; lia|done].
  - split; [by eapply any_char_no_newline|done].
Qed.

(** X12. The Sector is read from the end of the text only: the Sector
    pattern matches exactly when the text ends with a Sector line (the
    label, then at least one character, then no line break up to the end of
    the text or its final newline).  When it does, the parsed Sector is the
    stripped text from a Sector label to that end; when it does not, as when
    any further line follows the Sector line, the parsed Sector is the
    sentinel. *)
Theorem sector_is_read_from_the_end (content : str) :
  (is_Some (re_search pat_Sector content IGNORECASE) ↔ ends_with_sector content) ∧
  ∃ d, _parse_analysis content = Ok d ∧
    (¬ ends_with_sector content → d !! "Sector"%string = Some NA) ∧
    (ends_with_sector content →
       ∃ pre lab ws body tail,
         content = pre ++ lab ++ ws ++ body ++ tail ∧
         ci_equal (u "Sector:") lab ∧
         Forall (fun d => isspace d = true) ws ∧
         body ≠ [] ∧ Forall (fun d => d ≠ newline) body ∧ at_end tail = true ∧
         d !! "Sector"%string = Some (strip body)).
Proof.
  assert (is_Some (re_search pat_Sector content IGNORECASE) ↔ ends_with_sector content)
    as Hiff.
  { split.
    - intros [m (pre & lab & ws & body & tail & H)%sector_match_value].
      exists pre, lab, ws, body, tail. tauto.
    - intros (pre & lab & ws & body & tail & -> & Hlab & Hws & Hne & Hb & He).
      by apply re_search_finds, sector_match_at. }
  split; [done|]. eexists. split; [apply parse_analysis_eq|].
  rewrite lookup_insert_eq. unfold extracted. split.
  - intros Hn. destruct (re_search pat_Sector content IGNORECASE) as [m|] eqn:E; [|done].
    destruct Hn. apply Hiff. eauto.
  - intros [m E]%Hiff.
    destruct (sector_match_value _ _ E) as (pre & lab & ws & body & tail & H).
    exists pre, lab, ws, body, tail. rewrite E. destruct m as [g].
    destruct H as (? & Hg & ? & ? & ? & ? & ?). simpl in Hg. subst g. tauto.
Qed.

(** ** What a notification says *)



(** ** What the Recommendation, Confidence and Risk patterns find *)

Section Three.

Context (l a b c : string).
Hypothesis printable_a : Forall (fun x => 33 ≤ x ≤ 126) (u a).
Hypothesis printable_b : Forall (fun x => 33 ≤ x ≤ 126) (u b).
Hypothesis printable_c : Forall (fun x => 33 ≤ x ≤ 126) (u c).
Hypothesis not_sentinel : ¬ one_of_ci a b c NA.

Lemma three_match_at lab ws v rest :
  ci_equal (u l) lab →
  Forall (fun d => isspace d = true) ws →
  one_of_ci a b c v →
  is_Some (re_match_at IGNORECASE
             (RSeq (RSeq (lit l) spaces) (RGroup (RAlt (RAlt (lit a) (lit b)) (lit c))))
             (lab ++ ws ++ v ++ rest)).
Proof.
  intros Hlab Hws Hv. unfold re_match_at, lit, spaces. cbn [exec].
  rewrite (lit_exec_complete _ _ _ _ Hlab).
  match goal with |- is_Some ?x => destruct x eqn:E; [eauto|] end.
  apply rep_exec_complete in E; [|done|simpl; lia|done].
  destruct (lit_exec IGNORECASE (u a) (v ++ rest)) eqn:Ea; [done|].
  destruct (lit_exec IGNORECASE (u b) (v ++ rest)) eqn:Eb; [done|].
  destruct (lit_exec IGNORECASE (u c) (v ++ rest)) eqn:Ec; [done|].
  destruct Hv as [Hv|[Hv|Hv]];
    rewrite (lit_exec_complete _ _ _ _ Hv) in *; done.
Qed.

Lemma three_match_value content m :
  re_search (RSeq (RSeq (lit l) spaces) (RGroup (RAlt (RAlt (lit a) (lit b)) (lit c))))
    content IGNORECASE = Some m →
  ∃ pre lab ws v rest,
    content = pre ++ lab ++ ws ++ v ++ rest ∧
    group1 m = Some v ∧
    ci_equal (u l) lab ∧
    Forall (fun d => isspace d = true) ws ∧
    one_of_ci a b c v.
Proof.
  intros E. destruct (re_search_sound _ _ _ _ E) as (pre & p & rest & Hs & Hm).
  apply matches_labelled in Hm as (lab & ws & v & g' & Hp & Hg & Hlab & Hws & Hv).
  apply matches_three in Hv. subst.
  exists pre, lab, ws, v, rest. by rewrite <- !app_assoc.
Qed.

Lemma three_found_iff_named content :
  extracted (RSeq (RSeq (lit l) spaces) (RGroup (RAlt (RAlt (lit a) (lit b)) (lit c))))
    content ≠ NA ↔
  names_one_of l a b c content.
Proof.
  unfold extracted. split.
  - destruct (re_search _ content IGNORECASE) as [m|] eqn:E; [|done]. intros _.
    destruct (three_match_value _ _ E) as (pre & lab & ws & v & rest & H).
    exists pre, lab, ws, v, rest. tauto.
  - intros (pre & lab & ws & v & rest & -> & Hlab & Hws & Hv).
    destruct (re_search_finds _ IGNORECASE pre _ (three_match_at lab ws v rest Hlab Hws Hv))
      as [m E].
    rewrite E.
    destruct (three_match_value _ _ E) as (_ & _ & _ & v' & _ & _ & Hg & _ & _ & Hv').
    destruct m as [g]. simpl in Hg. subst g.
    rewrite strip_nonspace.
    + intros ->. by apply not_sentinel.
    + destruct Hv' as [H|[H|H]]; (eapply ci_equal_nonspace; [|exact H]); done.
Qed.

End Three.

Lemma ci_equal_length l v : ci_equal l v → length l = length v.
Proof. apply Forall2_length. Qed.

Lemma ci_equal_head c l d v : ci_equal (c :: l) (d :: v) → lit_match true c d = true.
Proof. intros H. by inversion H. Qed.

(** X14. Recommendation, Confidence and Risk are found by mention: the
    parsed value differs from the sentinel exactly when the completion holds
    somewhere the label, optional white space and one of the three words of
    the field, all in any letter case.  Nothing is asked of the character
    after the word, so a longer word that begins with one of them is taken
    for it. *)
Theorem enumerated_fields_found_iff_named (content : str) :
  ∃ d, _parse_analysis content = Ok d ∧
    (d !! "Recommendation"%string ≠ Some NA ↔
       names_one_of "Recommendation:" "Buy" "Sell" "Hold" content) ∧
    (d !! "Confidence"%string ≠ Some NA ↔
       names_one_of "Confidence:" "Low" "Medium" "High" content) ∧
    (d !! "Risk"%string ≠ Some NA ↔
       names_one_of "Risk:" "Low" "Medium" "High" content).
Proof.
  assert (∀ x y : str, Some x ≠ Some y ↔ x ≠ y) as Hsome
    by (intros x y; split; congruence).
  assert (¬ one_of_ci "Buy" "Sell" "Hold" NA) as H1.
  { intros [H|[H|H]]; [by apply ci_equal_head in H | | ];
      by apply ci_equal_length in H. }
  assert (¬ one_of_ci "Low" "Medium" "High" NA) as H2.
  { intros [H|[H|H]]; [by apply ci_equal_head in H | | ];
      by apply ci_equal_length in H. }
  eexists. split; [apply parse_analysis_eq|].
  rewrite !lookup_insert_ne by done. rewrite lookup_insert_eq.
  rewrite !lookup_insert_ne by done. rewrite lookup_insert_eq.
  rewrite !lookup_insert_ne by done. rewrite lookup_insert_eq.
  rewrite !Hsome. unfold pat_Recommendation, pat_Confidence, pat_Risk.
  split; [|split]; apply three_found_iff_named; try done;
    by apply ascii_letters_printable.
Qed.

(** ** A cycle that runs to its end *)

(** X15. A cycle in which no article raises reaches the save: when every
    fetched article is processed without an exception, the cycle ends with
    the store as it is after the last article and with the state file
    holding that store when the write succeeds, its old content when the
    file cannot be opened, and whatever part of the text reached the disk
    when the write fails after the file was opened; the pause that follows,
    even one that raises, does not change this. *)
Theorem complete_cycle_saves_store (w : World) (cfg : config) (st st0 st1 : bot)
    (articles : list article) :
  _fetch_news w cfg st = (Ok articles, st0) →
  for_each articles (_process_article w) st0 = (Ok tt, st1) →
  processed_articles (cycle w cfg st).2 = processed_articles st1 ∧
  file (cycle w cfg st).2 =
    file_after (file_write w (calls st1)) (file st)
      (save_text (set_iter w (processed_articles st1))) ∧
  ∃ tail, trace (cycle w cfg st).2 =
            trace st1 ++ save_events (file_write w (calls st1)) ++ tail.
Proof.
  intros Hfetch E1.
  assert (file st0 = file st) as Hf0.
  { unfold _fetch_news in Hfetch.
    destruct (fetch_loop_spec w (news_categories cfg) [] st) as (st0' & E & (_ & Hf & _) & _).
    rewrite Hfetch in E. by injection E as _ <-. }
  assert (file st1 = file st0) as Hf1.
  { pose proof (for_each_process_file w articles st0) as H. by rewrite E1 in H. }
  assert (∃ c tail,
            cycle w cfg st =
            (Ok tt,
             mk (processed_articles st1)
                (file_after (file_write w (calls st1)) (file st)
                   (save_text (set_iter w (processed_articles st1))))
                c (trace st1 ++ save_events (file_write w (calls st1)) ++ tail)))
    as (c & tail & ->); [|eauto].
  unfold cycle, try_except. unfold mbind at 1, M_bind at 1. rewrite Hfetch.
  unfold mbind at 1, M_bind at 1. rewrite E1.
  unfold mbind at 1, M_bind at 1. rewrite save_spec, sleep_spec.
  destruct (fetch_interval_seconds cfg <? 0)%Z; monad; rewrite Hf1, Hf0, <- ?app_assoc;
    eauto.
Qed.

(** ** What a cycle costs *)

Lemma costs_app g1 a1 w1 g2 a2 w2 l1 l2 :
  costs_at_most g1 a1 w1 l1 → costs_at_most g2 a2 w2 l2 →
  costs_at_most (g1 + g2) (a1 + a2) (w1 + w2) (l1 ++ l2).
Proof. unfold costs_at_most. rewrite !count_events_app. lia. Qed.

Lemma costs_fetch evs :
  Forall fetch_event evs → costs_at_most (count_events is_get evs) 0 0 evs.
Proof.
  intros H.
  assert (∀ p, (∀ e, fetch_event e → p e = false) → count_events p evs = 0%nat) as Hz.
  { intros p Hp. apply count_events_quiet. eapply Forall_impl; [exact H|exact Hp]. }
  unfold costs_at_most.
  rewrite (Hz is_analyzer_request), (Hz is_telegram_request), (Hz is_write)
    by (by intros []).
  lia.
Qed.

Lemma for_each_cost w articles st o st' :
  for_each articles (_process_article w) st = (o, st') →
  ∃ evs, trace st' = trace st ++ evs ∧ costs_at_most 0 (length articles) 0 evs.
Proof.
  revert st. induction articles as [|a l IH]; intros st; simpl.
  - intros [= <- <-]. exists []. split; [by rewrite app_nil_r|].
    unfold costs_at_most. rewrite !count_events_nil. lia.
  - unfold mbind, M_bind.
    assert (∃ o1 st1 ev1, _process_article w a st = (o1, st1) ∧
              trace st1 = trace st ++ ev1 ∧ costs_at_most 0 1 0 ev1)
      as (o1 & st1 & ev1 & E1 & T1 & C1).
    { assert (∀ i, costs_at_most 0 1 0
                (analyze_events w (calls st) i (headline_of a) ++
                 notify_events w (S (calls st)) i (message_of w st a))) as Hacc.
      { intros i. unfold analyze_events, notify_events, costs_at_most.
        destruct (analysis_of w (calls st) (headline_of a));
          destruct (encodes (message_of w st a));
          try destruct (delivered w (S (calls st)) (message_of w st a)); cbn [app];
          repeat rewrite count_events_cons; rewrite ?count_events_nil; cbn; lia. }
      destruct (process_cases w a st)
        as [(e & _ & E)|(i & Hi & [E|[[_ E]|[(_ & _ & E)|(_ & _ & E)]]])];
        rewrite E; eexists _, _, _; (split; [reflexivity|]).
      - split; [symmetry; apply app_nil_r|]. unfold costs_at_most.
        rewrite !count_events_nil. lia.
      - split; [symmetry; apply app_nil_r|]. unfold costs_at_most.
        rewrite !count_events_nil. lia.
      - split; [reflexivity|]. unfold analyze_events, costs_at_most.
        destruct (analysis_of w (calls st) (headline_of a));
          repeat rewrite count_events_cons; rewrite ?count_events_nil; cbn; lia.
      - split; [reflexivity|]. apply Hacc.
      - split; [reflexivity|]. apply Hacc. }
    rewrite E1. destruct o1 as [[]|e].
    + intros (ev2 & T2 & C2)%IH. exists (ev1 ++ ev2). split.
      * by rewrite T2, T1, app_assoc.
      * apply (costs_app 0 1 0 0 (length l) 0); done.
    + intros [= <- <-]. exists ev1. split; [done|].
      unfold costs_at_most in *. lia.
Qed.

(** X16. What a cycle costs at most, whatever happens in it: three requests
    to NewsAPI for each category, one request to the analyzer for each
    fetched article, no more requests to Telegram than to the analyzer, and
    one attempt to write the state file. *)
Theorem cycle_cost_is_bounded (w : World) (cfg : config) (st : bot) :
  ∃ evs,
    trace (cycle w cfg st).2 = trace st ++ evs ∧
    costs_at_most (3 * length (news_categories cfg))
      (length (concat (contributions w (news_categories cfg) (calls st)))) 1 evs.
Proof.
  destruct (fetch_loop_spec w (news_categories cfg) [] st)
    as (st0 & Hfetch & (_ & _ & ev0 & T0 & F0 & Hc0) & Hn0).
  assert (costs_at_most (3 * length (news_categories cfg)) 0 0 ev0) as C0.
  { pose proof (costs_fetch ev0 F0) as H. unfold costs_at_most in *. lia. }
  set (articles := concat (contributions w (news_categories cfg) (calls st))) in *.
  assert (∀ st1 ev1 tail,
            trace st1 = trace st0 ++ ev1 → costs_at_most 0 (length articles) 0 ev1 →
            costs_at_most 0 0 1 tail →
            ∃ evs, trace st1 ++ tail = trace st ++ evs ∧
              costs_at_most (3 * length (news_categories cfg)) (length articles) 1 evs)
    as Hsum.
  { intros st1 ev1 tail T1 C1 Ct. exists (ev0 ++ ev1 ++ tail). split.
    - by rewrite T1, T0, <- !app_assoc.
    - pose proof (costs_app _ _ _ _ _ _ _ _ C0 (costs_app _ _ _ _ _ _ _ _ C1 Ct)) as H.
      unfold costs_at_most in *. lia. }
  unfold cycle, try_except, _fetch_news. unfold mbind at 1, M_bind at 1.
  rewrite Hfetch. cbn [app]. unfold mbind at 1, M_bind at 1.
  destruct (for_each articles (_process_article w) st0) as [[[]|e] st1] eqn:E1;
    apply for_each_cost in E1 as (ev1 & T1 & C1).
  - unfold mbind at 1, M_bind at 1. rewrite save_spec, sleep_spec.
    unfold save_events.
    destruct (fetch_interval_seconds cfg <? 0)%Z; monad;
      destruct (file_write w (calls st1)); rewrite <- ?app_assoc;
      cbn [app]; (eapply Hsum; [exact T1|exact C1|]);
      unfold costs_at_most;
      repeat rewrite count_events_cons; rewrite ?count_events_nil; cbn; lia.
  - monad. rewrite <- ?app_assoc. cbn [app]. eapply Hsum; [exact T1|exact C1|].
    unfold costs_at_most.
    repeat rewrite count_events_cons; rewrite ?count_events_nil; cbn; lia.
Qed.

(** ** The further theorems at concrete inputs *)

(** X6 in a world whose feed holds the sample article, then an article
    whose title ends in a lone surrogate, then a third article. *)
Lemma raising_article_aborts_cycle_witness :
  _generate_article_id broken_article = Raise UnicodeEncodeError ∧
  cycle broken_feed_world sample_config (init broken_feed_world) =
    (Ok tt,
     mk (processed_articles
           (for_each [sample_article] (_process_article broken_feed_world)
              (_fetch_news broken_feed_world sample_config (init broken_feed_world)).2).2)
        (file (init broken_feed_world))
        (calls
           (for_each [sample_article] (_process_article broken_feed_world)
              (_fetch_news broken_feed_world sample_config (init broken_feed_world)).2).2)
        (trace
           (for_each [sample_article] (_process_article broken_feed_world)
              (_fetch_news broken_feed_world sample_config (init broken_feed_world)).2).2
         ++ [EvLog ERROR "Critical error in main loop"; EvSleep 60])).
Proof.
  assert (_generate_article_id broken_article = Raise UnicodeEncodeError) as Hbad
    by (vm_compute; reflexivity).
  split; [exact Hbad|].
  apply (raising_article_aborts_cycle broken_feed_world sample_config
           (init broken_feed_world)
           (_fetch_news broken_feed_world sample_config (init broken_feed_world)).2
           (for_each [sample_article] (_process_article broken_feed_world)
              (_fetch_news broken_feed_world sample_config (init broken_feed_world)).2).2
           (for_each [sample_article] (_process_article broken_feed_world)
              (_fetch_news broken_feed_world sample_config (init broken_feed_world)).2).2
           [sample_article] [article_AB_C] broken_article UnicodeEncodeError).
  - vm_compute. reflexivity.
  - vm_compute. reflexivity.
  - vm_compute. reflexivity.
Defined.

(** X10 after one cycle in a world whose services all answer and whose
    analyzer names AAPL. *)
Lemma restart_recovers_store_witness :
  ∃ st' content,
    _shutdown_handler (steady_world (Some aapl_text))
      (run (steady_world (Some aapl_text)) sample_config 1
         (init (steady_world (Some aapl_text)))).2 = (Ok 0%Z, st') ∧
    file st' = FileText content ∧
    load_set content =
      processed_articles (run (steady_world (Some aapl_text)) sample_config 1
                            (init (steady_world (Some aapl_text)))).2 ∧
    ∀ st1, file st1 = file st' →
      processed_articles (_load_processed_articles st1).2 =
      processed_articles (run (steady_world (Some aapl_text)) sample_config 1
                            (init (steady_world (Some aapl_text)))).2.
Proof.
  apply (restart_recovers_store (steady_world (Some aapl_text)) sample_config 1).
  reflexivity.
Defined.


(** X15 in a world whose services all answer and whose analyzer names
    AAPL: after the cycle the state file holds the fingerprint of the sample
    article. *)
Lemma complete_cycle_saves_store_witness :
  processed_articles
    (cycle (steady_world (Some aapl_text)) sample_config
       (init (steady_world (Some aapl_text)))).2 =
  processed_articles
    (for_each [sample_article] (_process_article (steady_world (Some aapl_text)))
       (_fetch_news (steady_world (Some aapl_text)) sample_config
          (init (steady_world (Some aapl_text)))).2).2 ∧
  file (cycle (steady_world (Some aapl_text)) sample_config
          (init (steady_world (Some aapl_text)))).2 =
  FileText
    (save_text
       (elements
          (processed_articles
             (for_each [sample_article] (_process_article (steady_world (Some aapl_text)))
                (_fetch_news (steady_world (Some aapl_text)) sample_config
                   (init (steady_world (Some aapl_text)))).2).2))).
Proof.
  destruct (complete_cycle_saves_store (steady_world (Some aapl_text)) sample_config
           (init (steady_world (Some aapl_text)))
           (_fetch_news (steady_world (Some aapl_text)) sample_config
              (init (steady_world (Some aapl_text)))).2
           (for_each [sample_article] (_process_article (steady_world (Some aapl_text)))
              (_fetch_news (steady_world (Some aapl_text)) sample_config
                 (init (steady_world (Some aapl_text)))).2).2
           [sample_article]) as (Hs & Hf & _).
  - vm_compute. reflexivity.
  - vm_compute. reflexivity.
  - split; [exact Hs|exact Hf].
Defined.
